(** * fvhyper: the explicit time-integration engine

    A shallow embedding of [fvhyper/src/explicit.cpp] (and of the Michalak
    limiter of [examples/forwardStep/main.cpp]) together with the properties
    of the engine that the specification states.

    The C++ code computes on [double].  The embedding is written once, over
    an interface [Arith] of the operations the code uses, and is read at two
    instances:
    - [binary64]: IEEE 754 double precision, round to nearest even, as
      specified by the standard library's [SpecFloat] (this is the program
      as it runs);
    - [exact]: the real numbers (the program as the numerical method
      intends it, without rounding).
    A statement proved for every instance of [Arith] holds in particular
    for the program on doubles. *)

From Stdlib Require Import ZArith NArith QArith Reals Lia Lra Psatz.
From Stdlib Require Import Floats.SpecFloat.
From stdpp Require Import base list.

(** ** Arithmetic on [double] *)

Class Arith (D : Type) := {
  lit : Q -> D;            (* a decimal literal of the source text *)
  dadd : D -> D -> D;
  dsub : D -> D -> D;
  dmul : D -> D -> D;
  ddiv : D -> D -> D;
  dsqrt : D -> D;
  dlt : D -> D -> bool;    (* x < y *)
  dle : D -> D -> bool     (* x <= y *)
}.

Declare Scope D_scope.
Delimit Scope D_scope with D.
Infix "+" := dadd : D_scope.
Infix "-" := dsub : D_scope.
Infix "*" := dmul : D_scope.
Infix "/" := ddiv : D_scope.
Infix "<?" := dlt : D_scope.
Infix "<=?" := dle : D_scope.
Notation "x >? y" := (dlt y x) (only parsing) : D_scope.
Notation "x >=? y" := (dle y x) (only parsing) : D_scope.

Section Literals.
Context {D : Type} `{Arith D}.

Definition zero : D := lit 0.
Definition one : D := lit 1.

(** [std::min(a, b)] is [(b < a) ? b : a]; [std::max(a, b)] is
    [(a < b) ? b : a]. *)
Definition std_min (a b : D) : D := if (b <? a)%D then b else a.
Definition std_max (a b : D) : D := if (a <? b)%D then b else a.
End Literals.

#[export] Instance arith_inhabited {D : Type} `{Arith D} : Inhabited D :=
  populate zero.

(** *** The instance of IEEE 754 binary64 *)

Module B64.
Definition prec : Z := 53.
Definition emax : Z := 1024.

Definition of_Z (z : Z) : spec_float := binary_normalize prec emax z 0 false.

(** A decimal literal [n/d] is the correctly rounded quotient of two
    integers; every literal of the source has [n] and [d] exactly
    representable, so this is the double the compiler produces. *)
Definition of_Q (q : Q) : spec_float :=
  SFdiv prec emax (of_Z (Qnum q)) (of_Z (Zpos (Qden q))).

Definition is_nan (x : spec_float) : bool :=
  match x with S754_nan => true | _ => false end.


End B64.

#[export] Instance binary64 : Arith spec_float := {|
  lit := B64.of_Q;
  dadd := SFadd B64.prec B64.emax;
  dsub := SFsub B64.prec B64.emax;
  dmul := SFmul B64.prec B64.emax;
  ddiv := SFdiv B64.prec B64.emax;
  dsqrt := SFsqrt B64.prec B64.emax;
  dlt := SFltb;
  dle := SFleb
|}.

(** *** The instance of exact real arithmetic *)

Module Exact.
Definition ltb (x y : R) : bool := if Rlt_dec x y then true else false.
Definition leb (x y : R) : bool := if Rle_dec x y then true else false.
End Exact.

#[export] Instance exact : Arith R := {|
  lit := Q2R;
  dadd := Rplus;
  dsub := Rminus;
  dmul := Rmult;
  ddiv := Rdiv;
  dsqrt := sqrt;
  dlt := Exact.ltb;
  dle := Exact.leb
|}.

(** ** Flat fields and indices

    A per-cell field is a [std::vector<double>] of length [vars * Ncells],
    indexed [vars*cell + k].  The index is computed in [unsigned int]
    (32 bits), so it wraps around. *)

Definition uint_max : N := 2 ^ 32.

Definition idx (vars i k : nat) : nat :=
  N.to_nat ((N.of_nat vars * N.of_nat i + N.of_nat k) mod uint_max).

(** [for (uint i = lo; i < hi; ++i) body] *)
Definition for_loop {S : Type} (lo hi : nat) (body : nat -> S -> S) (s : S) : S :=
  fold_left (fun acc i => body i acc) (seq lo (hi - lo)) s.

(** ** The mesh

    [mesh.h] is not part of the sources at hand; the record has the members
    that [explicit.cpp] reads, with the types its uses imply.  Row [e] of
    the matrix [edgesCells] is the pair [(edgesCells(e,0), edgesCells(e,1))];
    [edgesNodes_cols] is [edgesNodes.cols()].  A vector read out of range
    is undefined behaviour in C++: here it yields the default of the type
    and a write out of range does nothing, and the theorems assume the sizes
    under which no such access occurs. *)

Section Mesh.
Context {D : Type}.

(** A boundary kernel, a C function of [(double* b, double* q, double* n)]:
    from the ghost state [b] as it is, the owned state [q] and the normal
    [n] to the ghost state it leaves in [b]. *)
Definition bound_kernel : Type := list D -> list D -> D * D -> list D.

Record comm : Type := {
  out_rank : nat;
  snd_indices : list nat;
  rec_indices : list nat;
  snd_q : list D;
  rec_q : list D
}.

Record mesh : Type := {
  nRealCells : nat;
  cellsAreas : list D;
  cellsCentersX : list D;
  cellsCentersY : list D;
  cellsIsGhost : list bool;
  edgesNodes_cols : nat;
  edgesCells : list (nat * nat);
  edgesLengths : list D;
  edgesNormalsX : list D;
  edgesNormalsY : list D;
  edgesCentersX : list D;
  edgesCentersY : list D;
  boundaryEdges : list nat;
  boundaryFuncs : list bound_kernel;
  comms : list comm
}.

Definition set_comms (m : mesh) (cs : list comm) : mesh :=
  {| nRealCells := nRealCells m; cellsAreas := cellsAreas m;
     cellsCentersX := cellsCentersX m; cellsCentersY := cellsCentersY m;
     cellsIsGhost := cellsIsGhost m; edgesNodes_cols := edgesNodes_cols m;
     edgesCells := edgesCells m; edgesLengths := edgesLengths m;
     edgesNormalsX := edgesNormalsX m; edgesNormalsY := edgesNormalsY m;
     edgesCentersX := edgesCentersX m; edgesCentersY := edgesCentersY m;
     boundaryEdges := boundaryEdges m; boundaryFuncs := boundaryFuncs m;
     comms := cs |}.

(** [ncells m] is [m.cellsAreas.size()], the number of cells. *)
Definition ncells (m : mesh) : nat := length (cellsAreas m).

(** The cells that carry a flux balance: owned and not flagged ghost. *)
Definition owned (m : mesh) (c : nat) : bool :=
  bool_decide (c < nRealCells m) && negb (cellsIsGhost m !!! c).

(** A closed domain: every edge joins two owned cells. *)
Definition closed_domain (m : mesh) : Prop :=
  forall e, e < edgesNodes_cols m ->
    owned m (fst (edgesCells m !!! e)) = true
    /\ owned m (snd (edgesCells m !!! e)) = true.
End Mesh.

Arguments comm D : clear implicits.
Arguments mesh D : clear implicits.
Arguments bound_kernel D : clear implicits.

(** ** The numerical kernels of [explicit.cpp] *)

Section Kernels.
Context {D : Type} `{Arith D}.
Variable vars : nat.

Abbreviation field := (list D).
Notation "v .[ i , k ]" := (v !!! idx vars i k)
  (at level 1, i at level 50, k at level 50, format "v .[ i ,  k ]").

(** [&q[vars*i]]: the [vars] values of cell [i]. *)
Definition cell_state (v : field) (i : nat) : list D :=
  take vars (drop (idx vars i 0) v).

(** Writing [vars] values [b[0..vars-1]] at [&q[vars*i]]. *)
Definition write_cell (v : field) (i : nat) (b : list D) : field :=
  for_loop 0 vars (fun k v => <[idx vars i 0 + k := b !!! k]> v) v.

(** *** [calc_gradients] (lines 21-70) *)

Definition calc_gradients (gx gy q : field) (m : mesh D) : field * field :=
  (* reset gradients to be null *)
  let g := for_loop 0 (length gx)
    (fun i '(gx, gy) => (<[i := zero]> gx, <[i := zero]> gy)) (gx, gy) in
  (* update gradients using green gauss cell based *)
  let g := for_loop 0 (edgesNodes_cols m) (fun e g =>
    let '(i, j) := edgesCells m !!! e in
    let nx := edgesNormalsX m !!! e in
    let ny := edgesNormalsY m !!! e in
    let le := edgesLengths m !!! e in
    if decide (i = j) then g else
      let f k := ((q.[i, k] + q.[j, k]) * lit 0.5 * le)%D in
      for_loop 0 vars (fun k '(gx, gy) =>
        let gx := <[idx vars i k := (gx.[i, k] + f k * nx)%D]> gx in
        let gy := <[idx vars i k := (gy.[i, k] + f k * ny)%D]> gy in
        let gx := <[idx vars j k := (gx.[j, k] - f k * nx)%D]> gx in
        let gy := <[idx vars j k := (gy.[j, k] - f k * ny)%D]> gy in
        (gx, gy)) g) g in
  (* normalize by cell areas *)
  let g := for_loop 0 (nRealCells m) (fun i g =>
    let invA := (one / (cellsAreas m !!! i))%D in
    for_loop 0 vars (fun k '(gx, gy) =>
      (<[idx vars i k := (gx.[i, k] * invA)%D]> gx,
       <[idx vars i k := (gy.[i, k] * invA)%D]> gy)) g) g in
  (* set boundary gradients to zero *)
  for_loop (nRealCells m) (ncells m) (fun i g =>
    for_loop 0 vars (fun k '(gx, gy) =>
      (<[idx vars i k := zero]> gx, <[idx vars i k := zero]> gy)) g) g.

(** *** [calc_limiters] (lines 73-155) *)

Section Limiters.
Variable limiter_func : D -> D.

Definition tol : D := lit (1 # 1000000000000000).

(** The body of the innermost loop (lines 120-150): the limiter of cell
    [id] and variable [k] seen from edge [e]. *)
Definition edge_limiter (q gx gy qmin qmax : field) (m : mesh D)
    (e id k : nat) : D :=
  let dx := (edgesCentersX m !!! e - cellsCentersX m !!! id)%D in
  let dy := (edgesCentersY m !!! e - cellsCentersY m !!! id)%D in
  let area := cellsAreas m !!! id in
  let dqg := (gx.[id, k] * dx + gy.[id, k] * dy)%D in
  let delta_max := (qmax.[id, k] - q.[id, k])%D in
  let delta_min := (qmin.[id, k] - q.[id, k])%D in
  let Ka := (lit 1 * dsqrt area)%D in
  let K3a := (Ka * Ka * Ka)%D in
  let dMaxMin2 := ((delta_max - delta_min) * (delta_max - delta_min))%D in
  let sig :=
    if (dMaxMin2 <=? K3a)%D then lit 1
    else if (dMaxMin2 <? lit 2 * K3a)%D then
      let y := (dMaxMin2 / K3a - lit 1)%D in
      (lit 2 * y * y * y - lit 3 * y * y + lit 1)%D
    else lit 0 in
  let lim :=
    if (dqg >? tol)%D then limiter_func (delta_max / dqg)%D
    else if (dqg <? lit 0 - tol)%D then limiter_func (delta_min / dqg)%D
    else lit 1 in
  (sig + (lit 1 - sig) * lim)%D.

Definition calc_limiters (limiters qmin qmax q gx gy : field) (m : mesh D)
    : field * field * field :=
  (* reset limiters *)
  let limiters :=
    for_loop 0 (length limiters) (fun i l => <[i := lit 1]> l) limiters in
  (* set qmin and qmax as q *)
  let mm := for_loop 0 (length q)
    (fun i '(qmin, qmax) => (<[i := q !!! i]> qmin, <[i := q !!! i]> qmax))
    (qmin, qmax) in
  (* compute qmin and qmax *)
  let '(qmin, qmax) := for_loop 0 (length (edgesLengths m)) (fun e mm =>
    let '(i, j) := edgesCells m !!! e in
    for_loop 0 vars (fun k '(qmin, qmax) =>
      let qmin := <[idx vars i k := std_min (qmin.[i, k]) (q.[j, k])]> qmin in
      let qmin := <[idx vars j k := std_min (qmin.[j, k]) (q.[i, k])]> qmin in
      let qmax := <[idx vars i k := std_max (qmax.[i, k]) (q.[j, k])]> qmax in
      let qmax := <[idx vars j k := std_max (qmax.[j, k]) (q.[i, k])]> qmax in
      (qmin, qmax)) mm) mm in
  (* compute limiters *)
  let limiters := for_loop 0 (length (edgesLengths m)) (fun e l =>
    let '(i, j) := edgesCells m !!! e in
    fold_left (fun l id =>
      if bool_decide (id < nRealCells m) && negb (cellsIsGhost m !!! id) then
        for_loop 0 vars (fun k l =>
          let lim := edge_limiter q gx gy qmin qmax m e id k in
          <[idx vars id k := std_min (l.[id, k]) lim]> l) l
      else l) [i; j] l) limiters in
  (limiters, qmin, qmax).
End Limiters.

(** *** [calc_time_derivatives] (lines 158-222) *)

(** The user's flux kernel [calc_flux(f, qi, qj, gxi, gyi, gxj, gyj, li, lj,
    n, di, dj, area, len)], returning [f]. *)
Definition flux_kernel : Type :=
  list D -> list D -> list D -> list D -> list D -> list D ->
  list D -> list D -> D * D -> D * D -> D * D -> D -> D -> list D.

Section TimeDerivatives.
Variable calc_flux : flux_kernel.

Definition edge_flux (q gx gy limiters : field) (m : mesh D) (e : nat)
    : list D :=
  let '(i, j) := edgesCells m !!! e in
  let n := (edgesNormalsX m !!! e, edgesNormalsY m !!! e) in
  let cx := edgesCentersX m !!! e in
  let cy := edgesCentersY m !!! e in
  let di := ((cx - cellsCentersX m !!! i)%D, (cy - cellsCentersY m !!! i)%D) in
  let dj := ((cx - cellsCentersX m !!! j)%D, (cy - cellsCentersY m !!! j)%D) in
  calc_flux (cell_state q i) (cell_state q j)
    (cell_state gx i) (cell_state gy i) (cell_state gx j) (cell_state gy j)
    (cell_state limiters i) (cell_state limiters j)
    n di dj (cellsAreas m !!! i) (edgesLengths m !!! e).

(** The edge loop (lines 171-204). *)
Definition accumulate_fluxes (qt q gx gy limiters : field) (m : mesh D)
    : field :=
  for_loop 0 (edgesNodes_cols m) (fun e qt =>
    let '(i, j) := edgesCells m !!! e in
    let le := edgesLengths m !!! e in
    let f := edge_flux q gx gy limiters m e in
    for_loop 0 vars (fun k qt =>
      let qt := <[idx vars i k := (qt.[i, k] - (f !!! k) * le)%D]> qt in
      <[idx vars j k := (qt.[j, k] + (f !!! k) * le)%D]> qt) qt) qt.

(** The cell loop (lines 206-221). *)
Definition normalize_qt (qt : field) (m : mesh D) : field :=
  for_loop 0 (ncells m) (fun i qt =>
    if bool_decide (nRealCells m <= i) then
      for_loop 0 vars (fun k qt => <[idx vars i k := zero]> qt) qt
    else if (cellsIsGhost m !!! i : bool) then
      for_loop 0 vars (fun k qt => <[idx vars i k := zero]> qt) qt
    else
      let invA := (one / (cellsAreas m !!! i))%D in
      for_loop 0 vars (fun k qt => <[idx vars i k := (qt.[i, k] * invA)%D]> qt) qt)
    qt.

Definition calc_time_derivatives (qt q gx gy limiters : field) (m : mesh D)
    : field :=
  (* reset qt to be null *)
  let qt := for_loop 0 (length qt) (fun i qt => <[i := zero]> qt) qt in
  normalize_qt (accumulate_fluxes qt q gx gy limiters m) m.
End TimeDerivatives.

(** *** [update_cells] (lines 226-236) *)

Definition update_cells (q ql qt dt : field) (v : D) : field :=
  for_loop 0 (length q)
    (fun i q => <[i := (ql !!! i + qt !!! i * dt !!! i * v)%D]> q) q.

(** *** [update_bounds] (lines 238-254) *)

Definition update_bounds (q : field) (m : mesh D) : field :=
  for_loop 0 (length (boundaryEdges m)) (fun i q =>
    let e := boundaryEdges m !!! i in
    let n := (edgesNormalsX m !!! e, edgesNormalsY m !!! e) in
    let cells := edgesCells m !!! e in
    match boundaryFuncs m !! i with
    | Some kernel =>
        write_cell q (snd cells)
          (kernel (cell_state q (snd cells)) (cell_state q (fst cells)) n)
    | None => q
    end) q.

(** *** [min_dt] (lines 390-399) *)

Definition min_dt (dt : field) : field :=
  let m0 := dt !!! 0 in
  let m1 := for_loop 0 (length dt) (fun i md => std_min md (dt !!! i)) m0 in
  for_loop 0 (length dt) (fun i dt => <[i := m1]> dt) dt.

End Kernels.

(** *** [limiter_func] of [examples/forwardStep/main.cpp] (lines 57-66) *)

Definition michalak {D : Type} `{Arith D} (y : D) : D :=
  let yt := lit 2 in
  if (y >=? yt)%D then lit 1
  else
    let a := (lit 1 / (yt * yt) - lit 2 / (yt * yt * yt))%D in
    let b := (lit (-3) / lit 2 * a * yt - lit 0.5 / yt)%D in
    (a * y * y * y + b * y * y + y)%D.

(** ** Message passing

    A rank's code is a state transformer over its view [net] of the rest of
    the world: the MPI calls it has issued so far, in program order, and the
    messages that reach it.  [incoming src n] is the [n]-th message that
    arrives from rank [src]: every receive of the source names its sender
    and uses tag 0, and MPI delivers the messages between two ranks in the
    order they were sent, so the [n]-th receive from [src] gets that
    message.  A send is recorded with the data it carries when it is
    posted.  [MPI_Wait] is the call that completes a request; the source
    issues it nowhere. *)

Section MessagePassing.
Context {D : Type}.

Inductive mpi_call : Type :=
  | MPI_Isend (dest : nat) (data : list D) (request : nat)
  | MPI_Send (dest : nat) (data : list D)
  | MPI_Recv (source : nat) (count : nat)
  | MPI_Request_free (request : nat)
  | MPI_Wait (request : nat).

Record net : Type := {
  incoming : nat -> nat -> list D;
  calls : list mpi_call
}.

Definition Comm (A : Type) : Type := net -> A * net.

Definition ret {A : Type} (a : A) : Comm A := fun w => (a, w).

Definition bind {A B : Type} (c : Comm A) (k : A -> Comm B) : Comm B :=
  fun w => let '(a, w') := c w in k a w'.

Definition issue (c : mpi_call) : Comm unit :=
  fun w => (tt, {| incoming := incoming w; calls := calls w ++ [c] |}).

Definition is_recv_from (src : nat) (c : mpi_call) : bool :=
  match c with MPI_Recv s _ => bool_decide (s = src) | _ => false end.

(** The number of messages already received from [src]. *)
Definition received_from (src : nat) (cs : list mpi_call) : nat :=
  length (filter (fun c => is_recv_from src c = true) cs).

(** [MPI_Recv(buf, count, MPI_DOUBLE, src, 0, ...)]: the message. *)
Definition mpi_recv (src count : nat) : Comm (list D) :=
  fun w => (incoming w src (received_from src (calls w)),
            {| incoming := incoming w;
               calls := calls w ++ [MPI_Recv src count] |}).

(** What a receive of at most [count] values leaves in the buffer [buf]. *)
Definition recv_into (buf : list D) (count : nat) (msg : list D) : list D :=
  let n := Nat.min (length msg) count in
  take n msg ++ drop n buf.

(** The messages a rank has sent to [dest], in order. *)
Definition sent_to (dest : nat) (cs : list mpi_call) : list (list D) :=
  omap (fun c => match c with
                 | MPI_Isend d data _ | MPI_Send d data =>
                     if decide (d = dest) then Some data else None
                 | _ => None
                 end) cs.

(** The calls that a computation adds to the history. *)
Definition issued_by {A : Type} (c : Comm A) (w : net) : list mpi_call :=
  drop (length (calls w)) (calls (snd (c w))).

(** [c] completes the request [r]. *)
Definition completes (r : nat) (c : mpi_call) : bool :=
  match c with MPI_Wait r' => bool_decide (r' = r) | _ => false end.

(** Every non-blocking send of the history is followed by a call that
    completes its request. *)
Fixpoint waits_for_sends (cs : list mpi_call) : bool :=
  match cs with
  | [] => true
  | MPI_Isend _ _ r :: cs => existsb (completes r) cs && waits_for_sends cs
  | _ :: cs => waits_for_sends cs
  end.

(** A loop whose body communicates. *)
Definition for_loopM {S : Type} (lo hi : nat) (body : nat -> S -> Comm S)
    (s : S) : Comm S :=
  fold_left (fun acc i => bind acc (body i)) (seq lo (hi - lo)) (ret s).

(** [mpi_wrapper]: the rank of this process and the number of processes. *)
Record mpi_wrapper : Type := { rank : nat; size : nat }.
End MessagePassing.

Arguments mpi_call D : clear implicits.
Arguments net D : clear implicits.
Arguments Comm D A : clear implicits.

Notation "x <- c ;; k" := (bind c (fun x => k))
  (at level 20, c at level 99, k at level 200, only parsing).
Notation "' pat <- c ;; k" := (bind c (fun pat => k))
  (at level 20, pat pattern, c at level 99, k at level 200, only parsing).

Section Collectives.
Context {D : Type} `{Arith D}.
Variable vars : nat.

(** The content of an uninitialised [double]. *)
Variable indeterminate : D.

Abbreviation field := (list D).
Notation "v .[ i , k ]" := (v !!! idx vars i k)
  (at level 1, i at level 50, k at level 50, format "v .[ i ,  k ]").

(** *** [update_comms] (lines 257-312) *)

(** Lines 266-272: filling the send buffer of a channel. *)
Definition pack (q : field) (c : comm D) : comm D :=
  let filled := fold_left (fun '(buf, iter) i =>
      (for_loop 0 vars (fun j buf => <[idx vars iter j := q.[i, j]]> buf) buf,
       S iter)) (snd_indices c) (snd_q c, 0) in
  {| out_rank := out_rank c; snd_indices := snd_indices c;
     rec_indices := rec_indices c; snd_q := fst filled; rec_q := rec_q c |}.

(** Lines 299-305: copying the receive buffer of a channel into the field. *)
Definition unpack (q : field) (c : comm D) : field :=
  fst (fold_left (fun '(q, iter) i =>
      (for_loop 0 vars (fun j q => <[idx vars i j := (rec_q c).[iter, j]]> q) q,
       S iter)) (rec_indices c) (q, 0)).

Definition update_comms (q : field) (m : mesh D)
    : Comm D (field * mesh D) :=
  (* pack, and send values *)
  '(cs, _) <- fold_left (fun acc c =>
      '(cs, k) <- acc ;;
      let c := pack q c in
      'tt <- issue (MPI_Isend (out_rank c) (snd_q c) k) ;;
      ret (cs ++ [c], S k)) (comms m) (ret ([], 0)) ;;
  (* receive values from all communicating cells *)
  '(q, cs) <- fold_left (fun acc c =>
      '(q, cs) <- acc ;;
      msg <- mpi_recv (out_rank c) (length (rec_q c)) ;;
      let c := {| out_rank := out_rank c; snd_indices := snd_indices c;
                  rec_indices := rec_indices c; snd_q := snd_q c;
                  rec_q := recv_into (rec_q c) (length (rec_q c)) msg |} in
      ret (unpack q c, cs ++ [c])) cs (ret (q, [])) ;;
  (* free requests *)
  'tt <- for_loopM 0 (length (comms m))
         (fun i _ => issue (MPI_Request_free i)) tt ;;
  ret (q, set_comms m cs).

(** The sends of lines 275-283 for the channels [l], the first of them with
    the request [k0]. *)
Definition isends (q : field) (k0 : nat) (l : list (comm D))
    : list (mpi_call D) :=
  zip_with (fun k c => MPI_Isend (out_rank c) (snd_q (pack q c)) k)
    (seq k0 (length l)) l.

(** *** [calc_residuals] (lines 316-387) *)

(** Lines 322-331: the part of the residual that a rank owns. *)
Definition local_residuals (R : list D) (qt : field) (m : mesh D) : list D :=
  let R := for_loop 0 vars (fun i R => <[i := zero]> R) R in
  for_loop 0 (nRealCells m) (fun i R =>
    if negb (cellsIsGhost m !!! i) then
      for_loop 0 vars (fun j R =>
        <[j := (R !!! j + qt.[i, j] * qt.[i, j] * cellsAreas m !!! i)%D]> R) R
    else R) R.

Definition calc_residuals (R : list D) (qt : field) (m : mesh D)
    (pool : mpi_wrapper) : Comm D (list D) :=
  let R := local_residuals R qt m in
  R <- (if decide (rank pool = 0) then
          '(R, _) <- for_loopM 1 (size pool) (fun i '(R, R_other) =>
              msg <- mpi_recv i vars ;;
              let R_other := recv_into R_other vars msg in
              ret (for_loop 0 vars
                     (fun j R => <[j := (R !!! j + R_other !!! j)%D]> R) R,
                   R_other))
            (R, replicate vars indeterminate) ;;
          ret R
        else
          'tt <- issue (MPI_Send 0 (take vars R)) ;; ret R) ;;
  let R := for_loop 0 vars (fun i R => <[i := dsqrt (R !!! i)]> R) R in
  if decide (rank pool = 0) then
    'tt <- for_loopM 1 (size pool)
           (fun i _ => issue (MPI_Send i (take vars R))) tt ;;
    ret R
  else
    msg <- mpi_recv 0 vars ;;
    ret (recv_into R vars msg).

(** *** [validate_dt] (lines 402-456) *)

Definition validate_dt (dt : field) (pool : mpi_wrapper) : Comm D field :=
  (* send dt to node 0 *)
  dt <- (if decide (rank pool = 0) then
           dti <- for_loopM 1 (size pool) (fun i dti =>
               msg <- mpi_recv i 1 ;;
               ret (hd dti msg)) indeterminate ;;
           ret (<[0 := std_min (dt !!! 0) dti]> dt)
         else
           'tt <- issue (MPI_Send 0 (take 1 dt)) ;; ret dt) ;;
  (* send dt to all other nodes *)
  if decide (rank pool = 0) then
    'tt <- for_loopM 1 (size pool)
           (fun i _ => issue (MPI_Send i (take 1 dt))) tt ;;
    ret dt
  else
    msg <- mpi_recv 0 1 ;;
    let dt := recv_into dt 1 msg in
    (* dispatch this dt to all other dts *)
    ret (for_loop 1 (length dt) (fun i dt => <[i := dt !!! 0]> dt) dt).
End Collectives.

(** ** Parts of the program that can be killed

    The driver takes a remainder by [opt.print_interval], which is
    undefined for a divisor 0: the process is killed by SIGFPE.  A part of
    the program that can be killed gives [Value a] when it returns [a] and
    [Killed] otherwise. *)

Inductive outcome (A : Type) : Type :=
  | Value (a : A)
  | Killed.

Arguments Value {A} a.
Arguments Killed {A}.

(** ** The driver *)

Section Driver.
Context {D : Type} `{Arith D}.

(** The symbols of the user's problem that the engine links against:
    [vars], the flags of [namespace solver] and the kernels. *)
Record problem : Type := {
  vars : nat;
  do_calc_gradients : bool;
  do_calc_limiters : bool;
  global_dt : bool;
  generate_initial_solution : list D -> mesh D -> list D;
  limiter_func : D -> D;
  calc_flux : @flux_kernel D;
  calc_dt : list D -> list D -> mesh D -> list D
}.

(** The fields that [complete_calc_qt] works on besides [q]. *)
Record work : Type := {
  w_qt : list D;
  w_gx : list D;
  w_gy : list D;
  w_qmin : list D;
  w_qmax : list D;
  w_limiters : list D
}.

Variable P : problem.
Variable indeterminate : D.
Variable pool : mpi_wrapper.

(** *** [complete_calc_qt] (lines 460-488) *)

Definition complete_calc_qt (w : work) (q : list D) (m : mesh D)
    : Comm D (work * mesh D) :=
  (* compute gradients *)
  '(gx, gy, m) <-
    (if do_calc_gradients P then
       let '(gx, gy) := calc_gradients (vars P) (w_gx w) (w_gy w) q m in
       if decide (1 < size pool) then
         '(gx, m) <- update_comms (vars P) gx m ;;
         '(gy, m) <- update_comms (vars P) gy m ;;
         ret (gx, gy, m)
       else ret (gx, gy, m)
     else ret (w_gx w, w_gy w, m)) ;;
  (* compute limiters *)
  '(limiters, qmin, qmax, m) <-
    (if do_calc_limiters P then
       let '(limiters, qmin, qmax) :=
         calc_limiters (vars P) (limiter_func P)
           (w_limiters w) (w_qmin w) (w_qmax w) q gx gy m in
       if decide (1 < size pool) then
         '(limiters, m) <- update_comms (vars P) limiters m ;;
         ret (limiters, qmin, qmax, m)
       else ret (limiters, qmin, qmax, m)
     else ret (w_limiters w, w_qmin w, w_qmax w, m)) ;;
  (* compute time derivative *)
  ret ({| w_qt := calc_time_derivatives (vars P) (calc_flux P)
                    (w_qt w) q gx gy limiters m;
          w_gx := gx; w_gy := gy; w_qmin := qmin; w_qmax := qmax;
          w_limiters := limiters |}, m).

(** *** [run] (lines 492-596)

    [solverOptions] is declared in a header that is not at hand; [max_step]
    and [print_interval] are taken to be [unsigned int], like [step].  The
    lines written to [std::cout] are not modelled. *)

Record solverOptions : Type := {
  max_step : N;
  max_time : D;
  print_interval : N;
  tolerance : D
}.

Record driver : Type := {
  d_q : list D;
  d_qk : list D;
  d_work : work;
  d_dt : list D;
  d_mesh : mesh D;
  d_R0 : list D;
  d_R : list D;
  d_step : N;
  d_time : D
}.

Variable opt : solverOptions.

(** RK5 stage coefficients *)
Definition alpha : list D := [lit 0.05; lit 0.125; lit 0.25; lit 0.5; lit 1].

(** Lines 499-522. *)
Definition run_init (q : list D) (m : mesh D) : driver :=
  let n := vars P * ncells m in
  let q := take n q ++ replicate (n - length q) zero in
  let q := generate_initial_solution P q m in
  let z := replicate (length q) zero in
  {| d_q := q; d_qk := z;
     d_work := {| w_qt := z; w_gx := z; w_gy := z; w_qmin := z; w_qmax := z;
                  w_limiters := z |};
     d_dt := z; d_mesh := m;
     d_R0 := replicate (vars P) indeterminate;
     d_R := replicate (vars P) (lit 1);
     d_step := 0; d_time := lit 0 |}.

(** Lines 537-540: the residual that the convergence check looks at. *)
Definition Rmax (st : driver) : D :=
  if (0 <? d_step st)%N then
    for_loop 0 (vars P) (fun i Rmax => std_max (d_R st !!! i) Rmax) (lit 0)
  else lit 1.

(** Line 542: the condition under which the loop is left. *)
Definition stops (st : driver) : bool :=
  (max_step opt <=? d_step st)%N
  || (d_time st >=? max_time opt)%D
  || (Rmax st <? tolerance opt)%D.

(** Lines 563-568: one Runge-Kutta stage. *)
Definition rk_stage (q dt : list D) (a : D)
    (s : list D * work * mesh D) : Comm D (list D * work * mesh D) :=
  let '(qk, w, m) := s in
  '(w, m) <- complete_calc_qt w qk m ;;
  let qk := update_cells qk q (w_qt w) dt a in
  if decide (1 < size pool) then
    '(qk, m) <- update_comms (vars P) qk m ;; ret (qk, w, m)
  else ret (qk, w, m).

(** Lines 547-570: the pass up to the residuals. *)
Definition advance (st : driver)
    : Comm D (list D * list D * work * list D * mesh D) :=
  let m := d_mesh st in
  (* update the ghost cells with boundary conditions *)
  let q := update_bounds (vars P) (d_q st) m in
  (* compute time step and update comms with dt *)
  let dt := calc_dt P (d_dt st) q m in
  '(dt, m) <- (if decide (1 < size pool) then update_comms (vars P) dt m
               else ret (dt, m)) ;;
  dt <- (if global_dt P then
           let dt := min_dt dt in
           if decide (1 < size pool) then validate_dt indeterminate dt pool
           else ret dt
         else ret dt) ;;
  (* store q in qk *)
  let qk := for_loop 0 (length q) (fun i qk => <[i := q !!! i]> qk) (d_qk st) in
  (* Runge-Kutta iterations *)
  '(qk, w, m) <- fold_left (fun acc a => s <- acc ;; rk_stage q dt a s)
                   alpha (ret (qk, d_work st, m)) ;;
  (* get back qk values into q *)
  let q := for_loop 0 (length q) (fun i q => <[i := qk !!! i]> q) q in
  ret (q, qk, w, dt, m).

(** Lines 572-589: the residuals after the stages.  Line 576 is
    [(step % opt.print_interval == 0)|(opt.tolerance > 1.01e-16)]: the
    operator [|] evaluates both sides, so the remainder is taken in every
    pass with [step != 0].  For [print_interval = 0] it is undefined (the
    process is killed by SIGFPE): [Killed]. *)
Definition update_residuals (st : driver) (qt : list D) (m : mesh D)
    : Comm D (outcome (list D * list D)) :=
  if (d_step st =? 0)%N then
    R0 <- calc_residuals (vars P) indeterminate (d_R0 st) qt m pool ;;
    ret (Value
           (R0, for_loop 0 (vars P) (fun i R => <[i := R0 !!! i]> R) (d_R st)))
  else if (print_interval opt =? 0)%N then ret Killed
  else if ((d_step st mod print_interval opt =? 0)%N
           || (tolerance opt >? lit 1.01e-16)%D) then
    R <- calc_residuals (vars P) indeterminate (d_R st) qt m pool ;;
    ret (Value
           (d_R0 st,
            for_loop 0 (vars P)
              (fun i R => <[i := (R !!! i / d_R0 st !!! i)%D]> R) R))
  else ret (Value (d_R0 st, d_R st)).

(** Lines 547-593: the body of the loop. *)
Definition time_step (st : driver) : Comm D (outcome driver) :=
  '(q, qk, w, dt, m) <- advance st ;;
  (* compute residuals *)
  r <- update_residuals st (w_qt w) m ;;
  match r with
  | Killed => ret Killed
  | Value (R0, R) =>
      (* edit step and time *)
      ret (Value
             {| d_q := q; d_qk := qk; d_work := w; d_dt := dt; d_mesh := m;
                d_R0 := R0; d_R := R;
                d_step := (d_step st + 1) mod uint_max;
                d_time := if global_dt P then (d_time st + dt !!! 0)%D
                          else d_time st |})
  end.

(** Lines 534-594: [while (running)].  [None] when the loop is still
    running after [fuel] iterations, [Some Killed] when a pass was killed,
    [Some (Value st)] when the loop was left in the state [st]. *)
Fixpoint run_loop (fuel : nat) (st : driver)
    : Comm D (option (outcome driver)) :=
  match fuel with
  | 0 => ret None
  | S fuel =>
      if stops st then ret (Some (Value st))
      else
        r <- time_step st ;;
        match r with
        | Killed => ret (Some Killed)
        | Value st => run_loop fuel st
        end
  end.

Definition run (fuel : nat) (q : list D) (m : mesh D)
    : Comm D (option (outcome driver)) :=
  run_loop fuel (run_init q m).

(** The state, and the view of the world, after [n] passes through the
    body of the loop; [Killed] when one of the passes was. *)
Fixpoint iterate (n : nat) (s : driver * net D) : outcome driver * net D :=
  match n with
  | 0 => (Value (fst s), snd s)
  | S n =>
      match time_step (fst s) (snd s) with
      | (Value st, w) => iterate n (st, w)
      | (Killed, w) => (Killed, w)
      end
  end.
End Driver.

Arguments problem D : clear implicits.
Arguments work D : clear implicits.
Arguments driver D : clear implicits.
Arguments solverOptions D : clear implicits.

(** *** The termination condition that the specification states

    At the top of an iteration: [step >= max_step], or [time >= max_time],
    or every residual is below the tolerance.  The maximum of the code
    starts from [0.0], so [0.0] has to be below the tolerance as well; at
    step 0 the maximum is [1.0]. *)

Section Termination.
Context {D : Type} `{Arith D}.
Variable P : problem D.
Variable opt : solverOptions D.

Definition residuals_below_tolerance (st : driver D) : Prop :=
  if (0 <? d_step st)%N then
    (lit 0 <? tolerance opt)%D = true
    /\ forall k, k < vars P -> (d_R st !!! k <? tolerance opt)%D = true
  else (lit 1 <? tolerance opt)%D = true.

Definition termination_condition (st : driver D) : Prop :=
  (max_step opt <= d_step st)%N
  \/ (d_time st >=? max_time opt)%D = true
  \/ residuals_below_tolerance st.
End Termination.

(** On doubles: no residual is NaN. *)
Definition residuals_defined (P : problem spec_float)
    (st : driver spec_float) : Prop :=
  forall k, k < vars P -> B64.is_nan (d_R st !!! k) = false.

(** ** Executions of all ranks

    An execution of a collective operation assigns to every rank [r] the
    messages [inbox r] that reach it and runs the rank's code on them from
    an empty history of calls.  It is an execution of the message-passing
    system when every rank receives what was sent to it: the [n]-th message
    that [r] receives from [s] is the [n]-th message that [s] sent to [r]. *)

Section World.
Context {D : Type} {A : Type}.

Definition start (inbox : nat -> nat -> list D) : net D :=
  {| incoming := inbox; calls := [] |}.

(** The result and the calls of rank [r] of [nranks] running [prog r]. *)
Definition run_rank (prog : nat -> Comm D A)
    (inbox : nat -> nat -> nat -> list D) (r : nat) : A * net D :=
  prog r (start (inbox r)).

Definition delivered (nranks : nat) (prog : nat -> Comm D A)
    (inbox : nat -> nat -> nat -> list D) : Prop :=
  forall r s n, r < nranks -> s < nranks ->
    n < received_from s (calls (snd (run_rank prog inbox r))) ->
    sent_to r (calls (snd (run_rank prog inbox s))) !! n = Some (inbox r s n).
End World.

(** Two meshes that differ at most in the buffers of their channels. *)
Definition same_geometry {D : Type} (m m' : mesh D) : Prop :=
  set_comms m' [] = set_comms m [].

(** ** A small instance: a strip of cells on one rank

    Two owned cells of area 1 and 2 and one boundary ghost cell, in a row;
    an interior edge between the owned cells and a boundary edge to the
    ghost cell; one variable; a first-order upwind flux and a boundary
    kernel that copies the owned state.  The instance is over [binary64]
    and is used to run the engine. *)

Module Strip.
Definition m : mesh spec_float := {|
  nRealCells := 2;
  cellsAreas := [lit 1; lit 2; lit 1];
  cellsCentersX := [lit 0.5; lit 2; lit 3.5];
  cellsCentersY := [lit 0; lit 0; lit 0];
  cellsIsGhost := [false; false; false];
  edgesNodes_cols := 2;
  edgesCells := [(0, 1); (1, 2)];
  edgesLengths := [lit 1; lit 1];
  edgesNormalsX := [lit 1; lit 1];
  edgesNormalsY := [lit 0; lit 0];
  edgesCentersX := [lit 1; lit 3];
  edgesCentersY := [lit 0; lit 0];
  boundaryEdges := [1];
  boundaryFuncs := [fun b q n => q];
  comms := []
|}.

Definition upwind : @flux_kernel spec_float :=
  fun qi qj gxi gyi gxj gyj li lj n di dj area len => [qi !!! 0].

Definition P : problem spec_float := {|
  vars := 1;
  do_calc_gradients := true;
  do_calc_limiters := true;
  global_dt := true;
  generate_initial_solution := fun q m => [lit 3; lit 1; lit 0];
  limiter_func := michalak;
  calc_flux := upwind;
  calc_dt := fun dt q m => replicate (length dt) (lit 0.125)
|}.

Definition pool : mpi_wrapper := {| rank := 0; size := 1 |}.

Definition w0 : work spec_float :=
  let z := replicate 3 zero in
  {| w_qt := z; w_gx := z; w_gy := z; w_qmin := z; w_qmax := z;
     w_limiters := z |}.

Definition q0 : list spec_float := [lit 3; lit 1; lit 1].

Definition quiet : net spec_float := start (fun _ _ => []).
End Strip.

(** ** A small instance: a rank with a halo cell

    Two cells below [nRealCells]: cell 0 is owned, cell 1 carries the ghost
    flag (it belongs to rank 1) and is filled by the halo exchange; one
    edge between them and one channel to rank 1. *)

Module Halo.
Definition m : mesh spec_float := {|
  nRealCells := 2;
  cellsAreas := [lit 1; lit 1];
  cellsCentersX := [lit 0; lit 2];
  cellsCentersY := [lit 0; lit 0];
  cellsIsGhost := [false; true];
  edgesNodes_cols := 1;
  edgesCells := [(0, 1)];
  edgesLengths := [lit 1];
  edgesNormalsX := [lit 1];
  edgesNormalsY := [lit 0];
  edgesCentersX := [lit 1];
  edgesCentersY := [lit 0];
  boundaryEdges := [];
  boundaryFuncs := [];
  comms := [{| out_rank := 1; snd_indices := [0]; rec_indices := [1];
               snd_q := [zero]; rec_q := [zero] |}]
|}.

Definition q0 : list spec_float := [lit 2; lit 4].

(** The same mesh in exact arithmetic. *)
Definition m_exact : mesh R := {|
  nRealCells := 2;
  cellsAreas := [lit 1; lit 1];
  cellsCentersX := [lit 0; lit 2];
  cellsCentersY := [lit 0; lit 0];
  cellsIsGhost := [false; true];
  edgesNodes_cols := 1;
  edgesCells := [(0, 1)];
  edgesLengths := [lit 1];
  edgesNormalsX := [lit 1];
  edgesNormalsY := [lit 0];
  edgesCentersX := [lit 1];
  edgesCentersY := [lit 0];
  boundaryEdges := [];
  boundaryFuncs := [];
  comms := []
|}.

(** A state whose owned cell is a local maximum that exceeds its
    neighbour by [6369051672525770 * 2^-52], a little less than the square
    root of 2. *)
Definition q_step : list spec_float :=
  [S754_finite false 6369051672525770 (-52); lit 0].
End Halo.

(** ** The conserved total

    [total vars m q k] is the sum over the cells of [A[c] * q[vars*c+k]]. *)

Definition total {D : Type} `{Arith D} (vars : nat) (m : mesh D) (q : list D)
    (k : nat) : D :=
  for_loop 0 (ncells m)
    (fun c s => (s + cellsAreas m !!! c * q !!! (vars * c + k)%nat)%D) zero.


(** A finite sum of reals. *)
Fixpoint sumR (n : nat) (f : nat -> R) : R :=
  match n with
  | 0 => 0%R
  | S n => (sumR n f + f n)%R
  end.

(** ** A small instance: a closed box on one rank

    Two owned cells of area 1 and 3 joined by one edge, and nothing else:
    no ghost cell, no boundary edge, no channel.  One variable, a
    first-order upwind flux, a constant time step.  The instance exists in
    every arithmetic. *)

Module Box.
Section Box.
Context {D : Type} `{Arith D}.

Definition m : mesh D := {|
  nRealCells := 2;
  cellsAreas := [lit 1; lit 3];
  cellsCentersX := [lit 0.5; lit 2.5];
  cellsCentersY := [lit 0; lit 0];
  cellsIsGhost := [false; false];
  edgesNodes_cols := 1;
  edgesCells := [(0, 1)];
  edgesLengths := [lit 1];
  edgesNormalsX := [lit 1];
  edgesNormalsY := [lit 0];
  edgesCentersX := [lit 1];
  edgesCentersY := [lit 0];
  boundaryEdges := [];
  boundaryFuncs := [];
  comms := []
|}.

Definition upwind : @flux_kernel D :=
  fun qi qj gxi gyi gxj gyj li lj n di dj area len => [qi !!! 0].

Definition P : problem D := {|
  vars := 1;
  do_calc_gradients := true;
  do_calc_limiters := true;
  global_dt := true;
  generate_initial_solution := fun q m => [lit 1; lit 0];
  limiter_func := michalak;
  calc_flux := upwind;
  calc_dt := fun dt q m => replicate (length dt) (lit 0.125)
|}.

Definition pool : mpi_wrapper := {| rank := 0; size := 1 |}.

Definition opt : solverOptions D := {|
  max_step := 3;
  max_time := lit 100;
  print_interval := 1;
  tolerance := lit 1e-12
|}.

(** The state with which [run] enters its loop. *)
Definition st : driver D := run_init P zero [] m.

Definition quiet : net D := start (fun _ _ => []).
End Box.
End Box.

(** ** A small instance: a variable that starts at rest

    Three variables on two cells of a closed domain.  The flux of variable
    0 is constant, that of variable 1 is zero, that of variable 2 relaxes
    the difference of the two cells.  The first residual of variable 1 is
    [0.0], so its relative residual is [0.0/0.0] from the second step on. *)

Module Masked.
Definition m : mesh spec_float := {|
  nRealCells := 2;
  cellsAreas := [lit 1; lit 1];
  cellsCentersX := [lit 0.5; lit 1.5];
  cellsCentersY := [lit 0; lit 0];
  cellsIsGhost := [false; false];
  edgesNodes_cols := 1;
  edgesCells := [(0, 1)];
  edgesLengths := [lit 1];
  edgesNormalsX := [lit 1];
  edgesNormalsY := [lit 0];
  edgesCentersX := [lit 1];
  edgesCentersY := [lit 0];
  boundaryEdges := [];
  boundaryFuncs := [];
  comms := []
|}.

Definition flux : @flux_kernel spec_float :=
  fun qi qj gxi gyi gxj gyj li lj n di dj area len =>
    [lit 1; lit 0; (qi !!! 2 - qj !!! 2)%D].

Definition P : problem spec_float := {|
  vars := 3;
  do_calc_gradients := false;
  do_calc_limiters := false;
  global_dt := true;
  generate_initial_solution :=
    fun q m => [lit 1; lit 1; lit 1; lit 1; lit 1; lit 0];
  limiter_func := michalak;
  calc_flux := flux;
  calc_dt := fun dt q m => replicate (length dt) (lit 0.25)
|}.

Definition pool : mpi_wrapper := {| rank := 0; size := 1 |}.

Definition opt : solverOptions spec_float := {|
  max_step := 1000;
  max_time := lit 1000;
  print_interval := 10;
  tolerance := lit 0.5
|}.

Definition quiet : net spec_float := start (fun _ _ => []).
End Masked.

(** ** The residual norm that the specification states

    Over all ranks, the square root of the sum of [qt[c,k]^2 * A[c]] over
    the owned, non-ghost cells: the cells of a rank are summed in the order
    of their indices, the ranks in the order of their numbers. *)

Section ResidualNorm.
Context {D : Type} `{Arith D}.
Variable vars : nat.

Definition owned_terms (qt : list D) (m : mesh D) (k : nat) : list D :=
  map (fun c => (qt !!! idx vars c k * qt !!! idx vars c k
                 * cellsAreas m !!! c)%D)
      (filter (fun c => cellsIsGhost m !!! c = false) (seq 0 (nRealCells m))).

Definition sum_list (l : list D) : D := fold_left dadd l zero.

(** The sum of the contributions of the ranks [0..n-1]. *)
Definition sum_ranks (n : nat) (f : nat -> D) : D :=
  fold_left dadd (map f (seq 1 (n - 1))) (f 0).

Definition residual_norm (n : nat) (qt : nat -> list D) (m : nat -> mesh D)
    (k : nat) : D :=
  dsqrt (sum_ranks n (fun r => sum_list (owned_terms (qt r) (m r) k))).
End ResidualNorm.

(** ** A small instance: two ranks

    Each rank has the mesh [Halo.m]: one owned cell and one halo cell.
    The rates of change are 3 on rank 0 and 4 on rank 1, so that the
    residual norm is 5. *)

Module TwoRanks.
Definition n : nat := 2.
Definition R0 (r : nat) : list spec_float := [zero].
Definition qt (r : nat) : list spec_float :=
  if decide (r = 0) then [lit 3; lit 0] else [lit 4; lit 0].
Definition m (r : nat) : mesh spec_float := Halo.m.

(** What reaches rank [r] from rank [s] when all ranks call
    [calc_residuals]. *)
Definition residual_inbox (r s k : nat) : list spec_float :=
  if decide (r = 0) then [lit 16] else [lit 5].

(** The time steps of the two ranks before [validate_dt]: rank 1 has the
    smaller one. *)
Definition dt (r : nat) : list spec_float :=
  if decide (r = 0) then [lit 5; lit 5] else [lit 3; lit 3].

(** What reaches rank [r] from rank [s] when all ranks call
    [validate_dt]. *)
Definition dt_inbox (r s k : nat) : list spec_float := [lit 3].
End TwoRanks.

(** ** A small instance: three ranks with one time step each

    Rank 1 has the smallest time step. *)

Module ThreeRanks.
Definition n : nat := 3.
Definition dt (r : nat) : list spec_float :=
  match r with 0 => [lit 5] | 1 => [lit 1] | _ => [lit 3] end.

(** What reaches rank [r] from rank [s] when all ranks call
    [validate_dt]: the root receives the time steps of the others, the
    others receive what the root has made of them. *)
Definition dt_inbox (r s k : nat) : list spec_float :=
  if decide (r = 0) then take 1 (dt s) else [lit 3].
End ThreeRanks.

(** The global reduction of the time step (lines 553-556 of [run]) on
    rank [r] of [n]: [min_dt], then [validate_dt]. *)
Definition reduce_dt {D : Type} `{Arith D} (indeterminate : D) (n : nat)
    (dt : nat -> list D) (r : nat) : Comm D (list D) :=
  validate_dt indeterminate (min_dt (dt r)) {| rank := r; size := n |}.

(** The residual reduction on rank [r] of [n]: [calc_residuals] on the
    fields and the mesh of that rank. *)
Definition residuals_prog {D : Type} `{Arith D} (vars : nat)
    (indeterminate : D) (n : nat) (R0 qt : nat -> list D)
    (m : nat -> mesh D) (r : nat) : Comm D (list D) :=
  calc_residuals vars indeterminate (R0 r) (qt r) (m r)
    {| rank := r; size := n |}.


(** ** Kernels outside the engine *)

(** *** [gradient_for_diffusion] (lines 10-18 of [explicit.cpp]) *)

Definition gradient_for_diffusion {D : Type} `{Arith D}
    (qi qj : list D) (n : D * D) (area len : D) : D * D :=
  (((qj !!! 0 - qi !!! 0) * fst n * len / area)%D,
   ((qj !!! 0 - qi !!! 0) * snd n * len / area)%D).

(** ** The kernels of [examples/forwardStep/main.cpp] *)

Module ForwardStep.
Section ForwardStep.
Context {D : Type} `{Arith D}.

(** [consts::gamma] and [consts::mach]: globals that the file never
    assigns to. *)
Definition gamma : D := lit 1.4.
Definition mach : D := lit 3.

(** [calc_p] (lines 37-39) *)
Definition calc_p (q : list D) : D :=
  ((gamma - lit 1)
   * (q !!! 3 - lit 0.5 / q !!! 0 * (q !!! 1 * q !!! 1 + q !!! 2 * q !!! 2)))%D.

(** [boundaries::wall] (lines 262-269) *)
Definition wall : bound_kernel D := fun b q n =>
  [q !!! 0;
   (q !!! 1 - lit 2 * fst n * (fst n * q !!! 1 + snd n * q !!! 2))%D;
   (q !!! 2 - lit 2 * snd n * (fst n * q !!! 1 + snd n * q !!! 2))%D;
   q !!! 3].

(** [boundaries::inlet_outlet] (lines 194-261) *)
Definition inlet_outlet : bound_kernel D := fun b q n =>
  let b_pressure := lit 1 in
  let bv0 := lit 1.4 in
  let bv1 := (bv0 * mach)%D in
  let bv2 := (bv0 * lit 0)%D in
  let bv3 := (b_pressure / (gamma - lit 1)
              + lit 0.5 / bv0 * (bv1 * bv1 + bv2 * bv2))%D in
  let bv := [bv0; bv1; bv2; bv3] in
  let U0 := (q !!! 1 / q !!! 0)%D in
  let U1 := (q !!! 2 / q !!! 0)%D in
  let u_norm := dsqrt (U0 * U0 + U1 * U1)%D in
  let u_dot_n := (U0 * fst n + U1 * snd n)%D in
  let p := calc_p q in
  let c := dsqrt (gamma * p / q !!! 0)%D in
  let mach := (u_norm / c)%D in
  if (mach >? lit 1)%D then
    (* supersonic *)
    if (u_dot_n <? lit 0)%D then [bv0; bv1; bv2; bv3]
    else [q !!! 0; q !!! 1; q !!! 2; q !!! 3]
  else
    (* subsonic *)
    let pa := calc_p bv in
    let va := (bv2 / bv0)%D in
    let pd := p in
    let rhod := q !!! 0 in
    let ud := (q !!! 1 / q !!! 0)%D in
    let rho0 := q !!! 0 in
    let c0 := c in
    if (u_dot_n <? lit 0)%D then
      let pb := pd in
      let b0 := bv0 in
      let b1 := bv1 in
      let b2 := bv2 in
      [b0; b1; b2;
       (pb / (gamma - lit 1) + lit 0.5 / b0 * (b1 * b1 + b2 * b2))%D]
    else
      let pb := pa in
      let b0 := (rhod + (pb - pd) / (c0 * c0))%D in
      let b1 := (b0 * (ud + fst n * (pd - pb) / (rho0 * c0)))%D in
      let b2 := (b1 * (va + snd n * (pd - pb) / (rho0 * c0)))%D in
      [b0; b1; b2;
       (pb / (gamma - lit 1) + lit 0.5 / b0 * (b1 * b1 + b2 * b2))%D].
End ForwardStep.
End ForwardStep.

(** ** The kernels of [examples/shockTube/main.cpp] *)

Module ShockTube.
Section ShockTube.
Context {D : Type} `{Arith D}.

(** [boundaries::zero_flux] (lines 158-163) *)
Definition zero_flux : bound_kernel D := fun b q n =>
  [q !!! 0; q !!! 1; q !!! 2; q !!! 3].
End ShockTube.
End ShockTube.

(** ** A small instance: a cell at a wall

    One owned cell and one ghost cell behind a boundary edge that carries
    the wall kernel of the forward step; four variables. *)

Module Duct.
Definition m : mesh spec_float := {|
  nRealCells := 1;
  cellsAreas := [lit 1; lit 1];
  cellsCentersX := [lit 0.5; lit 1.5];
  cellsCentersY := [lit 0; lit 0];
  cellsIsGhost := [false; false];
  edgesNodes_cols := 1;
  edgesCells := [(0, 1)];
  edgesLengths := [lit 1];
  edgesNormalsX := [lit 1];
  edgesNormalsY := [lit 0];
  edgesCentersX := [lit 1];
  edgesCentersY := [lit 0];
  boundaryEdges := [0];
  boundaryFuncs := [ForwardStep.wall];
  comms := []
|}.

Definition q0 : list spec_float :=
  [lit 1.4; lit 4.2; lit 0; lit 8.8; lit 0; lit 0; lit 0; lit 0].
End Duct.

(** ** A small instance: local time stepping

    The problem of [Box] with [global_dt] off, and options whose tolerance
    is below [1.01e-16]. *)

Module Pseudo.
Definition P : problem spec_float := {|
  vars := 1;
  do_calc_gradients := true;
  do_calc_limiters := true;
  global_dt := false;
  generate_initial_solution := fun q m => [lit 1; lit 0];
  limiter_func := michalak;
  calc_flux := Box.upwind;
  calc_dt := fun dt q m => replicate (length dt) (lit 0.125)
|}.

Definition opt : solverOptions spec_float := {|
  max_step := 10;
  max_time := lit 100;
  print_interval := 5;
  tolerance := lit 1e-17
|}.

(** Options that ask for no print. *)
Definition silent : solverOptions spec_float := {|
  max_step := 10;
  max_time := lit 100;
  print_interval := 0;
  tolerance := lit 1e-17
|}.
End Pseudo.

(** ** A small instance: a rank with a halo cell and a boundary

    Rank 0 of two ranks.  Cell 0 is owned, cell 1 carries the ghost flag
    and is received from rank 1, cell 2 is the ghost cell of a boundary
    edge; every message from rank 1 is [0.5]. *)

Module Corner.
Definition m : mesh spec_float := {|
  nRealCells := 2;
  cellsAreas := [lit 1; lit 1; lit 1];
  cellsCentersX := [lit 0; lit 2; lit (-2)];
  cellsCentersY := [lit 0; lit 0; lit 0];
  cellsIsGhost := [false; true; false];
  edgesNodes_cols := 2;
  edgesCells := [(0, 1); (0, 2)];
  edgesLengths := [lit 1; lit 1];
  edgesNormalsX := [lit 1; lit (-1)];
  edgesNormalsY := [lit 0; lit 0];
  edgesCentersX := [lit 1; lit (-1)];
  edgesCentersY := [lit 0; lit 0];
  boundaryEdges := [1];
  boundaryFuncs := [fun b q n => q];
  comms := [{| out_rank := 1; snd_indices := [0]; rec_indices := [1];
               snd_q := [zero]; rec_q := [zero] |}]
|}.

Definition pool : mpi_wrapper := {| rank := 0; size := 2 |}.

Definition quiet : net spec_float := start (fun _ _ => [lit 0.5]).
End Corner.

(** ** A small instance: two ranks, each with a closed box

    Rank 0 has the mesh of [Box]; the cells of rank 1 are half as large.
    The problem is that of [Box] with a time step of 0.125 times the area
    of the cell, so that the smallest time step is 0.125 on rank 0 and
    0.0625 on rank 1.  [pass r] is the first pass of rank [r] through the
    body of the loop of [run]. *)

Module TwoBoxes.
Definition n : nat := 2.

Definition m (r : nat) : mesh spec_float :=
  if decide (r = 0) then Box.m
  else {|
    nRealCells := 2;
    cellsAreas := [lit 0.5; lit 1.5];
    cellsCentersX := [lit 0.25; lit 1.25];
    cellsCentersY := [lit 0; lit 0];
    cellsIsGhost := [false; false];
    edgesNodes_cols := 1;
    edgesCells := [(0, 1)];
    edgesLengths := [lit 1];
    edgesNormalsX := [lit 1];
    edgesNormalsY := [lit 0];
    edgesCentersX := [lit 0.5];
    edgesCentersY := [lit 0];
    boundaryEdges := [];
    boundaryFuncs := [];
    comms := []
  |}.

Definition P : problem spec_float := {|
  vars := 1;
  do_calc_gradients := true;
  do_calc_limiters := true;
  global_dt := true;
  generate_initial_solution := fun q m => [lit 1; lit 0];
  limiter_func := michalak;
  calc_flux := Box.upwind;
  calc_dt := fun dt q m =>
    for_loop 0 (length dt)
      (fun i dt => <[i := (lit 0.125 * cellsAreas m !!! i)%D]> dt) dt
|}.

Definition st (r : nat) : driver spec_float := run_init P zero [] (m r).


(** What reaches rank [r] from rank [s] in that pass: first the time step
    of [validate_dt], then the residual of [calc_residuals]. *)
Definition inbox (r s k : nat) : list spec_float :=
  match r, k with
  | _, 0 => [lit 0.0625]
  | 0, _ => [S754_finite false 5299326796641293 (-51)]
  | _, _ => [S754_finite false 8552011749056102 (-52)]
  end.
End TwoBoxes.

(** * Properties *)

(** ** Loops and indices *)

Lemma Exact_ltb_true x y : Exact.ltb x y = true <-> (x < y)%R.
Proof. unfold Exact.ltb. destruct (Rlt_dec x y); split; intros; try done. Qed.

Lemma Exact_ltb_false x y : Exact.ltb x y = false <-> (y <= x)%R.
Proof.
  unfold Exact.ltb. destruct (Rlt_dec x y); split; intros; try done; lra.
Qed.

Lemma Exact_leb_true x y : Exact.leb x y = true <-> (x <= y)%R.
Proof. unfold Exact.leb. destruct (Rle_dec x y); split; intros; try done. Qed.

Lemma Exact_leb_false x y : Exact.leb x y = false <-> (y < x)%R.
Proof.
  unfold Exact.leb. destruct (Rle_dec x y); split; intros; try done; lra.
Qed.

Lemma idx_small vars i k :
  (N.of_nat (vars * i + k) < uint_max)%N -> idx vars i k = vars * i + k.
Proof.
  intros Hlt. unfold idx.
  rewrite N.mod_small by lia. lia.
Qed.

Lemma for_loop_empty {S : Type} lo hi (body : nat -> S -> S) s :
  hi <= lo -> for_loop lo hi body s = s.
Proof.
  intros Hle. unfold for_loop.
  replace (hi - lo) with 0 by lia. reflexivity.
Qed.

Lemma for_loop_step {S : Type} lo hi (body : nat -> S -> S) s :
  lo <= hi ->
  for_loop lo (Datatypes.S hi) body s = body hi (for_loop lo hi body s).
Proof.
  intros Hle. unfold for_loop.
  replace (Datatypes.S hi - lo) with (Datatypes.S (hi - lo)) by lia.
  rewrite seq_S, fold_left_app. simpl.
  replace (lo + (hi - lo)) with hi by lia. reflexivity.
Qed.

(** The invariant rule of the loop. *)
Lemma for_loop_inv {S : Type} (P : nat -> S -> Prop) lo hi
    (body : nat -> S -> S) s :
  lo <= hi ->
  P lo s ->
  (forall i acc, lo <= i < hi -> P i acc -> P (Datatypes.S i) (body i acc)) ->
  P hi (for_loop lo hi body s).
Proof.
  intros Hle H0 Hstep.
  induction hi as [|hi IH].
  - assert (lo = 0) by lia; subst. rewrite for_loop_empty by lia. exact H0.
  - destruct (decide (lo = Datatypes.S hi)) as [->|Hne].
    + rewrite for_loop_empty by lia. exact H0.
    + rewrite for_loop_step by lia.
      apply Hstep; [lia|].
      apply IH; [lia|].
      intros i acc Hi. apply Hstep. lia.
Qed.


Lemma idx_lt vars n i k :
  (N.of_nat (vars * n) <= uint_max)%N -> i < n -> k < vars ->
  idx vars i k = vars * i + k /\ vars * i + k < vars * n.
Proof.
  intros Hfit Hi Hk.
  assert (vars * i + k < vars * n) by nia.
  split; [|done]. apply idx_small. lia.
Qed.

Lemma idx_inj vars n i k i' k' :
  (N.of_nat (vars * n) <= uint_max)%N ->
  i < n -> k < vars -> i' < n -> k' < vars ->
  idx vars i k = idx vars i' k' -> i = i' /\ k = k'.
Proof.
  intros Hfit Hi Hk Hi' Hk'.
  destruct (idx_lt vars n i k) as [-> _]; [done..|].
  destruct (idx_lt vars n i' k') as [-> _]; [done..|].
  intros Heq. assert (i = i') by nia. subst. lia.
Qed.

(** An invariant that does not mention the counter. *)
Lemma for_loop_preserves {S : Type} (P : S -> Prop) lo hi
    (body : nat -> S -> S) s :
  P s ->
  (forall i acc, lo <= i < hi -> P acc -> P (body i acc)) ->
  P (for_loop lo hi body s).
Proof.
  intros H0 Hstep.
  destruct (decide (lo <= hi)) as [Hle|Hgt].
  - apply (for_loop_inv (fun _ => P)); auto.
  - rewrite for_loop_empty by lia. exact H0.
Qed.

Lemma for_loop_ext {S : Type} lo hi (f g : nat -> S -> S) s :
  (forall i acc, lo <= i < hi -> f i acc = g i acc) ->
  for_loop lo hi f s = for_loop lo hi g s.
Proof.
  intros Hfg.
  destruct (decide (lo <= hi)) as [Hle|Hgt].
  - apply (for_loop_inv (fun i acc => acc = for_loop lo i g s)); [done| |].
    + by rewrite for_loop_empty.
    + intros i acc Hi ->. rewrite for_loop_step by lia. apply Hfg. lia.
  - by rewrite !for_loop_empty by lia.
Qed.

(** A loop over a pair whose components do not interact. *)
Lemma for_loop_pair {A B : Type} lo hi (f : nat -> A -> A) (g : nat -> B -> B)
    a b :
  for_loop lo hi (fun i '(a, b) => (f i a, g i b)) (a, b)
  = (for_loop lo hi f a, for_loop lo hi g b).
Proof.
  destruct (decide (lo <= hi)) as [Hle|Hgt].
  - apply (for_loop_inv (fun i acc =>
      acc = (for_loop lo i f a, for_loop lo i g b))); [done| |].
    + by rewrite !for_loop_empty.
    + intros i acc Hi ->. by rewrite !for_loop_step by lia.
  - by rewrite !for_loop_empty by lia.
Qed.

(** ** Loops that store into a vector *)

Section Stores.
Context {A : Type} `{!Inhabited A}.
Variables (pos : nat -> nat) (val : nat -> list A -> A).

Lemma stores_length lo hi (v : list A) :
  length (for_loop lo hi (fun k v => <[pos k := val k v]> v) v) = length v.
Proof.
  apply (for_loop_preserves (fun acc => length acc = length v)); [done|].
  intros i acc _ <-. apply length_insert.
Qed.

Lemma stores_other lo hi (v : list A) p :
  (forall k, lo <= k < hi -> pos k <> p) ->
  for_loop lo hi (fun k v => <[pos k := val k v]> v) v !!! p = v !!! p.
Proof.
  intros Hne.
  apply (for_loop_preserves (fun acc => acc !!! p = v !!! p)); [done|].
  intros i acc Hi <-. apply list_lookup_total_insert_ne. by apply Hne.
Qed.
End Stores.

(** A loop that stores one value [x]. *)
Lemma stores_const {A : Type} `{!Inhabited A} (pos : nat -> nat) (x : A)
    lo hi (v : list A) k :
  lo <= k < hi -> pos k < length v ->
  for_loop lo hi (fun k v => <[pos k := x]> v) v !!! pos k = x.
Proof.
  intros Hk Hlen.
  assert (Hinv : length (for_loop lo hi (fun k v => <[pos k := x]> v) v)
                 = length v /\
                 (k < hi ->
                  for_loop lo hi (fun k v => <[pos k := x]> v) v !!! pos k = x)).
  { apply (for_loop_inv (fun i acc =>
      length acc = length v /\ (k < i -> acc !!! pos k = x))); [lia| |].
    - split; [done|lia].
    - intros i acc Hi [Hl Hacc]. split; [by rewrite length_insert|].
      intros Hki. rewrite list_lookup_total_insert.
      case_decide as Hd; [done|].
      destruct (decide (k = i)) as [->|Hne].
      + exfalso. apply Hd. split; [done|lia].
      + apply Hacc. lia. }
  apply Hinv. lia.
Qed.

(** ** [calc_time_derivatives]: cells that are not owned have no rate *)

Section TimeDerivativesFacts.
Context {D : Type} `{Arith D}.
Variable vars : nat.

Lemma owned_false (m : mesh D) c :
  owned m c = false <-> nRealCells m <= c \/ cellsIsGhost m !!! c = true.
Proof.
  unfold owned. rewrite andb_false_iff, bool_decide_eq_false, negb_false_iff.
  split; (intros [?|?]; [left; lia|by right]).
Qed.

Lemma normalize_qt_length (qt : list D) m :
  length (normalize_qt vars qt m) = length qt.
Proof.
  unfold normalize_qt.
  apply (for_loop_preserves (fun acc => length acc = length qt)); [done|].
  intros i acc _ <-. repeat case_match; apply stores_length.
Qed.

Lemma normalize_qt_not_owned (qt : list D) m c k :
  length qt = vars * ncells m ->
  (N.of_nat (vars * ncells m) <= uint_max)%N ->
  c < ncells m -> k < vars ->
  owned m c = false ->
  normalize_qt vars qt m !!! (vars * c + k) = zero.
Proof.
  intros Hlen Hfit Hc Hk Hown.
  destruct (idx_lt vars (ncells m) c k) as [Hidx Hlt]; [done..|].
  unfold normalize_qt.
  match goal with |- for_loop _ _ ?b _ !!! _ = _ => set (body := b) end.
  cut (length (for_loop 0 (ncells m) body qt) = length qt /\
       (c < ncells m ->
        for_loop 0 (ncells m) body qt !!! (vars * c + k) = zero)).
  { intros [_ Hz]. by apply Hz. }
  apply (for_loop_inv (fun i acc =>
    length acc = length qt /\ (c < i -> acc !!! (vars * c + k) = zero)));
    [lia|split; [done|lia]|].
  subst body. cbv beta.
  intros i acc Hi [Hl Hz]. split.
  { rewrite <- Hl. repeat case_match; apply stores_length. }
  intros Hci.
  destruct (decide (c = i)) as [<-|Hne].
  - apply owned_false in Hown.
    rewrite <- Hidx.
    case_bool_decide as Hreal.
    + apply (stores_const (idx vars c)); [lia|]. rewrite Hidx. lia.
    + destruct Hown as [?| ->]; [lia|].
      apply (stores_const (idx vars c)); [lia|]. rewrite Hidx. lia.
  - assert (Hother : forall k', 0 <= k' < vars -> idx vars i k' <> vars * c + k).
    { intros k' Hk'. rewrite <- Hidx. intros Heq.
      destruct (idx_inj vars (ncells m) i k' c k); [done|lia|lia|done..|lia]. }
    repeat case_match;
      (rewrite (stores_other (idx vars i)) by done; apply Hz; lia).
Qed.

Lemma calc_time_derivatives_not_owned calc_flux
    (qt q gx gy limiters : list D) m c k :
  length qt = vars * ncells m ->
  (N.of_nat (vars * ncells m) <= uint_max)%N ->
  c < ncells m -> k < vars ->
  owned m c = false ->
  calc_time_derivatives vars calc_flux qt q gx gy limiters m
    !!! (vars * c + k) = zero.
Proof.
  intros Hlen Hfit Hc Hk Hown. unfold calc_time_derivatives.
  apply normalize_qt_not_owned; [|done..].
  unfold accumulate_fluxes.
  apply (for_loop_preserves (fun acc => length acc = vars * ncells m)).
  - by rewrite stores_length.
  - intros e acc _ <-. destruct (edgesCells m !!! e) as [i j].
    apply (for_loop_preserves (fun acc' => length acc' = length acc)); [done|].
    intros k' acc' _ <-. by rewrite !length_insert.
Qed.
End TimeDerivativesFacts.

(** ** The halo exchange leaves the geometry of the mesh alone *)

Section Geometry.
Context {D : Type} `{Arith D}.

Lemma same_geometry_refl (m : mesh D) : same_geometry m m.
Proof. done. Qed.

Lemma same_geometry_trans (m1 m2 m3 : mesh D) :
  same_geometry m1 m2 -> same_geometry m2 m3 -> same_geometry m1 m3.
Proof. unfold same_geometry. congruence. Qed.

Lemma same_geometry_set_comms (m : mesh D) cs :
  same_geometry m (set_comms m cs).
Proof. done. Qed.

Lemma same_geometry_ncells (m m' : mesh D) :
  same_geometry m m' -> ncells m' = ncells m.
Proof.
  unfold same_geometry, ncells. intros Hg.
  apply (f_equal cellsAreas) in Hg. simpl in Hg. by rewrite Hg.
Qed.

Lemma same_geometry_owned (m m' : mesh D) c :
  same_geometry m m' -> owned m' c = owned m c.
Proof.
  unfold same_geometry, owned. intros Hg.
  pose proof (f_equal nRealCells Hg) as Hn.
  pose proof (f_equal cellsIsGhost Hg) as Hgh.
  simpl in *. by rewrite Hn, Hgh.
Qed.

Lemma update_comms_geometry vars (q : list D) (m : mesh D) (w : net D) :
  same_geometry m (snd (fst (update_comms vars q m w))).
Proof.
  unfold update_comms, bind, ret.
  repeat case_match; simpl; apply same_geometry_set_comms.
Qed.

Lemma complete_calc_qt_geometry (P : problem D) pool w (q : list D) m
    (nw : net D) :
  same_geometry m (snd (fst (complete_calc_qt P pool w q m nw))).
Proof.
  unfold complete_calc_qt, bind, ret.
  repeat (case_match; simplify_eq/=); try done;
    repeat match goal with
    | Hu : update_comms ?v ?q ?m ?w = _ |- _ =>
        let Hg := fresh "Hg" in
        pose proof (update_comms_geometry v q m w) as Hg;
        rewrite Hu in Hg; simpl in Hg; clear Hu
    end;
    eauto using same_geometry_trans.
Qed.

Lemma complete_calc_qt_qt (P : problem D) pool w (q : list D) m (nw : net D) :
  exists gx gy limiters m',
    same_geometry m m' /\
    w_qt (fst (fst (complete_calc_qt P pool w q m nw)))
    = calc_time_derivatives (vars P) (calc_flux P) (w_qt w) q gx gy limiters m'.
Proof.
  pose proof (complete_calc_qt_geometry P pool w q m nw) as Hg.
  revert Hg. unfold complete_calc_qt, bind, ret.
  repeat (case_match; simplify_eq/=); intros Hg; eauto 10.
Qed.
End Geometry.

(** ** C3: no rate of change outside the owned cells *)

(** C3. After [calc_time_derivatives], and so in the [qt] that
    [complete_calc_qt] leaves, [qt[vars*c+k]] is zero for every variable
    [k] and every cell [c] with [c >= nRealCells] or with the ghost flag
    set, whatever the state, the gradients, the limiters, the flux kernel
    and the messages received are.  The field [qt] has one entry per cell
    and variable and its indices fit in [unsigned int]. *)
Theorem qt_zero_outside_owned_cells {D : Type} `{Arith D}
    (P : problem D) (pool : mpi_wrapper) (w : work D)
    (q gx gy limiters : list D) (m : mesh D) (nw : net D) (c k : nat) :
  length (w_qt w) = vars P * ncells m ->
  (N.of_nat (vars P * ncells m) <= uint_max)%N ->
  c < ncells m -> k < vars P ->
  nRealCells m <= c \/ cellsIsGhost m !!! c = true ->
  calc_time_derivatives (vars P) (calc_flux P) (w_qt w) q gx gy limiters m
    !!! (vars P * c + k) = zero
  /\ w_qt (fst (fst (complete_calc_qt P pool w q m nw)))
      !!! (vars P * c + k) = zero.
Proof.
  intros Hlen Hfit Hc Hk Hghost.
  apply owned_false in Hghost. split.
  - by apply calc_time_derivatives_not_owned.
  - destruct (complete_calc_qt_qt P pool w q m nw)
      as (gx' & gy' & l' & m' & Hg & ->).
    apply calc_time_derivatives_not_owned;
      rewrite ?(same_geometry_ncells m m'), ?(same_geometry_owned m m');
      done.
Qed.

Lemma qt_zero_outside_owned_cells_witness :
  calc_time_derivatives 1 Strip.upwind (w_qt Strip.w0) Strip.q0
    (w_gx Strip.w0) (w_gy Strip.w0) (w_limiters Strip.w0) Strip.m
    !!! (1 * 2 + 0) = zero
  /\ w_qt (fst (fst (complete_calc_qt Strip.P Strip.pool Strip.w0 Strip.q0
                       Strip.m Strip.quiet))) !!! (1 * 2 + 0) = zero.
Proof.
  apply (qt_zero_outside_owned_cells Strip.P Strip.pool Strip.w0 Strip.q0
           (w_gx Strip.w0) (w_gy Strip.w0) (w_limiters Strip.w0) Strip.m
           Strip.quiet 2 0).
  - reflexivity.
  - vm_compute. discriminate.
  - vm_compute. lia.
  - vm_compute. lia.
  - left. vm_compute. lia.
Defined.

(** ** C5: the gradients of the boundary cells *)

Section GradientsFacts.
Context {D : Type} `{Arith D}.
Variable vars : nat.

(** Storing zero into every entry of the cells [lo..hi-1]. *)
Lemma zero_cells_lookup lo hi n (v : list D) c k :
  (N.of_nat (vars * n) <= uint_max)%N -> hi <= n ->
  length v = vars * n ->
  lo <= c < hi -> k < vars ->
  for_loop lo hi (fun i v =>
    for_loop 0 vars (fun k v => <[idx vars i k := zero]> v) v) v
    !!! (vars * c + k) = zero.
Proof.
  intros Hfit Hhi Hlen Hc Hk.
  destruct (idx_lt vars n c k) as [Hidx Hlt]; [done|lia|done|].
  match goal with |- for_loop _ _ ?b _ !!! _ = _ => set (body := b) end.
  cut (length (for_loop lo hi body v) = length v /\
       (c < hi -> for_loop lo hi body v !!! (vars * c + k) = zero)).
  { intros [_ Hz]. apply Hz. lia. }
  apply (for_loop_inv (fun i acc =>
    length acc = length v /\ (c < i -> acc !!! (vars * c + k) = zero)));
    [lia|split; [done|lia]|].
  subst body. cbv beta.
  intros i acc Hi [Hl Hz]. split; [by rewrite stores_length|].
  intros Hci. destruct (decide (c = i)) as [<-|Hne].
  - rewrite <- Hidx. apply (stores_const (idx vars c)); [lia|].
    rewrite Hidx. lia.
  - rewrite (stores_other (idx vars i)); [apply Hz; lia|].
    intros k' Hk'. rewrite <- Hidx. intros Heq.
    destruct (idx_inj vars n i k' c k); [done|lia|lia|lia|done|done|lia].
Qed.

Definition both_length (L : nat) (g : list D * list D) : Prop :=
  length (fst g) = L /\ length (snd g) = L.

Lemma calc_gradients_boundary (gx gy q : list D) (m : mesh D) c k :
  length gx = vars * ncells m -> length gy = vars * ncells m ->
  (N.of_nat (vars * ncells m) <= uint_max)%N ->
  nRealCells m <= c < ncells m -> k < vars ->
  fst (calc_gradients vars gx gy q m) !!! (vars * c + k) = zero
  /\ snd (calc_gradients vars gx gy q m) !!! (vars * c + k) = zero.
Proof.
  intros Hgx Hgy Hfit Hc Hk. unfold calc_gradients. cbv zeta.
  match goal with
  | |- fst (for_loop _ _ _ ?g) !!! _ = _ /\ _ => set (g3 := g)
  end.
  assert (Hg3 : both_length (vars * ncells m) g3).
  { subst g3.
    apply for_loop_preserves; [apply for_loop_preserves;
      [apply for_loop_preserves; [done|]|]|].
    - intros i [a b] _ [Ha Hb]. split; simpl in *; by rewrite length_insert.
    - intros e acc _ Hacc. destruct (edgesCells m !!! e) as [i j].
      case_decide; [done|].
      apply for_loop_preserves; [done|].
      intros k' [a b] _ [Ha Hb]. split; simpl in *; by rewrite !length_insert.
    - intros i acc _ Hacc. apply for_loop_preserves; [done|].
      intros k' [a b] _ [Ha Hb]. split; simpl in *; by rewrite !length_insert. }
  destruct g3 as [a b]. destruct Hg3 as [Ha Hb]. simpl in Ha, Hb.
  rewrite (for_loop_ext _ _ _ (fun i '(a, b) =>
    (for_loop 0 vars (fun k v => <[idx vars i k := zero]> v) a,
     for_loop 0 vars (fun k v => <[idx vars i k := zero]> v) b))).
  - rewrite for_loop_pair. simpl.
    split; apply (zero_cells_lookup _ _ (ncells m)); done.
  - intros i [a' b'] _. apply for_loop_pair.
Qed.
End GradientsFacts.

(** C5 (amended). After [calc_gradients], [gx[vars*c+k]] and [gy[vars*c+k]]
    are zero for every variable [k] and every cell [c] with
    [nRealCells <= c < cellsAreas.size()], for every [q] and mesh; the
    gradient fields have one entry per cell and variable and their indices
    fit in [unsigned int].  (Cells below [nRealCells] that carry the ghost
    flag keep the gradient accumulated over their edges: see
    [calc_gradients_flagged_ghost_not_zero].) *)
Theorem calc_gradients_zero_from_nRealCells {D : Type} `{Arith D}
    (vars : nat) (gx gy q : list D) (m : mesh D) (c k : nat) :
  length gx = vars * ncells m -> length gy = vars * ncells m ->
  (N.of_nat (vars * ncells m) <= uint_max)%N ->
  nRealCells m <= c < ncells m -> k < vars ->
  fst (calc_gradients vars gx gy q m) !!! (vars * c + k) = zero
  /\ snd (calc_gradients vars gx gy q m) !!! (vars * c + k) = zero.
Proof. apply calc_gradients_boundary. Qed.

Lemma calc_gradients_zero_from_nRealCells_witness :
  fst (calc_gradients 1 (replicate 3 zero) (replicate 3 zero) Strip.q0 Strip.m)
    !!! (1 * 2 + 0) = zero
  /\ snd (calc_gradients 1 (replicate 3 zero) (replicate 3 zero) Strip.q0
            Strip.m) !!! (1 * 2 + 0) = zero.
Proof.
  apply (calc_gradients_zero_from_nRealCells 1 (replicate 3 zero)
           (replicate 3 zero) Strip.q0 Strip.m 2 0).
  - reflexivity.
  - reflexivity.
  - vm_compute. discriminate.
  - vm_compute. lia.
  - lia.
Defined.

(** C5 as stated fails: a cell below [nRealCells] that carries the ghost
    flag (a halo cell) keeps a gradient that is not zero. *)
Lemma calc_gradients_flagged_ghost_not_zero :
  cellsIsGhost Halo.m !!! 1 = true
  /\ fst (calc_gradients 1 (replicate 2 zero) (replicate 2 zero)
            Halo.q0 Halo.m) !!! (1 * 1 + 0) <> zero.
Proof.
  split; [reflexivity|].
  intros Heq. vm_compute in Heq. discriminate.
Qed.


(** ** C10: the limiter of a cell that is not owned stays 1 *)

Section LimitersFacts.
Context {D : Type} `{Arith D}.
Variable vars : nat.
Variable limiter_func : D -> D.

Lemma fill_lookup (x : D) (v : list D) p :
  p < length v ->
  for_loop 0 (length v) (fun i l => <[i := x]> l) v !!! p = x.
Proof.
  intros Hp. apply (stores_const (fun i => i) x 0 (length v) v p); lia.
Qed.

(** Lines 113-153 for one endpoint [id] of edge [e]. *)
Definition limit_endpoint (q gx gy qmin qmax : list D) (m : mesh D)
    (e : nat) (l : list D) (id : nat) : list D :=
  if bool_decide (id < nRealCells m) && negb (cellsIsGhost m !!! id) then
    for_loop 0 vars (fun k l =>
      let lim := edge_limiter vars limiter_func q gx gy qmin qmax m e id k in
      <[idx vars id k := std_min (l !!! idx vars id k) lim]> l) l
  else l.

Lemma limit_endpoint_length q gx gy qmin qmax m e l id :
  length (limit_endpoint q gx gy qmin qmax m e l id) = length l.
Proof. unfold limit_endpoint. case_match; [apply stores_length|done]. Qed.


Lemma calc_limiters_limiters (limiters qmin qmax q gx gy : list D) m :
  exists qmin' qmax',
    calc_limiters vars limiter_func limiters qmin qmax q gx gy m
    = (for_loop 0 (length (edgesLengths m)) (fun e l =>
         fold_left (limit_endpoint q gx gy qmin' qmax' m e)
           [fst (edgesCells m !!! e); snd (edgesCells m !!! e)] l)
         (for_loop 0 (length limiters) (fun i l => <[i := lit 1]> l) limiters),
       qmin', qmax')
    /\ (qmin', qmax')
       = for_loop 0 (length (edgesLengths m)) (fun e mm =>
           let '(i, j) := edgesCells m !!! e in
           for_loop 0 vars (fun k '(qmin, qmax) =>
             let qmin := <[idx vars i k :=
                            std_min (qmin !!! idx vars i k) (q !!! idx vars j k)]> qmin in
             let qmin := <[idx vars j k :=
                            std_min (qmin !!! idx vars j k) (q !!! idx vars i k)]> qmin in
             let qmax := <[idx vars i k :=
                            std_max (qmax !!! idx vars i k) (q !!! idx vars j k)]> qmax in
             let qmax := <[idx vars j k :=
                            std_max (qmax !!! idx vars j k) (q !!! idx vars i k)]> qmax in
             (qmin, qmax)) mm)
           (for_loop 0 (length q)
              (fun i '(qmin, qmax) => (<[i := q !!! i]> qmin, <[i := q !!! i]> qmax))
              (qmin, qmax)).
Proof.
  unfold calc_limiters. cbv zeta.
  match goal with
  | |- context [let '(a, b) := ?X in _] => destruct X as [qmin' qmax'] eqn:Hmm
  end.
  exists qmin', qmax'. split; [|done].
  f_equal. f_equal. apply for_loop_ext. intros e l _.
  by destruct (edgesCells m !!! e) as [i j].
Qed.

End LimitersFacts.

(** ** C6: the range of the limiter in exact arithmetic *)

Section ExactLiterals.
Open Scope R_scope.

Lemma exact_lit (q : Q) : @lit R exact q = Q2R q.
Proof. reflexivity. Qed.

Lemma exact_zero : @zero R exact = 0.
Proof. unfold zero. rewrite exact_lit. unfold Q2R. simpl. lra. Qed.

Lemma Q2R_Z (z : Z) : Q2R (inject_Z z) = IZR z.
Proof. unfold Q2R. simpl. lra. Qed.

Lemma exact_tol_pos : 0 < @tol R exact.
Proof.
  unfold tol. rewrite exact_lit. unfold Q2R. simpl.
  apply Rmult_lt_0_compat; [lra|].
  apply Rinv_0_lt_compat. apply IZR_lt. lia.
Qed.

Lemma exact_std_min_le (a b : R) : std_min a b <= a /\ std_min a b <= b.
Proof.
  unfold std_min. simpl. destruct (Exact.ltb b a) eqn:Hlt.
  - apply Exact_ltb_true in Hlt. lra.
  - apply Exact_ltb_false in Hlt. lra.
Qed.

Lemma exact_std_min_cases (a b : R) : std_min a b = a \/ std_min a b = b.
Proof. unfold std_min. destruct (b <? a)%D; auto. Qed.

Lemma exact_std_max_ge (a b : R) : a <= std_max a b /\ b <= std_max a b.
Proof.
  unfold std_max. simpl. destruct (Exact.ltb a b) eqn:Hlt.
  - apply Exact_ltb_true in Hlt. lra.
  - apply Exact_ltb_false in Hlt. lra.
Qed.

(** The Michalak function maps the non-negative reals into [0, 1]. *)
Lemma michalak_range (y : R) : 0 <= y -> 0 <= michalak y <= 1.
Proof.
  intros Hy. unfold michalak. simpl.
  change (2%Q) with (inject_Z 2). change (1%Q) with (inject_Z 1).
  change ((-3)%Q) with (inject_Z (-3)).
  rewrite !Q2R_Z.
  replace (Q2R 0.5) with (/ 2) by (unfold Q2R; simpl; lra).
  destruct (Exact.leb 2 y) eqn:Hle; [lra|].
  apply Exact_leb_false in Hle.
  replace (1 / (2 * 2) - 2 / (2 * 2 * 2)) with 0 by lra.
  replace (-3 / 2 * 0 * 2 - / 2 / 2) with (- / 4) by lra.
  nra.
Qed.
End ExactLiterals.

Lemma lookup_total_oob {A : Type} `{!Inhabited A} (l : list A) p :
  length l <= p -> l !!! p = inhabitant.
Proof.
  intros Hp. rewrite list_lookup_total_alt.
  by rewrite (proj2 (lookup_ge_None l p)) by lia.
Qed.

(** A loop that stores [f i] at index [i]. *)
Lemma stores_at {A : Type} `{!Inhabited A} (f : nat -> A) lo hi (v : list A) p :
  lo <= p < hi -> p < length v ->
  for_loop lo hi (fun i v => <[i := f i]> v) v !!! p = f p.
Proof.
  intros Hp Hlen.
  match goal with |- for_loop _ _ ?b _ !!! _ = _ => set (body := b) end.
  cut (length (for_loop lo hi body v) = length v /\
       (p < hi -> for_loop lo hi body v !!! p = f p)).
  { intros [_ Hz]. apply Hz. lia. }
  apply (for_loop_inv (fun i acc =>
    length acc = length v /\ (p < i -> acc !!! p = f p)));
    [lia|split; [done|lia]|].
  subst body. cbv beta.
  intros i acc Hi [Hl Hacc]. split; [by rewrite length_insert|].
  intros Hpi. rewrite list_lookup_total_insert.
  case_decide as Hd; [by destruct Hd as [-> _]|].
  apply Hacc. destruct (decide (p = i)) as [->|]; [|lia].
  exfalso. apply Hd. split; [done|lia].
Qed.

Section ExactLimiters.
Variable vars : nat.
Variable limiter_func : R -> R.
Hypothesis limiter_func_range :
  forall y : R, (0 <= y)%R -> (0 <= limiter_func y <= 1)%R.

Open Scope R_scope.

Lemma cubic_fade_range (y : R) :
  0 <= y <= 1 -> 0 <= 2 * y * y * y - 3 * y * y + 1 <= 1.
Proof.
  intros Hy.
  assert (0 <= (1 - y) * (1 - y) * (1 + 2 * y))
    by (apply Rmult_le_pos; nra).
  assert (0 <= y * y * (3 - 2 * y)) by (apply Rmult_le_pos; nra).
  nra.
Qed.

Lemma edge_limiter_range (q gx gy qmin qmax : list R) (m : mesh R) e id k :
  qmin !!! idx vars id k <= q !!! idx vars id k ->
  q !!! idx vars id k <= qmax !!! idx vars id k ->
  0 <= edge_limiter vars limiter_func q gx gy qmin qmax m e id k <= 1.
Proof.
  intros Hmin Hmax. unfold edge_limiter. cbv zeta.
  cbn [dadd dsub dmul ddiv dsqrt dlt dle exact].
  change (@lit R exact) with Q2R.
  change (1%Q) with (inject_Z 1). change (2%Q) with (inject_Z 2).
  change (3%Q) with (inject_Z 3). change (0%Q) with (inject_Z 0).
  rewrite !Q2R_Z.
  pose proof exact_tol_pos as Htol.
  set (dqg := _ * _ + _ * _) in *.
  set (dmax := qmax !!! idx vars id k - q !!! idx vars id k) in *.
  set (dmin := qmin !!! idx vars id k - q !!! idx vars id k) in *.
  assert (Hdmax : 0 <= dmax) by (unfold dmax; lra).
  assert (Hdmin : dmin <= 0) by (unfold dmin; lra).
  set (K3a := 1 * sqrt _ * (1 * sqrt _) * (1 * sqrt _)).
  set (d2 := (dmax - dmin) * (dmax - dmin)).
  match goal with |- 0 <= ?s + (1 - ?s) * ?l <= 1 =>
    set (sig := s); set (lim := l) end.
  assert (Hsig : 0 <= sig <= 1).
  { subst sig. destruct (Exact.leb d2 K3a) eqn:E1; [lra|].
    destruct (Exact.ltb d2 (2 * K3a)) eqn:E2; [|lra].
    apply Exact_leb_false in E1. apply Exact_ltb_true in E2.
    assert (HK : 0 < K3a) by lra.
    set (r := d2 / K3a).
    assert (Hr : r * K3a = d2) by (unfold r; field; lra).
    apply cubic_fade_range. nra. }
  assert (Hlim : 0 <= lim <= 1).
  { subst lim. destruct (Exact.ltb tol dqg) eqn:E1.
    - apply Exact_ltb_true in E1. apply limiter_func_range.
      apply Rmult_le_pos; [done|].
      left. apply Rinv_0_lt_compat. lra.
    - destruct (Exact.ltb dqg (0 - tol)) eqn:E2; [|lra].
      apply Exact_ltb_true in E2. apply limiter_func_range.
      replace (dmin / dqg) with ((- dmin) * / (- dqg)) by (field; lra).
      apply Rmult_le_pos; [lra|].
      left. apply Rinv_0_lt_compat. lra. }
  nra.
Qed.

(** [qmin <= q <= qmax], entry by entry. *)
Definition brackets (q : list R) (mm : list R * list R) : Prop :=
  forall p, fst mm !!! p <= q !!! p /\ q !!! p <= snd mm !!! p.

Lemma insert_min_below (q l : list R) i y :
  (forall p, l !!! p <= q !!! p) ->
  forall p, <[i := std_min (l !!! i) y]> l !!! p <= q !!! p.
Proof.
  intros Hl p. rewrite list_lookup_total_insert. case_decide as Hd; [|done].
  destruct Hd as [-> _]. pose proof (exact_std_min_le (l !!! p) y).
  specialize (Hl p). lra.
Qed.

Lemma insert_max_above (q l : list R) i y :
  (forall p, q !!! p <= l !!! p) ->
  forall p, q !!! p <= <[i := std_max (l !!! i) y]> l !!! p.
Proof.
  intros Hl p. rewrite list_lookup_total_insert. case_decide as Hd; [|done].
  destruct Hd as [-> _]. pose proof (exact_std_max_ge (l !!! p) y).
  specialize (Hl p). lra.
Qed.

Lemma copy_lookup (q v : list R) p :
  length v = length q ->
  for_loop 0 (length q) (fun i v => <[i := q !!! i]> v) v !!! p = q !!! p.
Proof.
  intros Hlen. destruct (decide (p < length q)%nat) as [Hp|Hp].
  - apply (stores_at (fun i => q !!! i)); lia.
  - rewrite !lookup_total_oob; [done|lia|].
    rewrite (stores_length (fun i => i) (fun i _ => q !!! i)). lia.
Qed.

Lemma calc_limiters_brackets (limiters qmin qmax q gx gy : list R) m :
  length qmin = length q -> length qmax = length q ->
  brackets q
    (snd (fst (calc_limiters vars limiter_func limiters qmin qmax q gx gy m)),
     snd (calc_limiters vars limiter_func limiters qmin qmax q gx gy m)).
Proof.
  intros Hmin Hmax.
  destruct (calc_limiters_limiters vars limiter_func
              limiters qmin qmax q gx gy m) as (qmin' & qmax' & -> & Hmm).
  simpl. rewrite Hmm. clear Hmm.
  apply for_loop_preserves.
  - rewrite for_loop_pair. intros p. simpl. rewrite !copy_lookup by done. lra.
  - intros e mm _ Hb. destruct (edgesCells m !!! e) as [i j].
    apply for_loop_preserves; [done|].
    intros k [a b] _ Hab. intros p. simpl.
    split.
    + apply insert_min_below, insert_min_below. intros p'. apply Hab.
    + apply insert_max_above, insert_max_above. intros p'. apply Hab.
Qed.

Definition unit_interval (x : R) : Prop := 0 <= x <= 1.

Lemma limit_endpoint_unit (q gx gy qmin qmax : list R) (m : mesh R) e l id :
  brackets q (qmin, qmax) ->
  Forall unit_interval l ->
  Forall unit_interval
    (limit_endpoint vars limiter_func q gx gy qmin qmax m e l id).
Proof.
  intros Hb Hl. unfold limit_endpoint. case_match; [|done].
  apply for_loop_preserves; [done|].
  intros k acc _ Hacc. cbv zeta.
  destruct (decide (idx vars id k < length acc)%nat) as [Hin|Hout];
    [|by rewrite list_insert_ge by lia].
  apply Forall_insert; [done|].
  destruct (exact_std_min_cases (acc !!! idx vars id k)
    (edge_limiter vars limiter_func q gx gy qmin qmax m e id k)) as [-> | ->].
  - by apply (@Forall_lookup_total_1 R unit_interval _).
  - apply edge_limiter_range; apply (Hb (idx vars id k)).
Qed.

Lemma calc_limiters_unit (limiters qmin qmax q gx gy : list R) m :
  length qmin = length q -> length qmax = length q ->
  Forall unit_interval
    (fst (fst (calc_limiters vars limiter_func limiters qmin qmax q gx gy m))).
Proof.
  intros Hmin Hmax.
  pose proof (calc_limiters_brackets limiters qmin qmax q gx gy m Hmin Hmax)
    as Hb.
  destruct (calc_limiters_limiters vars limiter_func
              limiters qmin qmax q gx gy m) as (qmin' & qmax' & Heq & _).
  rewrite Heq in *. simpl in *.
  apply for_loop_preserves.
  - apply (@Forall_lookup_total_2 R unit_interval _). intros p Hp.
    rewrite (stores_length (fun i => i) (fun _ _ => @lit R exact 1)) in Hp.
    rewrite fill_lookup by done.
    unfold unit_interval, Q2R. simpl. lra.
  - intros e l _ Hl. simpl. by repeat apply limit_endpoint_unit.
Qed.
End ExactLimiters.

(** In exact real arithmetic, with the Michalak function, every limiter
    that [calc_limiters] leaves is in [0, 1]. *)
Lemma calc_limiters_michalak_exact (vars : nat)
    (limiters qmin qmax q gx gy : list R) (m : mesh R) (p : nat) :
  length qmin = length q -> length qmax = length q ->
  p < length limiters ->
  (0 <= fst (fst (calc_limiters vars michalak limiters qmin qmax q gx gy m))
          !!! p <= 1)%R.
Proof.
  intros Hmin Hmax Hin.
  pose proof (calc_limiters_unit vars michalak michalak_range
                limiters qmin qmax q gx gy m Hmin Hmax) as Hall.
  apply (@Forall_lookup_total_1 R (fun x => (0 <= x <= 1)%R) _ _ _ Hall).
  destruct (calc_limiters_limiters vars michalak limiters qmin qmax q gx gy m)
    as (qmin' & qmax' & -> & _). simpl.
  apply (for_loop_preserves (fun l : list R => p < length l)).
  - by rewrite stores_length.
  - intros e l _ Hl. simpl. by rewrite !limit_endpoint_length.
Qed.

(** C6 as stated fails on doubles, at the bound [0 <=]: the cubic fade
    [2y^3 - 3y^2 + 1] rounds to [-2^-51] at [y = 1 - 7*2^-52], and the
    limiter of an owned cell that is a local maximum becomes negative. *)
Lemma calc_limiters_negative_on_doubles :
  Forall (fun x => valid_binary B64.prec B64.emax x = true) Halo.q_step
  /\ owned Halo.m 0 = true
  /\ fst (fst (calc_limiters 1 michalak (replicate 2 zero) (replicate 2 zero)
                 (replicate 2 zero) Halo.q_step [lit 1; lit 0] [lit 0; lit 0]
                 Halo.m)) !!! (1 * 0 + 0)
      = S754_finite true 4503599627370496 (-103)
  /\ (S754_finite true 4503599627370496 (-103) <? lit 0)%D = true.
Proof.
  split; [repeat constructor|].
  split; [reflexivity|].
  split; vm_compute; reflexivity.
Qed.

(** ** C8: applying the boundary conditions twice *)

Lemma list_eq_total {A : Type} `{!Inhabited A} (l1 l2 : list A) :
  length l1 = length l2 -> (forall p, l1 !!! p = l2 !!! p) -> l1 = l2.
Proof.
  intros Hlen Heq. apply list_eq. intros p.
  destruct (decide (p < length l1)) as [Hp|Hp].
  - rewrite !list_lookup_lookup_total_lt by lia. by rewrite Heq.
  - by rewrite !lookup_ge_None_2 by lia.
Qed.

Lemma lookup_total_agree {A : Type} `{!Inhabited A} (l1 l2 : list A) p :
  length l1 = length l2 -> l1 !!! p = l2 !!! p -> l1 !! p = l2 !! p.
Proof.
  intros Hlen Heq. destruct (decide (p < length l1)) as [Hp|Hp].
  - rewrite !list_lookup_lookup_total_lt by lia. by rewrite Heq.
  - by rewrite !lookup_ge_None_2 by lia.
Qed.

Section BoundsFacts.
Context {D : Type} `{Arith D}.
Variable vars : nat.

Lemma cell_state_ext (a b : list D) o :
  length a = length b ->
  (forall k, k < vars -> a !!! (idx vars o 0 + k) = b !!! (idx vars o 0 + k)) ->
  cell_state vars a o = cell_state vars b o.
Proof.
  intros Hlen Heq. unfold cell_state. apply list_eq. intros i.
  rewrite !lookup_take. case_decide; [|done].
  rewrite !lookup_drop. apply lookup_total_agree; auto.
Qed.

Lemma write_cell_length (v : list D) g W :
  length (write_cell vars v g W) = length v.
Proof. apply stores_length. Qed.

Lemma write_cell_other (v : list D) g W p :
  ~ (idx vars g 0 <= p < idx vars g 0 + vars) ->
  write_cell vars v g W !!! p = v !!! p.
Proof.
  intros Hp. apply (stores_other (fun k => idx vars g 0 + k)).
  intros k Hk. lia.
Qed.

Lemma write_cell_inside (v : list D) g W k :
  k < vars -> idx vars g 0 + k < length v ->
  write_cell vars v g W !!! (idx vars g 0 + k) = W !!! k.
Proof.
  intros Hk Hlen. unfold write_cell.
  match goal with |- for_loop _ _ ?b _ !!! _ = _ => set (body := b) end.
  cut (length (for_loop 0 vars body v) = length v /\
       (k < vars -> for_loop 0 vars body v !!! (idx vars g 0 + k) = W !!! k)).
  { intros [_ Hz]. by apply Hz. }
  apply (for_loop_inv (fun i acc =>
    length acc = length v /\
    (k < i -> acc !!! (idx vars g 0 + k) = W !!! k)));
    [lia|split; [done|lia]|].
  subst body. cbv beta.
  intros i acc Hi [Hl Hacc]. split; [by rewrite length_insert|].
  intros Hki. rewrite list_lookup_total_insert.
  case_decide as Hd.
  - destruct Hd as [Heq _]. by replace i with k by lia.
  - apply Hacc. destruct (decide (k = i)) as [->|]; [|lia].
    exfalso. apply Hd. split; [done|lia].
Qed.

(** Two vectors of one size stay equal, entry by entry, where the same
    values are written over cell [g]. *)
Lemma write_cell_agree (a b : list D) g W p :
  length a = length b ->
  idx vars g 0 <= p < idx vars g 0 + vars ->
  write_cell vars a g W !!! p = write_cell vars b g W !!! p.
Proof.
  intros Hlen Hp.
  destruct (decide (p < length a)) as [Hin|Hout].
  - replace p with (idx vars g 0 + (p - idx vars g 0)) by lia.
    rewrite !write_cell_inside; (done || lia).
  - rewrite !lookup_total_oob; [done|rewrite write_cell_length..]; lia.
Qed.
End BoundsFacts.

Lemma idx_cell vars n c :
  (N.of_nat (vars * n) <= uint_max)%N -> c < n -> idx vars c 0 = vars * c.
Proof.
  intros Hfit Hc.
  destruct (decide (vars = 0)) as [->|Hv]; [done|].
  destruct (idx_lt vars n c 0) as [-> _]; [done|done|lia|lia].
Qed.

Section BoundsIdempotent.
Context {D : Type} `{Arith D}.
Variable vars : nat.
Variable m : mesh D.
Variable q : list D.

(** The cells that boundary edge number [i] joins. *)
Definition boundary_pair (i : nat) : nat * nat :=
  edgesCells m !!! (boundaryEdges m !!! i).

Hypothesis fits : (N.of_nat (vars * ncells m) <= uint_max)%N.
Hypothesis owned_to_ghost : forall i, i < length (boundaryEdges m) ->
  fst (boundary_pair i) < nRealCells m
  /\ nRealCells m <= snd (boundary_pair i) < ncells m.
Hypothesis pure : forall i K, boundaryFuncs m !! i = Some K ->
  forall b b' s n, K b s n = K b' s n.

(** One iteration of the loop of [update_bounds]. *)
Definition bound_step (i : nat) (v : list D) : list D :=
  let e := boundaryEdges m !!! i in
  let n := (edgesNormalsX m !!! e, edgesNormalsY m !!! e) in
  let cells := edgesCells m !!! e in
  match boundaryFuncs m !! i with
  | Some kernel =>
      write_cell vars v (snd cells)
        (kernel (cell_state vars v (snd cells))
                (cell_state vars v (fst cells)) n)
  | None => v
  end.

Lemma update_bounds_steps (v : list D) :
  update_bounds vars v m = for_loop 0 (length (boundaryEdges m)) bound_step v.
Proof. reflexivity. Qed.

(** [v] has the size of [q] and the entries of [q] in every owned cell of
    a boundary edge. *)
Definition sources_kept (v : list D) : Prop :=
  length v = length q /\
  forall j k, j < length (boundaryEdges m) -> k < vars ->
    v !!! (idx vars (fst (boundary_pair j)) 0 + k)
    = q !!! (idx vars (fst (boundary_pair j)) 0 + k).

(** The state that iteration [i] writes: it depends on [q] alone. *)
Definition ghost_state (i : nat) (kernel : bound_kernel D) : list D :=
  let e := boundaryEdges m !!! i in
  kernel [] (cell_state vars q (fst (boundary_pair i)))
    (edgesNormalsX m !!! e, edgesNormalsY m !!! e).

Lemma bound_step_eq i v :
  i < length (boundaryEdges m) -> sources_kept v ->
  bound_step i v
  = match boundaryFuncs m !! i with
    | Some kernel => write_cell vars v (snd (boundary_pair i))
                       (ghost_state i kernel)
    | None => v
    end.
Proof.
  intros Hi [Hlen Hsrc]. unfold bound_step, ghost_state. cbv zeta.
  fold (boundary_pair i).
  destruct (boundaryFuncs m !! i) as [K|] eqn:HK; [|done].
  f_equal. rewrite (pure i K HK _ []). f_equal.
  apply cell_state_ext; [done|]. intros k Hk. by apply Hsrc.
Qed.

Lemma bound_step_sources i v :
  i < length (boundaryEdges m) -> sources_kept v -> sources_kept (bound_step i v).
Proof.
  intros Hi Hv. rewrite bound_step_eq by done.
  destruct (boundaryFuncs m !! i) as [K|]; [|done].
  destruct Hv as [Hlen Hsrc]. split; [by rewrite write_cell_length|].
  intros j k Hj Hk. rewrite write_cell_other; [by apply Hsrc|].
  destruct (owned_to_ghost i Hi) as [_ Hg].
  destruct (owned_to_ghost j Hj) as [Ho _].
  rewrite !(idx_cell vars (ncells m)) by (done || lia). nia.
Qed.

Lemma update_bounds_sources : sources_kept (update_bounds vars q m).
Proof.
  rewrite update_bounds_steps.
  apply for_loop_preserves; [by split|].
  intros i acc Hi. apply bound_step_sources. lia.
Qed.

(** [p] is an entry of a ghost cell written by an iteration before [i]. *)
Definition written_before (i p : nat) : Prop :=
  exists j, j < i /\ is_Some (boundaryFuncs m !! j) /\
    idx vars (snd (boundary_pair j)) 0 <= p
    < idx vars (snd (boundary_pair j)) 0 + vars.

Lemma update_bounds_twice :
  update_bounds vars (update_bounds vars q m) m = update_bounds vars q m.
Proof.
  set (q1 := update_bounds vars q m).
  pose proof update_bounds_sources as Hq1. fold q1 in Hq1.
  set (n := length (boundaryEdges m)).
  assert (Hpair :
    let r := for_loop 0 n (fun i '(a, b) => (bound_step i a, bound_step i b))
               (q, q1) in
    sources_kept (fst r) /\ sources_kept (snd r) /\
    forall p, (written_before n p /\ snd r !!! p = fst r !!! p) \/
              (~ written_before n p /\ snd r !!! p = q1 !!! p)).
  { cbv zeta.
    apply (for_loop_inv (fun i r =>
      sources_kept (fst r) /\ sources_kept (snd r) /\
      forall p, (written_before i p /\ snd r !!! p = fst r !!! p) \/
                (~ written_before i p /\ snd r !!! p = q1 !!! p))); [lia| |].
    - simpl. split; [by split|]. split; [done|].
      intros p. right. split; [|done]. intros (j & Hj & _). lia.
    - intros i [a b] Hi (Ha & Hb & Hp). simpl in *.
      split; [apply bound_step_sources; (done || lia)|].
      split; [apply bound_step_sources; (done || lia)|].
      rewrite !bound_step_eq by (done || lia).
      intros p.
      assert (Hlift : written_before i p -> written_before (S i) p).
      { intros (j & Hj & Hjp). exists j. split; [lia|done]. }
      destruct (boundaryFuncs m !! i) as [K|] eqn:HK.
      + destruct (decide (idx vars (snd (boundary_pair i)) 0 <= p
                          < idx vars (snd (boundary_pair i)) 0 + vars))
          as [Hin|Hout].
        * left. split.
          -- exists i. split; [lia|]. split; [by rewrite HK|done].
          -- apply write_cell_agree; [|done].
             destruct Ha as [-> _]. by destruct Hb as [-> _].
        * rewrite !write_cell_other by done.
          destruct (Hp p) as [[Hw Heq]|[Hnw Heq]]; [left; auto|].
          right. split; [|done]. intros (j & Hj & HKj & Hjp).
          destruct (decide (j = i)) as [->|]; [done|].
          apply Hnw. exists j. split; [lia|done].
      + destruct (Hp p) as [[Hw Heq]|[Hnw Heq]]; [left; auto|].
        right. split; [|done]. intros (j & Hj & HKj & Hjp).
        destruct (decide (j = i)) as [->|].
        * rewrite HK in HKj. by destruct HKj.
        * apply Hnw. exists j. split; [lia|done]. }
  cbv zeta in Hpair. rewrite for_loop_pair in Hpair. simpl in Hpair.
  rewrite <- !update_bounds_steps in Hpair. fold q1 in Hpair.
  destruct Hpair as ([Hl1 _] & [Hl2 _] & Hp).
  apply list_eq_total; [congruence|].
  intros p. by destruct (Hp p) as [[_ ?]|[_ ?]].
Qed.
End BoundsIdempotent.

(** C8. Two calls of [update_bounds] in a row leave the [q] that one call
    leaves, for every [q], every mesh whose boundary edges pair an owned
    cell [edgesCells(e,0) < nRealCells] with a ghost cell
    [nRealCells <= edgesCells(e,1) < cellsAreas.size()], and all boundary
    kernels that are pure: what they write depends on the owned state and
    the normal alone.  The indices fit in [unsigned int]. *)
Theorem update_bounds_idempotent {D : Type} `{Arith D}
    (vars : nat) (m : mesh D) (q : list D) :
  (N.of_nat (vars * ncells m) <= uint_max)%N ->
  (forall i, i < length (boundaryEdges m) ->
     fst (edgesCells m !!! (boundaryEdges m !!! i)) < nRealCells m
     /\ nRealCells m <= snd (edgesCells m !!! (boundaryEdges m !!! i))
        < ncells m) ->
  (forall i K, boundaryFuncs m !! i = Some K ->
     forall b b' s n, K b s n = K b' s n) ->
  update_bounds vars (update_bounds vars q m) m = update_bounds vars q m.
Proof. intros Hfit Hpair Hpure. by apply update_bounds_twice. Qed.

Lemma update_bounds_idempotent_witness :
  update_bounds 1 (update_bounds 1 Strip.q0 Strip.m) Strip.m
  = update_bounds 1 Strip.q0 Strip.m.
Proof.
  apply (update_bounds_idempotent 1 Strip.m Strip.q0).
  - vm_compute. discriminate.
  - intros i Hi. simpl in Hi. assert (i = 0) as -> by lia.
    vm_compute. lia.
  - intros i K HK. destruct i as [|i]; simpl in HK; [|discriminate].
    injection HK as <-. reflexivity.
Defined.

(** ** Conservation in exact arithmetic *)

(** A loop whose body leaves entry [p] alone leaves entry [p] alone. *)
Lemma for_loop_lookup_other {A : Type} `{!Inhabited A} lo hi
    (body : nat -> list A -> list A) (v : list A) p :
  (forall i acc, lo <= i < hi -> body i acc !!! p = acc !!! p) ->
  for_loop lo hi body v !!! p = v !!! p.
Proof.
  intros Hb. apply (for_loop_preserves (fun acc => acc !!! p = v !!! p));
    [done|].
  intros i acc Hi <-. by apply Hb.
Qed.

(** A loop that rewrites the entries [pos k] in place. *)
Lemma stores_map {A : Type} `{!Inhabited A} (pos : nat -> nat) (f : nat -> A -> A)
    hi (v : list A) k :
  (forall k1 k2, k1 < hi -> k2 < hi -> pos k1 = pos k2 -> k1 = k2) ->
  k < hi -> pos k < length v ->
  for_loop 0 hi (fun k v => <[pos k := f k (v !!! pos k)]> v) v !!! pos k
  = f k (v !!! pos k).
Proof.
  intros Hinj Hk Hlen.
  match goal with |- for_loop _ _ ?b _ !!! _ = _ => set (body := b) end.
  cut (length (for_loop 0 hi body v) = length v /\
       (k < hi -> for_loop 0 hi body v !!! pos k = f k (v !!! pos k)) /\
       (hi <= k -> for_loop 0 hi body v !!! pos k = v !!! pos k)).
  { intros (_ & Hdone & _). by apply Hdone. }
  apply (for_loop_inv (fun i acc =>
    length acc = length v /\
    (k < i -> acc !!! pos k = f k (v !!! pos k)) /\
    (i <= k -> acc !!! pos k = v !!! pos k)));
    [lia|split; [done|split; [lia|done]]|].
  subst body. cbv beta. intros i acc Hi (Hl & Hdone & Htodo).
  split; [by rewrite length_insert|].
  rewrite list_lookup_total_insert.
  destruct (decide (i = k)) as [->|Hne].
  - rewrite decide_True by (split; [done|lia]).
    split; [|lia]. intros _. by rewrite Htodo by lia.
  - rewrite decide_False.
    + split; intros ?; [apply Hdone|apply Htodo]; lia.
    + intros [Heq _]. apply Hne. apply Hinj; (done || lia).
Qed.

Section ConservationFacts.
Context {D : Type} `{Arith D}.
Variable vars : nat.
Variable calc_flux : @flux_kernel D.
Variable m : mesh D.

Lemma owned_lt c :
  nRealCells m <= ncells m -> owned m c = true -> c < ncells m.
Proof.
  unfold owned. intros Hreal [Hlt%bool_decide_eq_true _]%andb_true_iff. lia.
Qed.

Lemma accumulate_fluxes_length (qt q gx gy limiters : list D) :
  length (accumulate_fluxes vars calc_flux qt q gx gy limiters m) = length qt.
Proof.
  unfold accumulate_fluxes.
  apply (for_loop_preserves (fun acc => length acc = length qt)); [done|].
  intros e acc _ <-. destruct (edgesCells m !!! e) as [i j].
  apply (for_loop_preserves (fun acc' => length acc' = length acc)); [done|].
  intros k' acc' _ <-. by rewrite !length_insert.
Qed.

(** The edge loop does not touch the cells that are not owned. *)
Lemma accumulate_fluxes_not_owned (qt q gx gy limiters : list D) c k :
  (N.of_nat (vars * ncells m) <= uint_max)%N -> nRealCells m <= ncells m ->
  closed_domain m -> c < ncells m -> k < vars -> owned m c = false ->
  accumulate_fluxes vars calc_flux qt q gx gy limiters m !!! (vars * c + k)
  = qt !!! (vars * c + k).
Proof.
  intros fits real_cells Hclosed Hc Hk Hown. unfold accumulate_fluxes.
  destruct (idx_lt vars (ncells m) c k) as [Hidx _]; [done..|].
  apply for_loop_lookup_other. intros e acc He.
  destruct (Hclosed e) as [Hi Hj]; [lia|].
  destruct (edgesCells m !!! e) as [i j]. simpl in Hi, Hj.
  assert (i <> c) by congruence. assert (j <> c) by congruence.
  apply owned_lt in Hi, Hj; [|done..].
  apply for_loop_lookup_other. intros k' acc' Hk'.
  rewrite !list_lookup_total_insert_ne; [done|..];
    rewrite <- Hidx; intros Heq;
    [destruct (idx_inj vars (ncells m) i k' c k)
    |destruct (idx_inj vars (ncells m) j k' c k)]; (done || lia).
Qed.

(** What the cell loop leaves in a cell. *)
Lemma normalize_qt_owned (qt : list D) c k :
  (N.of_nat (vars * ncells m) <= uint_max)%N ->
  length qt = vars * ncells m -> c < ncells m -> k < vars ->
  owned m c = true ->
  normalize_qt vars qt m !!! (vars * c + k)
  = (qt !!! (vars * c + k)%nat * (one / (cellsAreas m !!! c)))%D.
Proof.
  intros fits Hlen Hc Hk Hown.
  destruct (idx_lt vars (ncells m) c k) as [Hidx Hlt]; [done..|].
  unfold normalize_qt.
  match goal with |- for_loop _ _ ?b _ !!! _ = _ => set (body := b) end.
  cut (length (for_loop 0 (ncells m) body qt) = length qt /\
       (c < ncells m ->
        for_loop 0 (ncells m) body qt !!! (vars * c + k)
        = (qt !!! (vars * c + k)%nat * (one / (cellsAreas m !!! c)))%D) /\
       (ncells m <= c ->
        for_loop 0 (ncells m) body qt !!! (vars * c + k)
        = qt !!! (vars * c + k))).
  { intros (_ & Hdone & _). by apply Hdone. }
  apply (for_loop_inv (fun i acc =>
    length acc = length qt /\
    (c < i -> acc !!! (vars * c + k)
              = (qt !!! (vars * c + k)%nat * (one / (cellsAreas m !!! c)))%D) /\
    (i <= c -> acc !!! (vars * c + k) = qt !!! (vars * c + k))));
    [lia|split; [done|split; [lia|done]]|].
  subst body. cbv beta. intros i acc Hi (Hl & Hdone & Htodo).
  split.
  { rewrite <- Hl. repeat case_match; apply stores_length. }
  destruct (decide (c = i)) as [<-|Hne].
  - unfold owned in Hown.
    apply andb_true_iff in Hown as [Hr%bool_decide_eq_true Hg%negb_true_iff].
    rewrite bool_decide_eq_false_2 by lia. rewrite Hg.
    split; [|lia]. intros _.
    rewrite <- Htodo by lia. rewrite <- Hidx.
    apply (stores_map (idx vars c)
             (fun _ x => (x * (one / (cellsAreas m !!! c)))%D)).
    + intros k1 k2 Hk1 Hk2 Heq.
      by destruct (idx_inj vars (ncells m) c k1 c k2).
    + done.
    + rewrite Hidx. lia.
  - assert (Hother : forall k', 0 <= k' < vars -> idx vars i k' <> vars * c + k).
    { intros k' Hk'. rewrite <- Hidx. intros Heq.
      destruct (idx_inj vars (ncells m) i k' c k); [done|lia|lia|done..|lia]. }
    assert (Hsame : forall acc' : list D,
      (if bool_decide (nRealCells m <= i)
       then for_loop 0 vars (fun k qt => <[idx vars i k := zero]> qt) acc'
       else if (cellsIsGhost m !!! i : bool)
       then for_loop 0 vars (fun k qt => <[idx vars i k := zero]> qt) acc'
       else for_loop 0 vars (fun k qt =>
              <[idx vars i k := (qt !!! idx vars i k
                                 * (one / (cellsAreas m !!! i)))%D]> qt) acc')
      !!! (vars * c + k) = acc' !!! (vars * c + k)).
    { intros acc'. repeat case_match; by rewrite (stores_other (idx vars i)). }
    rewrite Hsame. split; intros ?; [apply Hdone|apply Htodo]; lia.
Qed.
End ConservationFacts.

Section Sums.
Local Open Scope R_scope.

Lemma sumR_ext n f g :
  (forall c, (c < n)%nat -> f c = g c) -> sumR n f = sumR n g.
Proof.
  induction n as [|n IH]; intros Hfg; simpl; [done|].
  rewrite IH by (intros; apply Hfg; lia). rewrite Hfg by lia. done.
Qed.

Lemma sumR_plus n f g : sumR n (fun c => f c + g c) = sumR n f + sumR n g.
Proof. induction n as [|n IH]; simpl; [lra|]. rewrite IH. lra. Qed.

Lemma sumR_scal n f x : sumR n (fun c => f c * x) = sumR n f * x.
Proof. induction n as [|n IH]; simpl; [lra|]. rewrite IH. lra. Qed.

Lemma sumR_zero n f : (forall c, (c < n)%nat -> f c = 0) -> sumR n f = 0.
Proof.
  induction n as [|n IH]; intros Hf; simpl; [done|].
  rewrite IH by (intros; apply Hf; lia). rewrite Hf by lia. lra.
Qed.

Lemma total_sumR vars (m : mesh R) q k :
  total vars m q k
  = sumR (ncells m) (fun c => cellsAreas m !!! c * q !!! (vars * c + k)%nat).
Proof.
  unfold total.
  apply (for_loop_inv (fun i acc =>
    acc = sumR i (fun c => cellsAreas m !!! c * q !!! (vars * c + k)%nat)));
    [lia|apply exact_zero|].
  intros i acc _ ->. reflexivity.
Qed.

(** The sum over the cells of variable [k] after a store into the entry of
    cell [c0] and variable [k']. *)
Lemma sumR_insert_same vars n (v : list R) c0 k y :
  (k < vars)%nat -> (vars * c0 + k < length v)%nat ->
  sumR n (fun c => <[(vars * c0 + k)%nat := y]> v !!! (vars * c + k)%nat)
  = sumR n (fun c => v !!! (vars * c + k)%nat)
    + (if decide (c0 < n)%nat then y - v !!! (vars * c0 + k)%nat else 0).
Proof.
  intros Hk Hlen. induction n as [|n IH].
  - simpl sumR. case_decide; [lia|lra].
  - cbn [sumR]. rewrite IH. rewrite list_lookup_total_insert.
    destruct (decide (c0 = n)) as [->|Hne].
    + repeat case_decide; try lia; try lra;
        exfalso; eauto.
    + repeat case_decide; try lia; try lra;
        exfalso; match goal with Hc : _ /\ _ |- _ => destruct Hc; nia end.
Qed.

Lemma sumR_insert_other vars n (v : list R) c0 k k' y :
  (k < vars)%nat -> (k' < vars)%nat -> k' <> k ->
  sumR n (fun c => <[(vars * c0 + k')%nat := y]> v !!! (vars * c + k)%nat)
  = sumR n (fun c => v !!! (vars * c + k)%nat).
Proof.
  intros Hk Hk' Hne. apply sumR_ext. intros c _.
  apply list_lookup_total_insert_ne. intros Heq.
  assert (c0 = c) by nia. subst. lia.
Qed.
End Sums.

Lemma exact_one : @one R exact = 1%R.
Proof. unfold one. rewrite exact_lit. unfold Q2R. simpl. lra. Qed.

Section ExactConservation.
Local Open Scope R_scope.
Variable vars : nat.
Variable calc_flux : @flux_kernel R.
Variable m : mesh R.
Hypothesis fits : (N.of_nat (vars * ncells m) <= uint_max)%N.
Hypothesis real_cells : (nRealCells m <= ncells m)%nat.
Hypothesis closed : closed_domain m.
Hypothesis areas : forall c, owned m c = true -> cellsAreas m !!! c <> 0.

(** The edge loop adds to one cell what it takes from another. *)
Lemma accumulate_fluxes_sum (qt q gx gy limiters : list R) k :
  length qt = (vars * ncells m)%nat -> (k < vars)%nat ->
  sumR (ncells m) (fun c =>
    accumulate_fluxes vars calc_flux qt q gx gy limiters m
      !!! (vars * c + k)%nat)
  = sumR (ncells m) (fun c => qt !!! (vars * c + k)%nat).
Proof.
  intros Hlen Hk. unfold accumulate_fluxes.
  match goal with |- sumR _ (fun c => for_loop _ _ ?b _ !!! _) = _ =>
    set (body := b) end.
  cut (length (for_loop 0 (edgesNodes_cols m) body qt) = length qt /\
       sumR (ncells m) (fun c =>
         for_loop 0 (edgesNodes_cols m) body qt !!! (vars * c + k)%nat)
       = sumR (ncells m) (fun c => qt !!! (vars * c + k)%nat)).
  { by intros [_ ->]. }
  apply (for_loop_preserves (fun acc =>
    length acc = length qt /\
    sumR (ncells m) (fun c => acc !!! (vars * c + k)%nat)
    = sumR (ncells m) (fun c => qt !!! (vars * c + k)%nat))); [done|].
  subst body. cbv beta. intros e acc He [Hl Hs].
  destruct (closed e) as [Hi Hj]; [lia|].
  destruct (edgesCells m !!! e) as [i j]. simpl in Hi, Hj.
  apply owned_lt in Hi, Hj; [|done..].
  rewrite <- Hl, <- Hs.
  apply (for_loop_preserves (fun acc' =>
    length acc' = length acc /\
    sumR (ncells m) (fun c => acc' !!! (vars * c + k)%nat)
    = sumR (ncells m) (fun c => acc !!! (vars * c + k)%nat))); [done|].
  intros k' acc' Hk' [Hl' Hs'].
  split; [by rewrite !length_insert|].
  destruct (idx_lt vars (ncells m) i k') as [-> Hpi]; [done|done|lia|].
  destruct (idx_lt vars (ncells m) j k') as [-> Hpj]; [done|done|lia|].
  cbn [dadd dsub dmul exact].
  destruct (decide (k' = k)) as [->|Hne].
  - rewrite !sumR_insert_same by (rewrite ?length_insert; lia).
    rewrite !decide_True by lia. rewrite Hs'. lra.
  - rewrite !sumR_insert_other by (lia || done). done.
Qed.

(** The area-weighted rates of change sum to zero. *)
Lemma calc_time_derivatives_balance (qt q gx gy limiters : list R) k :
  length qt = (vars * ncells m)%nat -> (k < vars)%nat ->
  sumR (ncells m) (fun c =>
    cellsAreas m !!! c
    * calc_time_derivatives vars calc_flux qt q gx gy limiters m
        !!! (vars * c + k)%nat) = 0.
Proof.
  intros Hlen Hk. unfold calc_time_derivatives.
  set (qt0 := for_loop 0 (length qt) (fun i qt => <[i := zero]> qt) qt).
  assert (Hl0 : length qt0 = (vars * ncells m)%nat).
  { unfold qt0. by rewrite (stores_length (fun i => i) (fun _ _ => zero)). }
  assert (Hz0 : forall c, (c < ncells m)%nat -> qt0 !!! (vars * c + k)%nat = 0).
  { intros c Hc. unfold qt0. rewrite fill_lookup; [apply exact_zero|nia]. }
  set (acc := accumulate_fluxes vars calc_flux qt0 q gx gy limiters m).
  assert (Hla : length acc = (vars * ncells m)%nat).
  { unfold acc. by rewrite accumulate_fluxes_length. }
  rewrite (sumR_ext _ _ (fun c => acc !!! (vars * c + k)%nat)).
  - unfold acc. rewrite accumulate_fluxes_sum by done. by apply sumR_zero.
  - intros c Hc. destruct (owned m c) eqn:Hown.
    + rewrite normalize_qt_owned by done.
      cbn [dmul ddiv exact]. rewrite exact_one.
      field. by apply areas.
    + rewrite normalize_qt_not_owned by done.
      unfold acc. rewrite accumulate_fluxes_not_owned by done.
      rewrite Hz0 by done. rewrite exact_zero. lra.
Qed.
End ExactConservation.

Lemma bind_eq {D A B : Type} (c : Comm D A) (k : A -> Comm D B) (w : net D) :
  bind c k w = k (fst (c w)) (snd (c w)).
Proof. unfold bind. by destruct (c w). Qed.

Lemma ret_eq {D A : Type} (a : A) (w : net D) : ret a w = (a, w).
Proof. reflexivity. Qed.

(** An invariant of a loop whose body communicates. *)
Lemma fold_bind_inv {D S A : Type} (J : S -> Prop)
    (step : A -> S -> Comm D S) (l : list A) (c : Comm D S) (w : net D) :
  (forall w, J (fst (c w))) ->
  (forall a s w, J s -> J (fst (step a s w))) ->
  J (fst (fold_left (fun acc a => bind acc (step a)) l c w)).
Proof.
  intros Hc Hstep. revert c Hc w.
  induction l as [|a l IH]; intros c Hc w; simpl; [apply Hc|].
  apply IH. intros w'. unfold bind.
  pose proof (Hc w') as Hcw. destruct (c w') as [s w'']. simpl in *.
  by apply Hstep.
Qed.

Section StageFacts.
Context {D : Type} `{Arith D}.

Lemma update_cells_length (q ql qt dt : list D) v :
  length (update_cells q ql qt dt v) = length q.
Proof.
  unfold update_cells.
  apply (stores_length (fun i => i)
           (fun i _ => (ql !!! i + qt !!! i * dt !!! i * v)%D)).
Qed.

Lemma update_cells_lookup (q ql qt dt : list D) v p :
  p < length q ->
  update_cells q ql qt dt v !!! p = (ql !!! p + qt !!! p * dt !!! p * v)%D.
Proof.
  intros Hp. unfold update_cells.
  apply (stores_at (fun i => (ql !!! i + qt !!! i * dt !!! i * v)%D)); lia.
Qed.

Lemma min_dt_length (dt : list D) : length (min_dt dt) = length dt.
Proof. unfold min_dt. apply (stores_length (fun i => i) (fun _ _ => _)). Qed.

(** After [min_dt] every entry of [dt] is one and the same value. *)
Lemma min_dt_uniform (dt : list D) :
  exists d, forall p, p < length dt -> min_dt dt !!! p = d.
Proof.
  unfold min_dt. eexists. intros p Hp. by apply fill_lookup.
Qed.

Lemma calc_time_derivatives_length vars calc_flux
    (qt q gx gy limiters : list D) m :
  length (calc_time_derivatives vars calc_flux qt q gx gy limiters m)
  = length qt.
Proof.
  unfold calc_time_derivatives.
  rewrite normalize_qt_length, accumulate_fluxes_length.
  apply (stores_length (fun i => i) (fun _ _ => zero)).
Qed.

(** A mesh enters the rate of change through its geometry alone. *)
Lemma calc_time_derivatives_geometry vars calc_flux
    (qt q gx gy limiters : list D) (m m' : mesh D) :
  same_geometry m m' ->
  calc_time_derivatives vars calc_flux qt q gx gy limiters m'
  = calc_time_derivatives vars calc_flux qt q gx gy limiters m.
Proof.
  intros Hg.
  change (calc_time_derivatives vars calc_flux qt q gx gy limiters
            (set_comms m' [])
          = calc_time_derivatives vars calc_flux qt q gx gy limiters
              (set_comms m [])).
  by rewrite Hg.
Qed.

(** On one rank a stage exchanges nothing. *)
Lemma rk_stage_single (P : problem D) pool (q dt : list D) a qk w m
    (nw : net D) :
  size pool <= 1 ->
  exists gx gy limiters,
    fst (rk_stage P pool q dt a (qk, w, m) nw)
    = (update_cells qk q
         (calc_time_derivatives (vars P) (calc_flux P) (w_qt w) qk
            gx gy limiters m) dt a,
       {| w_qt := calc_time_derivatives (vars P) (calc_flux P) (w_qt w) qk
                    gx gy limiters m;
          w_gx := gx; w_gy := gy;
          w_qmin := w_qmin (fst (fst (complete_calc_qt P pool w qk m nw)));
          w_qmax := w_qmax (fst (fst (complete_calc_qt P pool w qk m nw)));
          w_limiters := limiters |}, m).
Proof.
  intros Hsize. unfold rk_stage, complete_calc_qt, bind, ret.
  destruct (decide (1 < size pool)) as [?|_]; [lia|].
  repeat (case_match; simplify_eq/=); eauto.
Qed.

(** Without channels the halo exchange changes nothing and calls
    nothing. *)
Lemma update_comms_no_channel vars (q : list D) (m : mesh D) (w : net D) :
  comms m = [] -> update_comms vars q m w = (q, m, w).
Proof.
  intros Hc. unfold update_comms. rewrite Hc. cbn [fold_left length].
  unfold for_loopM. cbn [seq fold_left Nat.sub]. unfold bind, ret.
  destruct m. cbn in Hc. subst. reflexivity.
Qed.

(** The same for a stage on several ranks, on a mesh without channels. *)
Lemma rk_stage_closed (P : problem D) pool (q dt : list D) a qk w m
    (nw : net D) :
  size pool <= 1 \/ comms m = [] ->
  exists gx gy limiters qmin qmax,
    fst (rk_stage P pool q dt a (qk, w, m) nw)
    = (update_cells qk q
         (calc_time_derivatives (vars P) (calc_flux P) (w_qt w) qk
            gx gy limiters m) dt a,
       {| w_qt := calc_time_derivatives (vars P) (calc_flux P) (w_qt w) qk
                    gx gy limiters m;
          w_gx := gx; w_gy := gy; w_qmin := qmin; w_qmax := qmax;
          w_limiters := limiters |}, m).
Proof.
  intros [Hsize|Hc].
  - destruct (rk_stage_single P pool q dt a qk w m nw Hsize)
      as (gx & gy & l & ->). by eauto 10.
  - destruct (decide (1 < size pool)) as [Hmany|?].
    + unfold rk_stage, complete_calc_qt, bind, ret.
      destruct (decide (1 < size pool)) as [_|?]; [|lia].
      destruct (do_calc_gradients P), (do_calc_limiters P);
        repeat first
          [ rewrite update_comms_no_channel by done
          | progress cbv beta iota
          | match goal with
            | |- context [calc_gradients ?v ?gx ?gy ?qq ?mm] =>
                destruct (calc_gradients v gx gy qq mm) as [? ?]
            | |- context [calc_limiters ?v ?f ?l ?a ?b ?qq ?gx ?gy ?mm] =>
                destruct (calc_limiters v f l a b qq gx gy mm) as [[? ?] ?]
            end ];
        cbn [fst snd w_qt]; by eauto 10.
    + destruct (rk_stage_single P pool q dt a qk w m nw ltac:(lia))
        as (gx & gy & l & ->). by eauto 10.
Qed.
End StageFacts.

(** *** The pass through the body of the loop *)

Section PassFacts.
Context {D : Type} `{Arith D}.
Variable P : problem D.
Variable indeterminate : D.
Variable pool : mpi_wrapper.
Variable opt : solverOptions D.

(** What a pass that returns has done: the stages, the residuals, and the
    state that it leaves. *)
Lemma time_step_value (st st' : driver D) (w w' : net D) :
  time_step P indeterminate pool opt st w = (Value st', w') ->
  exists q qk wk dt m w1 R0 R,
    advance P indeterminate pool st w = (q, qk, wk, dt, m, w1)
    /\ update_residuals P indeterminate pool opt st (w_qt wk) m w1
       = (Value (R0, R), w')
    /\ st' = {| d_q := q; d_qk := qk; d_work := wk; d_dt := dt; d_mesh := m;
                d_R0 := R0; d_R := R;
                d_step := (d_step st + 1) mod uint_max;
                d_time := if global_dt P then (d_time st + dt !!! 0)%D
                          else d_time st |}.
Proof.
  unfold time_step. rewrite bind_eq.
  destruct (advance P indeterminate pool st w) as [[[[[q qk] wk] dt] m] w1].
  cbn [fst snd]. rewrite bind_eq.
  destruct (update_residuals P indeterminate pool opt st (w_qt wk) m w1)
    as [[[R0 R]|] w2] eqn:Hres; cbn [fst snd]; rewrite ret_eq; intros Heq;
    [|discriminate].
  injection Heq as <- <-. by exists q, qk, wk, dt, m, w1, R0, R.
Qed.

(** The residuals are killed by the remainder of line 576 alone. *)
Lemma update_residuals_killed (st : driver D) (qt : list D) (m : mesh D)
    (w : net D) :
  fst (update_residuals P indeterminate pool opt st qt m w) = Killed
  <-> d_step st <> 0%N /\ print_interval opt = 0%N.
Proof.
  unfold update_residuals.
  destruct (d_step st =? 0)%N eqn:Hstep.
  - rewrite bind_eq, ret_eq. cbn [fst]. apply N.eqb_eq in Hstep.
    split; [discriminate|]. intros [? _]. done.
  - apply N.eqb_neq in Hstep.
    destruct (print_interval opt =? 0)%N eqn:Hpi.
    + apply N.eqb_eq in Hpi. rewrite ret_eq. cbn [fst]. done.
    + apply N.eqb_neq in Hpi.
      destruct (_ || _); rewrite ?bind_eq, ?ret_eq; cbn [fst];
        (split; [discriminate|]); intros [_ ?]; done.
Qed.

Lemma time_step_killed (st : driver D) (w : net D) :
  fst (time_step P indeterminate pool opt st w) = Killed
  <-> d_step st <> 0%N /\ print_interval opt = 0%N.
Proof.
  unfold time_step. rewrite bind_eq.
  destruct (advance P indeterminate pool st w) as [[[[[q qk] wk] dt] m] w1].
  cbn [fst snd]. rewrite bind_eq.
  rewrite <- (update_residuals_killed st (w_qt wk) m w1).
  destruct (update_residuals P indeterminate pool opt st (w_qt wk) m w1)
    as [[[R0 R]|] w2]; cbn [fst snd]; rewrite ret_eq; cbn [fst]; done.
Qed.

(** A pass that is not killed returns a state. *)
Lemma time_step_returns (st : driver D) (w : net D) :
  d_step st = 0%N \/ print_interval opt <> 0%N ->
  exists st' w', time_step P indeterminate pool opt st w = (Value st', w').
Proof.
  intros Hdef.
  destruct (time_step P indeterminate pool opt st w) as [[st'|] w'] eqn:Hts;
    [by eauto|].
  assert (fst (time_step P indeterminate pool opt st w) = Killed) as Hk
    by (by rewrite Hts).
  apply time_step_killed in Hk as [Hstep Hpi]. destruct Hdef; done.
Qed.

Lemma time_step_step (st st' : driver D) (w w' : net D) :
  time_step P indeterminate pool opt st w = (Value st', w') ->
  d_step st' = ((d_step st + 1) mod uint_max)%N.
Proof.
  intros (q & qk & wk & dt & m & w1 & R0 & R & _ & _ & ->)%time_step_value.
  reflexivity.
Qed.
(** On one rank with [global_dt] on, the time step of a pass is what
    [min_dt] makes of the result of [calc_dt]. *)
Lemma time_step_one_rank_dt (st st' : driver D) (w w' : net D) :
  time_step P indeterminate pool opt st w = (Value st', w') ->
  size pool <= 1 -> global_dt P = true ->
  d_dt st'
  = min_dt (calc_dt P (d_dt st)
              (update_bounds (vars P) (d_q st) (d_mesh st)) (d_mesh st)).
Proof.
  intros (q & qk & wk & dt & m & w1 & R0 & R & Hadv & _ & ->)%time_step_value
    Hsize Hg.
  cbn [d_dt]. revert Hadv. unfold advance. cbv zeta. rewrite Hg.
  destruct (decide (1 < size pool)) as [?|_]; [lia|].
  unfold bind at 1. rewrite ret_eq. cbv beta iota.
  unfold bind at 1. rewrite ret_eq. cbv beta iota.
  rewrite bind_eq.
  match goal with
  | |- context [fold_left ?f alpha ?c w] =>
      destruct (fold_left f alpha c w) as [[[qk5 w5] m5] nw5]
  end.
  cbn [fst snd]. rewrite ret_eq. by intros [= <- <- <- <- <- <-].
Qed.
End PassFacts.

Section ExactStep.
Local Open Scope R_scope.
Variable P : problem R.
Variable pool : mpi_wrapper.
Variable m : mesh R.
Variable q dt : list R.
Variable k : nat.
Variable d : R.
Hypothesis no_channel : (size pool <= 1)%nat \/ comms m = [].
Hypothesis fits : (N.of_nat (vars P * ncells m) <= uint_max)%N.
Hypothesis real_cells : (nRealCells m <= ncells m)%nat.
Hypothesis closed : closed_domain m.
Hypothesis areas : forall c, owned m c = true -> cellsAreas m !!! c <> 0.
Hypothesis q_size : length q = (vars P * ncells m)%nat.
Hypothesis dt_uniform :
  forall p, (p < vars P * ncells m)%nat -> dt !!! p = d.
Hypothesis k_var : (k < vars P)%nat.

(** What a stage keeps: the mesh, the sizes, and the total. *)
Definition stage_inv (s : list R * work R * mesh R) : Prop :=
  snd s = m
  /\ length (fst (fst s)) = (vars P * ncells m)%nat
  /\ length (w_qt (snd (fst s))) = (vars P * ncells m)%nat
  /\ total (vars P) m (fst (fst s)) k = total (vars P) m q k.

Lemma rk_stage_conserves a s (nw : net R) :
  stage_inv s -> stage_inv (fst (rk_stage P pool q dt a s nw)).
Proof.
  destruct s as [[qk w] m']. intros (Hm & Hqk & Hqt & Htot).
  simpl in Hm, Hqk, Hqt, Htot. subst m'.
  destruct (rk_stage_closed P pool q dt a qk w m nw no_channel)
    as (gx & gy & l & qmin & qmax & ->).
  set (qt := calc_time_derivatives (vars P) (calc_flux P) (w_qt w) qk gx gy l m).
  unfold stage_inv. simpl.
  split; [done|]. split; [by rewrite update_cells_length|].
  split; [unfold qt; by rewrite calc_time_derivatives_length|].
  rewrite !total_sumR.
  rewrite (sumR_ext _ _ (fun c =>
    cellsAreas m !!! c * q !!! (vars P * c + k)%nat
    + cellsAreas m !!! c * qt !!! (vars P * c + k)%nat * (d * a))).
  - rewrite sumR_plus, sumR_scal. unfold qt.
    rewrite (calc_time_derivatives_balance (vars P) (calc_flux P) m)
      by done. lra.
  - intros c Hc. assert (vars P * c + k < vars P * ncells m)%nat by nia.
    rewrite update_cells_lookup by lia.
    rewrite dt_uniform by done. cbn [dadd dmul exact]. lra.
Qed.

Lemma stages_conserve (qk : list R) (w : work R) (nw : net R) :
  length qk = (vars P * ncells m)%nat ->
  length (w_qt w) = (vars P * ncells m)%nat ->
  total (vars P) m qk k = total (vars P) m q k ->
  stage_inv (fst (fold_left (fun acc a => s <- acc ;; rk_stage P pool q dt a s)
                    alpha (ret (qk, w, m)) nw)).
Proof.
  intros Hqk Hw Htot.
  apply (fold_bind_inv stage_inv (fun a s => rk_stage P pool q dt a s)).
  - intros w'. by repeat split.
  - intros a s w'. apply rk_stage_conserves.
Qed.
End ExactStep.

Lemma total_pointwise (vars : nat) (m : mesh R) (q q' : list R) k :
  k < vars ->
  (forall p, p < vars * ncells m -> q' !!! p = q !!! p) ->
  total vars m q' k = total vars m q k.
Proof.
  intros Hk Heq. rewrite !total_sumR. apply sumR_ext.
  intros c Hc. rewrite Heq; [done|nia].
Qed.

(** In exact real arithmetic a pass through the body of the loop of [run]
    that lets every cell advance with the same [dt] preserves, for every
    variable [k], the sum over the cells of [A[c] * q[vars*c+k]], on every
    mesh in which every edge joins two owned, non-ghost cells, no boundary
    kernel is bound, the owned cells have a non-zero area and (on several
    ranks) there is no channel: the rates of change that
    [calc_time_derivatives] leaves sum to zero when weighted by the areas,
    and every stage leaves the total of [q].  The fields have one entry per
    cell and variable and their indices fit in [unsigned int]. *)
Theorem time_step_conserves_exact (P : problem R) (indeterminate : R)
    (pool : mpi_wrapper) (opt : solverOptions R) (st st' : driver R)
    (nw nw' : net R) (k : nat) :
  time_step P indeterminate pool opt st nw = (Value st', nw') ->
  size pool <= 1 \/ comms (d_mesh st) = [] ->
  (N.of_nat (vars P * ncells (d_mesh st)) <= uint_max)%N ->
  nRealCells (d_mesh st) <= ncells (d_mesh st) ->
  closed_domain (d_mesh st) ->
  boundaryEdges (d_mesh st) = [] ->
  (forall c, owned (d_mesh st) c = true ->
             cellsAreas (d_mesh st) !!! c <> 0%R) ->
  length (d_q st) = vars P * ncells (d_mesh st) ->
  length (d_qk st) = vars P * ncells (d_mesh st) ->
  length (w_qt (d_work st)) = vars P * ncells (d_mesh st) ->
  (forall p p', p < vars P * ncells (d_mesh st) ->
     p' < vars P * ncells (d_mesh st) -> d_dt st' !!! p = d_dt st' !!! p') ->
  k < vars P ->
  total (vars P) (d_mesh st) (d_q st') k
  = total (vars P) (d_mesh st) (d_q st) k.
Proof.
  intros Hts Hchan Hfit Hreal Hclosed Hnob Hareas Hq Hqk Hqt Hdt Hk.
  apply time_step_value in Hts
    as (q' & qk' & wk' & dt' & m' & w1 & R0 & R & Hadv & _ & ->).
  cbn [d_q d_dt] in *.
  revert Hadv. unfold advance. cbv zeta.
  assert (Hub : update_bounds (vars P) (d_q st) (d_mesh st) = d_q st).
  { unfold update_bounds. rewrite Hnob. reflexivity. }
  rewrite Hub.
  set (m := d_mesh st) in *. set (q := d_q st) in *.
  set (dt0 := calc_dt P (d_dt st) q m).
  assert (Hex : (if decide (1 < size pool) then update_comms (vars P) dt0 m
                 else ret (dt0, m)) nw = (dt0, m, nw)).
  { destruct (decide (1 < size pool)) as [Hmany|_]; [|done].
    apply update_comms_no_channel. destruct Hchan; [lia|done]. }
  rewrite bind_eq, Hex. cbn [fst snd]. rewrite bind_eq.
  match goal with
  | |- context [rk_stage P pool q (fst ?c)] => destruct c as [dt1 w2]
  end.
  cbn [fst snd].
  set (qk0 := for_loop 0 (length q) (fun i qk => <[i := q !!! i]> qk) (d_qk st)).
  assert (Hqk0 : length qk0 = vars P * ncells m).
  { unfold qk0.
    by rewrite (stores_length (fun i => i) (fun i _ => q !!! i)). }
  assert (Hqk0p : forall p, p < vars P * ncells m -> qk0 !!! p = q !!! p).
  { intros p Hp. unfold qk0.
    apply (stores_at (fun i => q !!! i)); lia. }
  rewrite bind_eq.
  match goal with
  | |- context [fold_left ?f alpha ?c w2] =>
      destruct (fold_left f alpha c w2) as [[[qk w] m''] w3] eqn:Hfold
  end.
  cbn [fst snd]. rewrite ret_eq. intros [= <- <- <- <- <- <-].
  assert (Hd : forall p, p < vars P * ncells m -> dt1 !!! p = dt1 !!! 0).
  { intros p Hp. apply Hdt; lia. }
  pose proof (stages_conserve P pool m q dt1 k (dt1 !!! 0) Hchan Hfit Hreal
                Hclosed Hareas Hq Hd Hk qk0 (d_work st) w2 Hqk0 Hqt
                (total_pointwise _ _ _ _ _ Hk Hqk0p)) as Hinv.
  rewrite Hfold in Hinv.
  destruct Hinv as (Hm' & Hlqk & _ & Htot). simpl in Hm', Hlqk, Htot.
  rewrite <- Htot.
  apply total_pointwise; [done|].
  intros p Hp. apply (stores_at (fun i => qk !!! i)); lia.
Qed.

Lemma time_step_conserves_exact_witness :
  exists st' nw',
    time_step (@Box.P R exact) 0%R Box.pool (@Box.opt R exact)
      (@Box.st R exact) (@Box.quiet R) = (Value st', nw')
    /\ total 1 (@Box.m R exact) (d_q st') 0
       = total 1 (@Box.m R exact) (d_q (@Box.st R exact)) 0.
Proof.
  destruct (time_step_returns (@Box.P R exact) 0%R Box.pool (@Box.opt R exact)
              (@Box.st R exact) (@Box.quiet R)) as (st' & nw' & Hts);
    [by left|].
  exists st', nw'. split; [exact Hts|].
  apply (time_step_conserves_exact (@Box.P R exact) 0%R Box.pool
           (@Box.opt R exact) (@Box.st R exact) st' (@Box.quiet R) nw' 0 Hts).
  - left. simpl. lia.
  - vm_compute. discriminate.
  - unfold ncells. simpl. lia.
  - intros e He. simpl in He. assert (e = 0) as -> by lia.
    split; reflexivity.
  - reflexivity.
  - intros c Hc.
    apply andb_true_iff in Hc as [Hlt%bool_decide_eq_true _].
    simpl in Hlt.
    destruct c as [|[|c]]; [| |lia]; simpl; unfold Q2R; simpl;
      intros Heq; lra.
  - reflexivity.
  - reflexivity.
  - reflexivity.
  - rewrite (time_step_one_rank_dt _ _ _ _ _ _ _ _ Hts)
      by (reflexivity || (simpl; lia)).
    destruct (min_dt_uniform (calc_dt (@Box.P R exact) (d_dt (@Box.st R exact))
                (update_bounds (vars (@Box.P R exact))
                   (d_q (@Box.st R exact)) (d_mesh (@Box.st R exact)))
                (d_mesh (@Box.st R exact)))) as [d Hd].
    intros p p' Hp Hp'. rewrite !Hd; [done|exact Hp'|exact Hp].
  - simpl. lia.
Defined.

(** ** C2: the total on rank 0 of two ranks *)


(** ** C4: the residual norm on every rank *)

Section LocalResiduals.
Context {D : Type} `{Arith D}.
Variable vars : nat.

Lemma local_residuals_length (R qt : list D) m :
  length (local_residuals vars R qt m) = length R.
Proof.
  unfold local_residuals.
  apply (for_loop_preserves (fun acc => length acc = length R)).
  - apply (stores_length (fun i => i) (fun _ _ => zero)).
  - intros i acc _ <-. case_match; [|done].
    apply (stores_length (fun j => j)
             (fun j R => (R !!! j + qt !!! idx vars i j * qt !!! idx vars i j
                          * cellsAreas m !!! i)%D)).
Qed.

(** What a rank sums up: the terms of its owned cells, from zero on. *)
Lemma local_residuals_lookup (R qt : list D) m k :
  length R = vars -> k < vars ->
  local_residuals vars R qt m !!! k = sum_list (owned_terms vars qt m k).
Proof.
  intros Hlen Hk. unfold local_residuals, sum_list, owned_terms.
  set (R0 := for_loop 0 vars (fun i R => <[i := zero]> R) R).
  assert (HR0 : length R0 = vars /\ R0 !!! k = zero).
  { unfold R0. split.
    - by rewrite (stores_length (fun i => i) (fun _ _ => zero)).
    - rewrite <- Hlen. apply fill_lookup. lia. }
  destruct HR0 as [HlR0 HzR0].
  match goal with |- for_loop _ _ ?b _ !!! _ = _ => set (body := b) end.
  cut (length (for_loop 0 (nRealCells m) body R0) = vars /\
       for_loop 0 (nRealCells m) body R0 !!! k
       = fold_left dadd
           (map (fun c => (qt !!! idx vars c k * qt !!! idx vars c k
                           * cellsAreas m !!! c)%D)
              (filter (fun c => cellsIsGhost m !!! c = false)
                 (seq 0 (nRealCells m)))) zero).
  { by intros [_ ->]. }
  apply (for_loop_inv (fun i acc =>
    length acc = vars /\
    acc !!! k
    = fold_left dadd
        (map (fun c => (qt !!! idx vars c k * qt !!! idx vars c k
                        * cellsAreas m !!! c)%D)
           (filter (fun c => cellsIsGhost m !!! c = false) (seq 0 i))) zero));
    [lia|done|].
  subst body. cbv beta. intros i acc Hi [Hl Hacc].
  rewrite seq_S, filter_app, map_app, fold_left_app. simpl.
  rewrite <- Hacc.
  destruct (cellsIsGhost m !!! i) eqn:Hg; simpl.
  - rewrite filter_cons_False by (rewrite Hg; done). done.
  - rewrite filter_cons_True by (by rewrite Hg). simpl.
    split.
    + transitivity (length acc); [|done].
      apply (stores_length (fun j => j)
               (fun j R => (R !!! j + qt !!! idx vars i j * qt !!! idx vars i j
                            * cellsAreas m !!! i)%D)).
    + apply (stores_map (fun j => j)
               (fun j x => (x + qt !!! idx vars i j * qt !!! idx vars i j
                            * cellsAreas m !!! i)%D)); [auto|done|lia].
Qed.
End LocalResiduals.

Section LoopM.
Context {D S : Type}.

Lemma for_loopM_empty lo hi (body : nat -> S -> Comm D S) s :
  hi <= lo -> for_loopM lo hi body s = ret s.
Proof.
  intros Hle. unfold for_loopM. by replace (hi - lo) with 0 by lia.
Qed.

Lemma for_loopM_step lo hi (body : nat -> S -> Comm D S) s :
  lo <= hi ->
  for_loopM lo (Datatypes.S hi) body s
  = bind (for_loopM lo hi body s) (body hi).
Proof.
  intros Hle. unfold for_loopM.
  replace (Datatypes.S hi - lo) with (Datatypes.S (hi - lo)) by lia.
  rewrite seq_S, fold_left_app. simpl.
  by replace (lo + (hi - lo)) with hi by lia.
Qed.

(** The invariant rule of a loop that communicates. *)
Lemma for_loopM_inv (P : nat -> S -> net D -> Prop) lo hi
    (body : nat -> S -> Comm D S) s w :
  lo <= hi ->
  P lo s w ->
  (forall i s w, lo <= i < hi -> P i s w ->
     P (Datatypes.S i) (fst (body i s w)) (snd (body i s w))) ->
  P hi (fst (for_loopM lo hi body s w)) (snd (for_loopM lo hi body s w)).
Proof.
  intros Hle H0 Hstep.
  induction hi as [|hi IH].
  - assert (lo = 0) by lia; subst. by rewrite for_loopM_empty by lia.
  - destruct (decide (lo = Datatypes.S hi)) as [->|Hne].
    + by rewrite for_loopM_empty by lia.
    + rewrite for_loopM_step by lia. rewrite bind_eq.
      apply Hstep; [lia|]. apply IH; [lia|].
      intros i s' w' Hi. apply Hstep. lia.
Qed.
End LoopM.

Section Traces.
Context {D : Type}.

Lemma received_from_app src (cs1 cs2 : list (mpi_call D)) :
  received_from src (cs1 ++ cs2)
  = received_from src cs1 + received_from src cs2.
Proof. unfold received_from. by rewrite filter_app, length_app. Qed.

Lemma received_from_recvs_other src count (l : list nat) :
  src ∉ l ->
  received_from src (map (fun i => MPI_Recv i count : mpi_call D) l) = 0.
Proof.
  unfold received_from. induction l as [|i l IH]; intros Hnin; [done|].
  apply not_elem_of_cons in Hnin as [Hne Hnin]. simpl.
  rewrite filter_cons_False; [by apply IH|].
  simpl. by rewrite bool_decide_eq_false_2.
Qed.

Lemma received_from_sends src (f : nat -> list D) (l : list nat) :
  received_from src (map (fun i => MPI_Send i (f i)) l) = 0.
Proof.
  unfold received_from. induction l as [|i l IH]; [done|]. simpl.
  by rewrite filter_cons_False.
Qed.

Lemma sent_to_app dest (cs1 cs2 : list (mpi_call D)) :
  sent_to dest (cs1 ++ cs2) = sent_to dest cs1 ++ sent_to dest cs2.
Proof. unfold sent_to. apply omap_app. Qed.

Lemma sent_to_recvs dest count (l : list nat) :
  sent_to dest (map (fun i => MPI_Recv i count : mpi_call D) l) = [].
Proof. induction l as [|i l IH]; [done|]. by simpl. Qed.

(** One message to each of the ranks [a .. a+len-1]. *)
Lemma sent_to_sends dest (x : list D) a len :
  a <= dest < a + len ->
  sent_to dest (map (fun i => MPI_Send i x) (seq a len)) = [x].
Proof.
  revert a. induction len as [|len IH]; intros a Hd; [lia|]. simpl.
  case_decide as Heq.
  - subst. f_equal.
    clear IH Hd. generalize (Datatypes.S dest), (Nat.lt_succ_diag_r dest).
    intros b Hb. revert b Hb.
    induction len as [|len IH]; intros b Hb; [done|]. simpl.
    rewrite decide_False by lia. apply IH. lia.
  - apply IH. lia.
Qed.

Lemma recv_into_full (buf msg : list D) count :
  length msg = count -> length buf = count -> recv_into buf count msg = msg.
Proof.
  intros Hm Hb. unfold recv_into. rewrite Hm, Nat.min_id.
  rewrite take_ge by lia. rewrite drop_ge by lia. apply app_nil_r.
Qed.
End Traces.

Section ResidualsRanks.
Context {D : Type} `{Arith D}.
Variable vars : nat.
Variable indeterminate : D.

(** Lines 360-362. *)
Definition sqrt_all (R : list D) : list D :=
  for_loop 0 vars (fun i R => <[i := dsqrt (R !!! i)]> R) R.

Lemma sqrt_all_length R : length (sqrt_all R) = length R.
Proof.
  apply (stores_length (fun i => i) (fun i R => dsqrt (R !!! i))).
Qed.

Lemma sqrt_all_lookup R k :
  k < vars -> k < length R -> sqrt_all R !!! k = dsqrt (R !!! k).
Proof.
  intros Hk Hl.
  apply (stores_map (fun i => i) (fun _ x => dsqrt x)); auto.
Qed.

(** A rank other than the root sends its sums and takes what the root
    sends back. *)
Lemma calc_residuals_other R qt m r n (inbox : nat -> nat -> list D) :
  r <> 0 ->
  calc_residuals vars indeterminate R qt m {| rank := r; size := n |}
    (start inbox)
  = (recv_into (sqrt_all (local_residuals vars R qt m)) vars (inbox 0 0),
     {| incoming := inbox;
        calls := [MPI_Send 0 (take vars (local_residuals vars R qt m));
                  MPI_Recv 0 vars] |}).
Proof.
  intros Hr. unfold calc_residuals. cbn [rank size].
  destruct (decide (r = 0)) as [?|_]; [done|]. reflexivity.
Qed.

(** Lines 343-357: the root adds up what the other ranks send. *)
Definition gather (R : list D) (n : nat) : Comm D (list D * list D) :=
  for_loopM 1 n (fun i '(R, R_other) =>
      msg <- mpi_recv i vars ;;
      let R_other := recv_into R_other vars msg in
      ret (for_loop 0 vars
             (fun j R => <[j := (R !!! j + R_other !!! j)%D]> R) R,
           R_other))
    (R, replicate vars indeterminate).

Lemma seq_snoc_from_1 i : 1 <= i -> seq 1 i = seq 1 (i - 1) ++ [i].
Proof.
  intros Hi. replace i with (Datatypes.S (i - 1)) at 1 by lia.
  rewrite seq_S. by replace (1 + (i - 1)) with i by lia.
Qed.

Lemma gather_spec R n (inbox : nat -> nat -> list D) :
  length R = vars ->
  (forall i, 1 <= i < n -> length (inbox i 0) = vars) ->
  incoming (snd (gather R n (start inbox))) = inbox
  /\ calls (snd (gather R n (start inbox)))
     = map (fun i => MPI_Recv i vars) (seq 1 (n - 1))
  /\ length (fst (fst (gather R n (start inbox)))) = vars
  /\ forall k, k < vars ->
       fst (fst (gather R n (start inbox))) !!! k
       = fold_left dadd (map (fun i => inbox i 0 !!! k) (seq 1 (n - 1)))
           (R !!! k).
Proof.
  intros HR Hmsg. unfold gather.
  destruct (decide (1 <= n)) as [Hn|Hn];
    [|rewrite for_loopM_empty by lia; replace (n - 1) with 0 by lia; done].
  set (body := fun (i : nat) '(R, R_other) => _).
  cut (incoming (snd (for_loopM 1 n body (R, replicate vars indeterminate)
                        (start inbox))) = inbox
       /\ calls (snd (for_loopM 1 n body (R, replicate vars indeterminate)
                        (start inbox)))
          = map (fun i => MPI_Recv i vars) (seq 1 (n - 1))
       /\ length (fst (fst (for_loopM 1 n body
                              (R, replicate vars indeterminate)
                              (start inbox)))) = vars
       /\ length (snd (fst (for_loopM 1 n body
                              (R, replicate vars indeterminate)
                              (start inbox)))) = vars
       /\ forall k, k < vars ->
            fst (fst (for_loopM 1 n body (R, replicate vars indeterminate)
                        (start inbox))) !!! k
            = fold_left dadd (map (fun i => inbox i 0 !!! k) (seq 1 (n - 1)))
                (R !!! k)).
  { intros (? & ? & ? & _ & ?). done. }
  apply (for_loopM_inv (fun i s w =>
    incoming w = inbox
    /\ calls w = map (fun i => MPI_Recv i vars) (seq 1 (i - 1))
    /\ length (fst s) = vars /\ length (snd s) = vars
    /\ forall k, k < vars ->
         fst s !!! k
         = fold_left dadd (map (fun i => inbox i 0 !!! k) (seq 1 (i - 1)))
             (R !!! k))); [done| |].
  { simpl. by rewrite length_replicate. }
  intros i [Ri Ro] w Hi (Hin & Hcalls & HlR & HlRo & HRk).
  simpl in HlR, HlRo, HRk. subst body. cbv beta iota.
  rewrite !bind_eq. unfold mpi_recv. cbn [fst snd].
  rewrite !ret_eq. cbn [fst snd incoming calls].
  rewrite Hin, Hcalls.
  rewrite received_from_recvs_other
    by (rewrite elem_of_seq; lia).
  replace (Datatypes.S i - 1) with i by lia.
  rewrite (seq_snoc_from_1 i) by lia. rewrite !map_app. simpl.
  rewrite recv_into_full by (try apply Hmsg; done || lia).
  split; [done|]. split; [done|].
  split; [by rewrite (stores_length (fun j => j)
                        (fun j R => (R !!! j + inbox i 0 !!! j)%D))|].
  split; [apply Hmsg; lia|].
  intros k Hk. rewrite map_app, fold_left_app. simpl.
  rewrite <- HRk by done.
  apply (stores_map (fun j => j) (fun j x => (x + inbox i 0 !!! j)%D));
    [auto|done|lia].
Qed.

(** The calls of the root do not depend on what it receives. *)
Lemma gather_calls R n (inbox : nat -> nat -> list D) :
  incoming (snd (gather R n (start inbox))) = inbox
  /\ calls (snd (gather R n (start inbox)))
     = map (fun i => MPI_Recv i vars) (seq 1 (n - 1)).
Proof.
  unfold gather.
  destruct (decide (1 <= n)) as [Hn|Hn];
    [|rewrite for_loopM_empty by lia; replace (n - 1) with 0 by lia; done].
  apply (for_loopM_inv (fun i (s : list D * list D) w =>
    incoming w = inbox
    /\ calls w = map (fun i => MPI_Recv i vars) (seq 1 (i - 1))));
    [done|done|].
  intros i [Ri Ro] w Hi (Hin & Hcalls).
  rewrite !bind_eq. unfold mpi_recv. cbn [fst snd].
  rewrite !ret_eq. cbn [fst snd incoming calls].
  rewrite Hcalls.
  replace (Datatypes.S i - 1) with i by lia.
  rewrite (seq_snoc_from_1 i) by lia. by rewrite !map_app.
Qed.

(** Lines 364-374: the root sends the norms to the other ranks. *)
Lemma broadcast_spec (x : list D) n (w : net D) :
  snd (for_loopM 1 n (fun i (_ : unit) => issue (MPI_Send i x)) tt w)
  = {| incoming := incoming w;
       calls := calls w ++ map (fun i => MPI_Send i x) (seq 1 (n - 1)) |}.
Proof.
  destruct (decide (1 <= n)) as [Hn|Hn].
  - apply (for_loopM_inv (fun i (_ : unit) w' =>
      w' = {| incoming := incoming w;
              calls := calls w ++ map (fun i => MPI_Send i x) (seq 1 (i - 1)) |}));
      [done| |].
    + simpl. rewrite app_nil_r. by destruct w.
    + intros i [] w' Hi ->. unfold issue. simpl.
      replace (i - 0) with i by lia.
      rewrite (seq_snoc_from_1 i) by lia.
      by rewrite map_app, app_assoc.
  - rewrite for_loopM_empty by lia. replace (n - 1) with 0 by lia.
    simpl. rewrite app_nil_r. by destruct w.
Qed.

Lemma calc_residuals_root_eq R qt m n (w : net D) :
  calc_residuals vars indeterminate R qt m {| rank := 0; size := n |} w
  = let g := gather (local_residuals vars R qt m) n w in
    let R' := sqrt_all (fst (fst g)) in
    (R', snd (for_loopM 1 n
                (fun i (_ : unit) => issue (MPI_Send i (take vars R'))) tt
                (snd g))).
Proof.
  unfold calc_residuals, gather, sqrt_all. cbn [rank size].
  destruct (decide (0 = 0)) as [_|?]; [|done].
  cbv zeta. unfold bind, ret.
  destruct (for_loopM 1 n _ _ w) as [[Rg Ro] wg]. cbn [fst snd].
  destruct (for_loopM 1 n _ tt wg) as [[] wb]. reflexivity.
Qed.

Lemma calc_residuals_root_calls R qt m n (inbox : nat -> nat -> list D) :
  let res := calc_residuals vars indeterminate R qt m {| rank := 0; size := n |}
               (start inbox) in
  calls (snd res)
  = map (fun i => MPI_Recv i vars) (seq 1 (n - 1))
    ++ map (fun i => MPI_Send i (take vars (fst res))) (seq 1 (n - 1)).
Proof.
  rewrite calc_residuals_root_eq. cbv zeta. cbn [fst snd].
  destruct (gather_calls (local_residuals vars R qt m) n inbox)
    as (Hin & Hcalls).
  rewrite broadcast_spec. cbn [calls]. by rewrite Hcalls.
Qed.

Lemma calc_residuals_root R qt m n (inbox : nat -> nat -> list D) :
  length R = vars ->
  (forall i, 1 <= i < n -> length (inbox i 0) = vars) ->
  let res := calc_residuals vars indeterminate R qt m {| rank := 0; size := n |}
               (start inbox) in
  calls (snd res)
  = map (fun i => MPI_Recv i vars) (seq 1 (n - 1))
    ++ map (fun i => MPI_Send i (take vars (fst res))) (seq 1 (n - 1))
  /\ length (fst res) = vars
  /\ forall k, k < vars ->
       fst res !!! k
       = dsqrt (fold_left dadd (map (fun i => inbox i 0 !!! k) (seq 1 (n - 1)))
                  (local_residuals vars R qt m !!! k)).
Proof.
  intros HR Hmsg. rewrite calc_residuals_root_eq. cbv zeta. cbn [fst snd].
  pose proof (gather_spec (local_residuals vars R qt m) n inbox
                ltac:(by rewrite local_residuals_length) Hmsg)
    as (Hin & Hcalls & Hlen & Hk).
  rewrite broadcast_spec. cbn [calls]. rewrite Hcalls.
  split; [done|]. split; [by rewrite sqrt_all_length|].
  intros k Hkv. rewrite sqrt_all_lookup by lia. by rewrite Hk.
Qed.
End ResidualsRanks.

Lemma received_from_recvs_some {D : Type} src count (l : list nat) :
  src ∈ l ->
  0 < received_from src (map (fun i => MPI_Recv i count : mpi_call D) l).
Proof.
  unfold received_from. induction l as [|i l IH]; intros Hin.
  - by apply elem_of_nil in Hin.
  - simpl. destruct (decide (i = src)) as [->|Hne].
    + rewrite filter_cons_True by (simpl; by rewrite bool_decide_eq_true_2).
      simpl. lia.
    + apply elem_of_cons in Hin as [?|Hin]; [congruence|].
      rewrite filter_cons_False
        by (simpl; by rewrite bool_decide_eq_false_2).
      by apply IH.
Qed.

Section ResidualsWorld.
Context {D : Type} `{Arith D}.
Variable vars : nat.
Variable indeterminate : D.
Variable n : nat.
Variables R0 qt : nat -> list D.
Variable m : nat -> mesh D.
Variable inbox : nat -> nat -> nat -> list D.

Abbreviation prog := (residuals_prog vars indeterminate n R0 qt m).

Hypothesis R_size : forall r, r < n -> length (R0 r) = vars.
Hypothesis received_is_sent : delivered n prog inbox.

Let loc (r : nat) : list D := local_residuals vars (R0 r) (qt r) (m r).

Lemma loc_length r : r < n -> length (loc r) = vars.
Proof.
  intros Hr. unfold loc. rewrite local_residuals_length. by apply R_size.
Qed.

(** What the root receives from rank [i] is the sums of rank [i]. *)
Lemma root_inbox i : 1 <= i < n -> inbox 0 i 0 = loc i.
Proof.
  intros Hi.
  pose proof (received_is_sent 0 i 0 ltac:(lia) ltac:(lia)) as Hd.
  unfold run_rank, residuals_prog in Hd.
  rewrite calc_residuals_root_calls in Hd.
  rewrite (calc_residuals_other vars indeterminate _ _ _ i n) in Hd by lia.
  cbn [snd calls] in Hd. simpl sent_to in Hd.
  rewrite received_from_app in Hd.
  specialize (Hd ltac:(
    pose proof (received_from_recvs_some (D:=D) i vars (seq 1 (n - 1))
                  ltac:(rewrite elem_of_seq; lia)); lia)).
  injection Hd as <-. fold (loc i).
  apply take_ge. rewrite loc_length; lia.
Qed.

Lemma root_result k :
  0 < n -> k < vars ->
  fst (run_rank prog inbox 0) !!! k = residual_norm vars n qt m k.
Proof.
  intros Hn Hk. unfold run_rank, residuals_prog.
  destruct (calc_residuals_root vars indeterminate (R0 0) (qt 0) (m 0) n
              (inbox 0)) as (_ & _ & Hres).
  { apply R_size. lia. }
  { intros i Hi. rewrite root_inbox by done. apply loc_length. lia. }
  rewrite Hres by done. unfold residual_norm, sum_ranks. f_equal.
  rewrite <- (local_residuals_lookup vars (R0 0)) by (try apply R_size; lia).
  f_equal. apply map_ext_in. intros i Hi%list_elem_of_In%elem_of_seq.
  rewrite root_inbox by lia. unfold loc.
  apply local_residuals_lookup; [apply R_size; lia|done].
Qed.

Lemma other_result r k :
  1 <= r < n -> k < vars ->
  fst (run_rank prog inbox r) !!! k
  = fst (run_rank prog inbox 0) !!! k.
Proof.
  intros Hr Hk.
  pose proof (received_is_sent r 0 0 ltac:(lia) ltac:(lia)) as Hd.
  unfold run_rank, residuals_prog in *.
  rewrite calc_residuals_root_calls in Hd.
  rewrite (calc_residuals_other vars indeterminate _ _ _ r n) in * by lia.
  cbn [fst snd calls] in *.
  specialize (Hd ltac:(change (0 < 1); lia)).
  rewrite sent_to_app, sent_to_recvs, sent_to_sends in Hd by lia.
  simpl in Hd. injection Hd as Hd.
  destruct (calc_residuals_root vars indeterminate (R0 0) (qt 0) (m 0) n
              (inbox 0)) as (_ & Hlen & _).
  { apply R_size. lia. }
  { intros i Hi. rewrite root_inbox by done. apply loc_length. lia. }
  rewrite <- Hd.
  rewrite recv_into_full.
  - apply lookup_total_take_lt. done.
  - rewrite length_take. lia.
  - rewrite sqrt_all_length, local_residuals_length. apply R_size. lia.
Qed.
End ResidualsWorld.

(** C4. Let [n] ranks run [calc_residuals], each on its own mesh and [qt],
    and let every rank receive what was sent to it.  Then on return [R[k]]
    is, on every rank and for every variable [k], the square root of the
    sum, over all ranks, of the sums over the owned, non-ghost cells of
    [qt[c,k]^2 * A[c]].  This holds in every arithmetic, the sums being
    taken in the order of the cells and of the ranks. *)
Theorem calc_residuals_all_ranks {D : Type} `{Arith D}
    (vars : nat) (indeterminate : D) (n : nat) (R0 qt : nat -> list D)
    (m : nat -> mesh D) (inbox : nat -> nat -> nat -> list D) (r k : nat) :
  (forall r, r < n -> length (R0 r) = vars) ->
  delivered n (residuals_prog vars indeterminate n R0 qt m) inbox ->
  r < n -> k < vars ->
  fst (run_rank (residuals_prog vars indeterminate n R0 qt m) inbox r) !!! k
  = residual_norm vars n qt m k.
Proof.
  intros HR Hdel Hr Hk.
  destruct (decide (r = 0)) as [->|Hne].
  - apply root_result; (done || lia).
  - rewrite other_result by (done || lia).
    apply root_result; (done || lia).
Qed.

Lemma calc_residuals_all_ranks_witness :
  fst (run_rank (residuals_prog 1 zero TwoRanks.n TwoRanks.R0 TwoRanks.qt
                   TwoRanks.m) TwoRanks.residual_inbox 1) !!! 0
  = residual_norm 1 TwoRanks.n TwoRanks.qt TwoRanks.m 0.
Proof.
  apply (calc_residuals_all_ranks 1 zero TwoRanks.n TwoRanks.R0 TwoRanks.qt
           TwoRanks.m TwoRanks.residual_inbox 1 0).
  - intros r _. reflexivity.
  - intros r s k Hr Hs.
    destruct r as [|[|r]], s as [|[|s]];
      try (unfold TwoRanks.n in *; lia);
      vm_compute; intros Hk;
      repeat (destruct k as [|k]; try lia); reflexivity.
  - unfold TwoRanks.n. lia.
  - lia.
Defined.

(** On the two ranks the norm is 5 on both. *)
Example calc_residuals_two_ranks :
  fst (run_rank (residuals_prog 1 zero TwoRanks.n TwoRanks.R0 TwoRanks.qt
                   TwoRanks.m) TwoRanks.residual_inbox 0) = [lit 5]
  /\ fst (run_rank (residuals_prog 1 zero TwoRanks.n TwoRanks.R0 TwoRanks.qt
                      TwoRanks.m) TwoRanks.residual_inbox 1) = [lit 5].
Proof. split; vm_compute; reflexivity. Qed.

(** ** C1: the global time step *)

(** C1 fails on the code.  On two ranks whose time steps are 5 and 3, every
    rank receiving what was sent to it, [min_dt] and [validate_dt] leave
    [dt = [3; 5]] on rank 0: the root stores the minimum in [dt[0]] alone.
    On three ranks whose time steps are 5, 1 and 3 they leave 3 on every
    rank, which exceeds the time step 1 of rank 1: the root takes the
    minimum with the last value received alone. *)
Theorem validate_dt_is_not_a_global_minimum :
  (delivered TwoRanks.n (reduce_dt zero TwoRanks.n TwoRanks.dt)
     TwoRanks.dt_inbox
   /\ fst (run_rank (reduce_dt zero TwoRanks.n TwoRanks.dt)
             TwoRanks.dt_inbox 0) = [lit 3; lit 5]
   /\ fst (run_rank (reduce_dt zero TwoRanks.n TwoRanks.dt)
             TwoRanks.dt_inbox 1) = [lit 3; lit 3])
  /\ (delivered ThreeRanks.n (reduce_dt zero ThreeRanks.n ThreeRanks.dt)
        ThreeRanks.dt_inbox
      /\ (forall r, r < ThreeRanks.n ->
            fst (run_rank (reduce_dt zero ThreeRanks.n ThreeRanks.dt)
                   ThreeRanks.dt_inbox r) = [lit 3])
      /\ (ThreeRanks.dt 1 !!! 0 <? lit 3)%D = true).
Proof.
  split; [split|split]; [|split| |split].
  - intros r s k Hr Hs.
    destruct r as [|[|r]], s as [|[|s]];
      try (unfold TwoRanks.n in *; lia);
      vm_compute; intros Hk;
      repeat (destruct k as [|k]; try lia); reflexivity.
  - vm_compute. reflexivity.
  - vm_compute. reflexivity.
  - intros r s k Hr Hs.
    destruct r as [|[|[|r]]], s as [|[|[|s]]];
      try (unfold ThreeRanks.n in *; lia);
      vm_compute; intros Hk;
      repeat (destruct k as [|k]; try lia); reflexivity.
  - intros r Hr.
    destruct r as [|[|[|r]]]; try (unfold ThreeRanks.n in *; lia);
      vm_compute; reflexivity.
  - vm_compute. reflexivity.
Qed.

(** ** The order of the doubles that are not NaN *)

Module B64Order.
(** A key that orders the doubles as [SFcompare] does: negative infinity,
    the negative numbers, the zeros, the positive numbers, positive
    infinity. *)
Definition key (x : spec_float) : Z * Z * Z :=
  match x with
  | S754_infinity true => (0, 0, 0)
  | S754_finite true m e => (1, - e, - Zpos m)
  | S754_zero _ => (2, 0, 0)
  | S754_finite false m e => (3, e, Zpos m)
  | S754_infinity false => (4, 0, 0)
  | S754_nan => (5, 0, 0)
  end%Z.

Definition lex_lt (a b : Z * Z * Z) : Prop :=
  (fst (fst a) < fst (fst b)
   \/ (fst (fst a) = fst (fst b)
       /\ (snd (fst a) < snd (fst b)
           \/ (snd (fst a) = snd (fst b) /\ snd a < snd b))))%Z.

Lemma ltb_key (x y : spec_float) :
  B64.is_nan x = false -> B64.is_nan y = false ->
  SFltb x y = true <-> lex_lt (key x) (key y).
Proof.
  intros Hx Hy. unfold SFltb, SFcompare, lex_lt.
  destruct x as [[]|[]| |[] m1 e1], y as [[]|[]| |[] m2 e2];
    try discriminate; simpl;
    try (split; [discriminate|lia]);
    try (split; [lia|reflexivity]);
    change (Pos.compare_cont Eq m1 m2) with (Pos.compare m1 m2);
    destruct (Z.compare_spec e1 e2); destruct (Pos.compare_spec m1 m2);
    simpl; split; (discriminate || reflexivity || lia).
Qed.

Lemma ltb_trans (x y z : spec_float) :
  SFltb x y = true -> SFltb y z = true -> SFltb x z = true.
Proof.
  intros Hxy Hyz.
  assert (B64.is_nan x = false /\ B64.is_nan y = false /\ B64.is_nan z = false)
    as (Hx & Hy & Hz).
  { unfold SFltb, SFcompare in *.
    destruct x as [[]|[]| |[] ? ?], y as [[]|[]| |[] ? ?], z as [[]|[]| |[] ? ?];
      try discriminate; done. }
  rewrite ltb_key in * by done. unfold lex_lt in *. lia.
Qed.

(** [y <= x < z] gives [y < z]. *)
Lemma ltb_le_lt (x y z : spec_float) :
  B64.is_nan x = false -> B64.is_nan y = false ->
  SFltb x y = false -> SFltb x z = true -> SFltb y z = true.
Proof.
  intros Hx Hy Hxy Hxz.
  assert (B64.is_nan z = false) as Hz.
  { unfold SFltb, SFcompare in Hxz.
    destruct x as [[]|[]| |[] ? ?], z as [[]|[]| |[] ? ?];
      try discriminate; done. }
  assert (~ lex_lt (key x) (key y)) as Hn.
  { rewrite <- ltb_key by done. by rewrite Hxy. }
  rewrite ltb_key in * by done. unfold lex_lt in *. lia.
Qed.

(** [x < y <= z] gives [x <= z]. *)
Lemma lt_le_le (x y z : spec_float) :
  SFltb x y = true -> SFleb y z = true -> SFleb x z = true.
Proof.
  unfold SFltb, SFleb, SFcompare.
  destruct x as [[]|[]| |[] m1 e1], y as [[]|[]| |[] m2 e2],
    z as [[]|[]| |[] m3 e3]; try discriminate; try reflexivity; simpl;
    change (Pos.compare_cont Eq m1 m2) with (Pos.compare m1 m2);
    change (Pos.compare_cont Eq m2 m3) with (Pos.compare m2 m3);
    change (Pos.compare_cont Eq m1 m3) with (Pos.compare m1 m3);
    destruct (Z.compare_spec e1 e2); destruct (Z.compare_spec e2 e3);
    destruct (Z.compare_spec e1 e3);
    destruct (Pos.compare_spec m1 m2); destruct (Pos.compare_spec m2 m3);
    destruct (Pos.compare_spec m1 m3);
    simpl; try discriminate; try reflexivity; lia.
Qed.
End B64Order.

(** ** C6: the limiter on doubles is at most 1 *)

Section LimiterBound.
Variable vars : nat.
Variable limiter_func : spec_float -> spec_float.

Definition at_most_one (x : spec_float) : Prop := SFleb x (lit 1) = true.

Lemma std_min_at_most_one (a b : spec_float) :
  at_most_one a -> at_most_one (std_min a b).
Proof.
  intros Ha. unfold std_min. simpl dlt.
  destruct (SFltb b a) eqn:Hlt; [|exact Ha].
  by apply (B64Order.lt_le_le b a).
Qed.

Lemma limit_endpoint_at_most_one (q gx gy qmin qmax : list spec_float)
    (m : mesh spec_float) e l id :
  Forall at_most_one l ->
  Forall at_most_one
    (limit_endpoint vars limiter_func q gx gy qmin qmax m e l id).
Proof.
  intros Hl. unfold limit_endpoint. case_match; [|done].
  apply for_loop_preserves; [done|].
  intros k acc _ Hacc. cbv zeta.
  destruct (decide (idx vars id k < length acc)) as [Hin|Hout];
    [|by rewrite list_insert_ge by lia].
  apply Forall_insert; [done|].
  apply std_min_at_most_one.
  by apply (@Forall_lookup_total_1 spec_float at_most_one _).
Qed.

Lemma calc_limiters_at_most_one
    (limiters qmin qmax q gx gy : list spec_float) (m : mesh spec_float) :
  Forall at_most_one
    (fst (fst (calc_limiters vars limiter_func limiters qmin qmax q gx gy m))).
Proof.
  destruct (calc_limiters_limiters vars limiter_func
              limiters qmin qmax q gx gy m) as (qmin' & qmax' & -> & _).
  simpl.
  apply for_loop_preserves.
  - apply (@Forall_lookup_total_2 spec_float at_most_one _). intros p Hp.
    rewrite (stores_length (fun i => i) (fun _ _ => B64.of_Q 1)) in Hp.
    change (B64.of_Q 1) with (@lit spec_float binary64 1).
    rewrite fill_lookup by done. reflexivity.
  - intros e l _ Hl. simpl. by repeat apply limit_endpoint_at_most_one.
Qed.
End LimiterBound.

Lemma calc_limiters_length {D : Type} `{Arith D} (vars : nat)
    (limiter_func : D -> D) (limiters qmin qmax q gx gy : list D)
    (m : mesh D) :
  length (fst (fst (calc_limiters vars limiter_func limiters qmin qmax q
                      gx gy m))) = length limiters.
Proof.
  destruct (calc_limiters_limiters vars limiter_func
              limiters qmin qmax q gx gy m) as (qmin' & qmax' & -> & _).
  simpl.
  apply (for_loop_preserves (fun l : list D => length l = length limiters)).
  - by rewrite stores_length.
  - intros e l _ Hl. simpl. by rewrite !limit_endpoint_length.
Qed.

(** C6 (amended). After [calc_limiters], on doubles and for every limiter
    function, every entry of [limiters] is at most 1 and is not NaN, for
    every [q], [gx], [gy] and mesh: the entries start at 1.0 and change
    through [std::min] alone.  In exact real arithmetic, with the Michalak
    function of the forward-step example, every entry is in [0, 1] as well
    ([qmin] and [qmax] have the size of [q]).  On doubles the bound [0 <=]
    fails: see [calc_limiters_negative_on_doubles]. *)
Theorem calc_limiters_range (vars : nat) :
  (forall (limiter_func : spec_float -> spec_float)
          (limiters qmin qmax q gx gy : list spec_float)
          (m : mesh spec_float) (p : nat),
     p < length limiters ->
     (fst (fst (calc_limiters vars limiter_func limiters qmin qmax q gx gy m))
        !!! p <=? lit 1)%D = true
     /\ B64.is_nan
          (fst (fst (calc_limiters vars limiter_func limiters qmin qmax q
                       gx gy m)) !!! p) = false)
  /\ (forall (limiters qmin qmax q gx gy : list R) (m : mesh R) (c k : nat),
        length qmin = length q -> length qmax = length q ->
        owned m c = true -> k < vars ->
        vars * c + k < length limiters ->
        (0 <= fst (fst (calc_limiters vars michalak limiters qmin qmax q
                          gx gy m)) !!! (vars * c + k)%nat <= 1)%R).
Proof.
  split.
  - intros limiter_func limiters qmin qmax q gx gy m p Hp.
    pose proof (calc_limiters_at_most_one vars limiter_func limiters qmin qmax
                  q gx gy m) as Hall.
    assert (at_most_one
              (fst (fst (calc_limiters vars limiter_func limiters qmin qmax q
                           gx gy m)) !!! p)) as Hle.
    { apply (@Forall_lookup_total_1 spec_float at_most_one _ _ _ Hall).
      by rewrite calc_limiters_length. }
    split; [exact Hle|].
    unfold at_most_one, SFleb, SFcompare in Hle.
    by destruct (_ !!! p) as [[]|[]| |[] ? ?].
  - intros limiters qmin qmax q gx gy m c k Hmin Hmax _ _ Hin.
    by apply calc_limiters_michalak_exact.
Qed.

Lemma calc_limiters_range_witness :
  ((fst (fst (calc_limiters 1 michalak (replicate 2 zero) (replicate 2 zero)
                (replicate 2 zero) Halo.q_step [lit 1; lit 0] [lit 0; lit 0]
                Halo.m)) !!! 0 <=? lit 1)%D = true
   /\ B64.is_nan
        (fst (fst (calc_limiters 1 michalak (replicate 2 zero)
                     (replicate 2 zero) (replicate 2 zero) Halo.q_step
                     [lit 1; lit 0] [lit 0; lit 0] Halo.m)) !!! 0) = false)
  /\ (0 <= fst (fst (calc_limiters 1%nat michalak [0; 0] [0; 0] [0; 0] [2; 4]
                       [1; 1] [0; 0] Halo.m_exact)) !!! (1 * 0 + 0)%nat
      <= 1)%R.
Proof.
  split.
  - apply (proj1 (calc_limiters_range 1) michalak (replicate 2 zero)
             (replicate 2 zero) (replicate 2 zero) Halo.q_step
             [lit 1; lit 0] [lit 0; lit 0] Halo.m 0).
    simpl. lia.
  - apply (proj2 (calc_limiters_range 1) [0; 0]%R [0; 0]%R [0; 0]%R
             [2; 4]%R [1; 1]%R [0; 0]%R Halo.m_exact 0 0).
    + reflexivity.
    + reflexivity.
    + reflexivity.
    + lia.
    + simpl. lia.
Defined.

(** ** C7: leaving the loop of [run] *)

Section LoopFacts.
Context {D : Type} `{Arith D}.
Variable P : problem D.
Variable indeterminate : D.
Variable pool : mpi_wrapper.
Variable opt : solverOptions D.

(** The passes so far have returned and the test of the loop fails. *)
Definition goes_on (o : outcome (driver D)) : Prop :=
  match o with
  | Value st => stops P opt st = false
  | Killed => False
  end.

(** The loop is left at the first state at which the test holds, and
    nowhere else. *)
Lemma run_loop_exact fuel (st st' : driver D) (w w' : net D) :
  run_loop P indeterminate pool opt fuel st w = (Some (Value st'), w') <->
  exists n,
    n < fuel
    /\ iterate P indeterminate pool opt n (st, w) = (Value st', w')
    /\ stops P opt st' = true
    /\ forall i, i < n ->
         goes_on (fst (iterate P indeterminate pool opt i (st, w))).
Proof.
  revert st w. induction fuel as [|fuel IH]; intros st w.
  - simpl. split; [discriminate|]. intros (n & Hn & _). lia.
  - simpl. destruct (stops P opt st) eqn:Hstop.
    + rewrite ret_eq. split.
      * intros [= <- <-]. exists 0. split; [lia|]. split; [done|].
        split; [done|]. intros i Hi. lia.
      * intros (n & Hn & Hit & Hst' & Hbefore).
        destruct n as [|n].
        -- simpl in Hit. by injection Hit as <- <-.
        -- specialize (Hbefore 0 ltac:(lia)). simpl in Hbefore. congruence.
    + unfold bind.
      destruct (time_step P indeterminate pool opt st w) as [[st1|] w1] eqn:Hts.
      * rewrite IH. split.
        -- intros (n & Hn & Hit & Hst' & Hbefore).
           exists (S n). split; [lia|]. simpl. rewrite Hts.
           split; [exact Hit|]. split; [done|].
           intros [|i] Hi; [exact Hstop|]. simpl. rewrite Hts.
           apply Hbefore. lia.
        -- intros (n & Hn & Hit & Hst' & Hbefore).
           destruct n as [|n].
           ++ simpl in Hit. injection Hit as <- <-. congruence.
           ++ simpl in Hit. rewrite Hts in Hit.
              exists n. split; [lia|]. split; [exact Hit|]. split; [done|].
              intros i Hi. specialize (Hbefore (S i) ltac:(lia)).
              simpl in Hbefore. by rewrite Hts in Hbefore.
      * rewrite ret_eq. split; [discriminate|].
        intros (n & Hn & Hit & Hst' & Hbefore).
        destruct n as [|n].
        -- simpl in Hit. injection Hit as <- <-. congruence.
        -- simpl in Hit. rewrite Hts in Hit. discriminate.
Qed.



(** An invariant of the passes that return. *)
Lemma iterate_inv (J : driver D -> net D -> Prop) (n : nat)
    (st st' : driver D) (w w' : net D) :
  (forall st w st' w',
     J st w -> time_step P indeterminate pool opt st w = (Value st', w') ->
     J st' w') ->
  J st w ->
  iterate P indeterminate pool opt n (st, w) = (Value st', w') ->
  J st' w'.
Proof.
  intros Hstep. revert st w. induction n as [|n IH]; intros st w HJ.
  - cbn [iterate fst snd]. by intros [= <- <-].
  - cbn [iterate fst snd].
    destruct (time_step P indeterminate pool opt st w) as [[st1|] w1] eqn:Hts;
      [|discriminate].
    apply IH. by apply (Hstep st w).
Qed.

(** With a print interval other than 0 every pass returns. *)
Lemma iterate_returns (n : nat) (st : driver D) (w : net D) :
  print_interval opt <> 0%N ->
  exists st' w', iterate P indeterminate pool opt n (st, w) = (Value st', w').
Proof.
  intros Hpi. revert st w. induction n as [|n IH]; intros st w.
  - by eauto.
  - cbn [iterate fst snd].
    destruct (time_step_returns P indeterminate pool opt st w)
      as (st1 & w1 & ->); [by right|]. apply IH.
Qed.
End LoopFacts.

(** *** The residual test on doubles *)

Section ResidualTest.
Variable P : problem spec_float.
Variable opt : solverOptions spec_float.

(** When no residual is NaN, [Rmax] is below the tolerance exactly when
    [0.0] and every residual are. *)
Lemma Rmax_below_tolerance (st : driver spec_float) :
  residuals_defined P st ->
  (Rmax P st <? tolerance opt)%D = true <-> residuals_below_tolerance P opt st.
Proof.
  intros Hdef. unfold Rmax, residuals_below_tolerance.
  destruct (0 <? d_step st)%N; [|reflexivity].
  set (tol := tolerance opt).
  cut (B64.is_nan (for_loop 0 (vars P)
         (fun i acc => std_max (d_R st !!! i) acc) (lit 0)) = false
       /\ (SFltb (for_loop 0 (vars P)
             (fun i acc => std_max (d_R st !!! i) acc) (lit 0)) tol = true
           <-> SFltb (lit 0) tol = true
               /\ forall k, k < vars P -> SFltb (d_R st !!! k) tol = true)).
  { intros [_ Hiff]. exact Hiff. }
  apply (for_loop_inv (fun i acc =>
    B64.is_nan acc = false
    /\ (SFltb acc tol = true
        <-> SFltb (lit 0) tol = true
            /\ forall k, k < i -> SFltb (d_R st !!! k) tol = true))).
  - lia.
  - split; [reflexivity|]. split.
    + intros Hlt. split; [exact Hlt|]. intros k Hk. lia.
    + intros [Hlt _]. exact Hlt.
  - intros i acc Hi [Hnan Hacc].
    pose proof (Hdef i ltac:(lia)) as Hri.
    unfold std_max. simpl dlt.
    destruct (SFltb (d_R st !!! i) acc) eqn:Hcmp.
    + split; [exact Hnan|]. rewrite Hacc. split.
      * intros [H0 Hall]. split; [exact H0|]. intros k Hk.
        destruct (decide (k = i)) as [->|Hne]; [|apply Hall; lia].
        apply (B64Order.ltb_trans _ acc); [exact Hcmp|].
        apply Hacc. by split.
      * intros [H0 Hall]. split; [exact H0|]. intros k Hk. apply Hall. lia.
    + split; [exact Hri|]. split.
      * intros Hlt.
        assert (SFltb acc tol = true) as Ha
          by (by apply (B64Order.ltb_le_lt (d_R st !!! i))).
        apply Hacc in Ha as [H0 Hall]. split; [exact H0|]. intros k Hk.
        destruct (decide (k = i)) as [->|Hne]; [exact Hlt|]. apply Hall. lia.
      * intros [H0 Hall]. apply Hall. lia.
Qed.

(** When no residual is NaN, the test of the loop is the termination
    condition. *)
Lemma stops_termination_condition (st : driver spec_float) :
  residuals_defined P st ->
  stops P opt st = true <-> termination_condition P opt st.
Proof.
  intros Hdef. unfold stops, termination_condition.
  rewrite !orb_true_iff, N.leb_le, (Rmax_below_tolerance st Hdef).
  tauto.
Qed.
End ResidualTest.

(** C7. The loop of [run] is left where the condition of the claim does
    not hold.  In the run of [Masked] on doubles the loop is left at the
    top of the fourth iteration, with [step = 3] below [max_step] and
    [time] below [max_time], although the residual of variable 0 is [1.0],
    above the tolerance [0.5]: the residual of variable 1 is NaN,
    [std::max(R[1], Rmax)] returns that NaN in place of the maximum so far,
    [std::max(R[2], Rmax)] returns [R[2]] in place of the NaN, and the
    test compares [R[2]] alone with the tolerance. *)
Theorem run_stops_outside_termination_condition :
  exists st' w',
    (forall fuel, 3 < fuel ->
       run Masked.P S754_nan Masked.pool Masked.opt fuel [] Masked.m
         Masked.quiet = (Some (Value st'), w'))
    /\ d_step st' = 3%N
    /\ d_R st' !!! 0 = lit 1
    /\ d_R st' !!! 1 = S754_nan
    /\ Rmax Masked.P st' = d_R st' !!! 2
    /\ (d_R st' !!! 2 <? tolerance Masked.opt)%D = true
    /\ ~ termination_condition Masked.P Masked.opt st'.
Proof.
  destruct (iterate Masked.P S754_nan Masked.pool Masked.opt 3
              (run_init Masked.P S754_nan [] Masked.m, Masked.quiet))
    as [[st'|] w'] eqn:Hit; [|vm_compute in Hit; discriminate].
  exists st', w'. split.
  { intros fuel Hfuel. unfold run. apply run_loop_exact. exists 3.
    split; [lia|]. split; [exact Hit|]. split.
    - vm_compute in Hit. injection Hit as <- _. vm_compute. reflexivity.
    - intros i Hi.
      assert (i = 0 \/ i = 1 \/ i = 2) as [->|[->| ->]] by lia;
        vm_compute; reflexivity. }
  vm_compute in Hit. injection Hit as <- _.
  repeat (split; [vm_compute; reflexivity|]).
  intros [Hstep|[Htime|Hres]].
  - vm_compute in Hstep. by apply Hstep.
  - vm_compute in Htime. discriminate.
  - destruct Hres as [_ Hres]. specialize (Hres 0 ltac:(simpl; lia)).
    vm_compute in Hres. discriminate.
Qed.

(** *** The calls of [update_comms] *)

Section CommsTrace.
Context {D : Type} `{Arith D}.
Variable vars : nat.

Lemma fold_bind_calls {S A : Type} (step : A -> S -> Comm D S)
    (f : A -> mpi_call D) (l : list A) (c : Comm D S) (w : net D) :
  (forall a s w, calls (snd (step a s w)) = calls w ++ [f a]) ->
  calls (snd (fold_left (fun acc a => bind acc (step a)) l c w))
  = calls (snd (c w)) ++ map f l.
Proof.
  intros Hstep. revert c.
  induction l as [|a l IH]; intros c; simpl; [by rewrite app_nil_r|].
  rewrite IH. unfold bind. destruct (c w) as [s w1]. simpl.
  by rewrite Hstep, <- app_assoc.
Qed.

Lemma send_loop q (l : list (comm D)) (c : Comm D (list (comm D) * nat))
    (w : net D) cs0 k0 w0 :
  c w = (cs0, k0, w0) ->
  let r := fold_left (fun acc c =>
      '(cs, k) <- acc ;;
      let c := pack vars q c in
      'tt <- issue (MPI_Isend (out_rank c) (snd_q c) k) ;;
      ret (cs ++ [c], S k)) l c w in
  fst (fst r) = cs0 ++ map (pack vars q) l
  /\ calls (snd r) = calls w0 ++ isends vars q k0 l.
Proof.
  revert c cs0 k0 w0. unfold isends.
  induction l as [|a l IH]; intros c cs0 k0 w0 Hc.
  - simpl. rewrite Hc. simpl. by rewrite !app_nil_r.
  - cbn [fold_left length seq zip_with map].
    match goal with |- context [fold_left ?f l ?c' w] =>
      destruct (IH c' (cs0 ++ [pack vars q a]) (S k0)
        {| incoming := incoming w0;
           calls := calls w0
             ++ [MPI_Isend (out_rank a) (snd_q (pack vars q a)) k0] |})
        as [E1 E2]
    end.
    { unfold bind at 1. rewrite Hc. reflexivity. }
    cbv zeta in E1, E2. rewrite E1, E2. cbn [calls].
    by rewrite <- !app_assoc.
Qed.

Lemma recv_loop_calls (l : list (comm D))
    (c : Comm D (list D * list (comm D))) (w : net D) :
  calls (snd (fold_left (fun acc c =>
      '(q, cs) <- acc ;;
      msg <- mpi_recv (out_rank c) (length (rec_q c)) ;;
      let c := {| out_rank := out_rank c; snd_indices := snd_indices c;
                  rec_indices := rec_indices c; snd_q := snd_q c;
                  rec_q := recv_into (rec_q c) (length (rec_q c)) msg |} in
      ret (unpack vars q c, cs ++ [c])) l c w))
  = calls (snd (c w))
    ++ map (fun c => MPI_Recv (out_rank c) (length (rec_q c))) l.
Proof.
  apply (fold_bind_calls _
           (fun c => MPI_Recv (out_rank c) (length (rec_q c)))).
  intros a [q cs] w'. reflexivity.
Qed.

Lemma free_loop_calls (n : nat) (w : net D) :
  calls (snd (for_loopM 0 n (fun i _ => issue (MPI_Request_free i)) tt w))
  = calls w ++ map MPI_Request_free (seq 0 n).
Proof.
  unfold for_loopM. rewrite Nat.sub_0_r.
  apply (fold_bind_calls (fun i (_ : unit) => issue (MPI_Request_free i))
           MPI_Request_free).
  intros a s w'. reflexivity.
Qed.

Lemma update_comms_calls q m w :
  calls (snd (update_comms vars q m w))
  = calls w ++ isends vars q 0 (comms m)
    ++ map (fun c => MPI_Recv (out_rank c) (length (rec_q c))) (comms m)
    ++ map MPI_Request_free (seq 0 (length (comms m))).
Proof.
  unfold update_comms.
  rewrite bind_eq.
  edestruct (send_loop q (comms m) (ret ([], 0)) w) as [Hcs Htr];
    [reflexivity|].
  cbv zeta in Hcs, Htr.
  match goal with |- context [fold_left ?f (comms m) (ret ([], 0)) w] =>
    set (r := fold_left f (comms m) (ret ([], 0)) w) in *
  end.
  destruct r as [[cs k] w1]. simpl in Hcs, Htr. subst cs. cbn [fst snd].
  rewrite bind_eq.
  match goal with |- context [fold_left ?f ?l (ret (q, [])) w1] =>
    pose proof (recv_loop_calls l (ret (q, [])) w1) as Hrecv;
    set (r := fold_left f l (ret (q, [])) w1) in *
  end.
  destruct r as [[q1 cs1] w2]. cbn [fst snd] in *.
  rewrite bind_eq.
  pose proof (free_loop_calls (length (comms m)) w2) as Hfree.
  destruct (for_loopM _ _ _ _ _) as [[] w3]. unfold ret in *. cbn [fst snd] in *.
  rewrite Hfree, Hrecv, Htr, map_map, <- !app_assoc. reflexivity.
Qed.

Lemma no_wait_isends r q k0 l : existsb (completes r) (isends vars q k0 l) = false.
Proof.
  unfold isends. revert k0. induction l as [|c l IH]; intros k0; [done|].
  simpl. apply IH.
Qed.

Lemma no_wait_map {A : Type} r (f : A -> mpi_call D) (l : list A) :
  (forall a, completes r (f a) = false) ->
  existsb (completes r) (map f l) = false.
Proof.
  intros Hf. induction l as [|a l IH]; [done|]. simpl. by rewrite Hf.
Qed.

(** C9 (as amended): [update_comms] posts one non-blocking send per channel,
    then receives once per channel, then hands every request to
    [MPI_Request_free]; it calls no [MPI_Wait], so the sends that it posts
    are all completed on return only when the mesh has no channel. *)
Theorem update_comms_frees_its_requests (q : list D) (m : mesh D) (w : net D) :
  issued_by (update_comms vars q m) w
  = isends vars q 0 (comms m)
    ++ map (fun c => MPI_Recv (out_rank c) (length (rec_q c))) (comms m)
    ++ map MPI_Request_free (seq 0 (length (comms m)))
  /\ (forall r,
        existsb (completes r) (issued_by (update_comms vars q m) w) = false)
  /\ (waits_for_sends (issued_by (update_comms vars q m) w) = true
      <-> comms m = []).
Proof.
  assert (issued_by (update_comms vars q m) w
          = isends vars q 0 (comms m)
            ++ map (fun c => MPI_Recv (out_rank c) (length (rec_q c)))
                 (comms m)
            ++ map MPI_Request_free (seq 0 (length (comms m)))) as Heq.
  { unfold issued_by. rewrite update_comms_calls. by rewrite drop_app_length. }
  split; [exact Heq|].
  assert (forall r,
    existsb (completes r) (issued_by (update_comms vars q m) w) = false)
    as Hno.
  { intros r. rewrite Heq, !existsb_app, no_wait_isends, !no_wait_map; done. }
  split; [exact Hno|].
  specialize (Hno 0). rewrite Heq in *. clear Heq.
  destruct (comms m) as [|c l]; [done|].
  split; [|done]. unfold isends in *. simpl in *.
  rewrite Hno. done.
Qed.
End CommsTrace.

(** On the mesh [Halo] the send to rank 1 is posted with the request 0,
    which is freed and never waited for. *)
Lemma update_comms_does_not_wait :
  issued_by (update_comms 1 Halo.q0 Halo.m) (start (fun _ _ => [lit 7]))
  = [MPI_Isend 1 [lit 2] 0; MPI_Recv 1 1; MPI_Request_free 0]
  /\ waits_for_sends
       (issued_by (update_comms 1 Halo.q0 Halo.m)
          (start (fun _ _ => [lit 7]))) = false.
Proof. split; vm_compute; reflexivity. Qed.

(** * Further properties of the engine *)

(** ** Output buffers *)

Lemma fill_replicate {A : Type} `{!Inhabited A} (x : A) (v : list A) :
  for_loop 0 (length v) (fun i l => <[i := x]> l) v = replicate (length v) x.
Proof.
  apply list_eq_total.
  - rewrite length_replicate.
    apply (stores_length (fun i => i) (fun _ _ => x)).
  - intros p. destruct (decide (p < length v)) as [Hp|Hp].
    + rewrite lookup_total_replicate_2 by done.
      by apply (stores_at (fun _ => x)); [lia|].
    + rewrite !lookup_total_oob; [done|rewrite length_replicate; lia|].
      rewrite (stores_length (fun i => i) (fun _ _ => x)). lia.
Qed.

Lemma fill_replicate_n {A : Type} `{!Inhabited A} (x : A) (v : list A) n :
  length v = n ->
  for_loop 0 n (fun i l => <[i := x]> l) v = replicate n x.
Proof. intros <-. apply fill_replicate. Qed.

Section Buffers.
Context {D : Type} `{Arith D}.
Variable vars : nat.

(** [calc_time_derivatives] resets [qt] before it accumulates the fluxes:
    what it returns depends on the size of [qt] only, not on what [qt]
    held. *)
Theorem calc_time_derivatives_resets_qt (calc_flux : @flux_kernel D)
    (qt qt' q gx gy limiters : list D) (m : mesh D) :
  length qt = length qt' ->
  calc_time_derivatives vars calc_flux qt q gx gy limiters m
  = calc_time_derivatives vars calc_flux qt' q gx gy limiters m.
Proof.
  intros Hlen. unfold calc_time_derivatives. cbv zeta.
  by rewrite !fill_replicate, Hlen.
Qed.

(** [calc_gradients] resets [gx] and [gy]: what it returns depends on
    their sizes only. *)
Theorem calc_gradients_resets_buffers (gx gy gx' gy' q : list D) (m : mesh D) :
  length gy = length gx -> length gx' = length gx -> length gy' = length gx ->
  calc_gradients vars gx gy q m = calc_gradients vars gx' gy' q m.
Proof.
  intros Hy Hx' Hy'. unfold calc_gradients. cbv zeta.
  rewrite !(for_loop_pair 0 _ (fun i l => <[i := zero]> l)
              (fun i l => <[i := zero]> l)).
  rewrite Hx'. by rewrite !fill_replicate_n.
Qed.
End Buffers.

Lemma copy_replaces {A : Type} `{!Inhabited A} (q v : list A) :
  length v = length q ->
  for_loop 0 (length q) (fun i v => <[i := q !!! i]> v) v = q.
Proof.
  intros Hlen. apply list_eq_total.
  - by rewrite (stores_length (fun i => i) (fun i _ => q !!! i)).
  - intros p. destruct (decide (p < length q)) as [Hp|Hp].
    + apply (stores_at (fun i => q !!! i)); lia.
    + rewrite !lookup_total_oob; [done|lia|].
      rewrite (stores_length (fun i => i) (fun i _ => q !!! i)). lia.
Qed.

Section LimiterBuffers.
Context {D : Type} `{Arith D}.
Variable vars : nat.

(** [calc_limiters] resets [limiters] to 1 and [qmin], [qmax] to [q]: what
    it returns depends on the sizes of the three buffers only. *)
Theorem calc_limiters_resets_buffers (limiter_func : D -> D)
    (limiters qmin qmax limiters' qmin' qmax' q gx gy : list D) (m : mesh D) :
  length limiters' = length limiters ->
  length qmin = length q -> length qmax = length q ->
  length qmin' = length q -> length qmax' = length q ->
  calc_limiters vars limiter_func limiters qmin qmax q gx gy m
  = calc_limiters vars limiter_func limiters' qmin' qmax' q gx gy m.
Proof.
  intros Hl Hmin Hmax Hmin' Hmax'. unfold calc_limiters. cbv zeta.
  rewrite !(for_loop_pair 0 _ (fun i v => <[i := q !!! i]> v)
              (fun i v => <[i := q !!! i]> v)).
  rewrite !copy_replaces by done.
  by rewrite !fill_replicate, Hl.
Qed.
End LimiterBuffers.

(** ** [min_dt] *)

Section MinDt.
Context {D : Type} `{Arith D}.

Definition dt_fold (dt : list D) : D :=
  for_loop 0 (length dt) (fun i md => std_min md (dt !!! i)) (dt !!! 0).

Lemma min_dt_replicate (dt : list D) :
  min_dt dt = replicate (length dt) (dt_fold dt).
Proof. unfold min_dt. cbv zeta. apply fill_replicate. Qed.

Lemma std_min_same (x : D) : std_min x x = x.
Proof. unfold std_min. by destruct (x <? x)%D. Qed.

Lemma dt_fold_replicate n (x : D) : 0 < n -> dt_fold (replicate n x) = x.
Proof.
  intros Hn. unfold dt_fold. rewrite length_replicate.
  rewrite lookup_total_replicate_2 by done.
  apply (for_loop_preserves (fun md => md = x)); [done|].
  intros i acc Hi ->. rewrite lookup_total_replicate_2 by lia.
  apply std_min_same.
Qed.

(** [min_dt] leaves a field whose entries are all the same, and a second
    call changes nothing. *)
Theorem min_dt_idempotent (dt : list D) :
  min_dt (min_dt dt) = min_dt dt
  /\ forall p p', p < length dt -> p' < length dt ->
       min_dt dt !!! p = min_dt dt !!! p'.
Proof.
  split.
  - rewrite (min_dt_replicate dt). rewrite min_dt_replicate.
    rewrite length_replicate. destruct (length dt) as [|n] eqn:Hn; [done|].
    by rewrite dt_fold_replicate by lia.
  - intros p p' Hp Hp'. rewrite min_dt_replicate.
    by rewrite !lookup_total_replicate_2.
Qed.
End MinDt.

(** In exact arithmetic the entries that [min_dt] leaves are the least
    entry of [dt]. *)
Theorem min_dt_least_exact (dt : list R) (p : nat) :
  p < length dt ->
  (forall i, i < length dt -> (min_dt dt !!! p <= dt !!! i)%R)
  /\ exists i, i < length dt /\ min_dt dt !!! p = dt !!! i.
Proof.
  intros Hp. rewrite min_dt_replicate, lookup_total_replicate_2 by done.
  unfold dt_fold.
  apply (for_loop_inv (fun n md =>
    (forall i, i < n -> (md <= dt !!! i)%R)
    /\ exists i, i < length dt /\ md = dt !!! i)); [lia| |].
  - split; [intros i Hi; lia|]. exists 0. split; [lia|done].
  - intros n md Hn [Hle (j & Hj & ->)].
    destruct (exact_std_min_le (dt !!! j) (dt !!! n)) as [H1 H2].
    split.
    + intros i Hi. destruct (decide (i = n)) as [->|Hne]; [done|].
      specialize (Hle i ltac:(lia)). lra.
    + destruct (exact_std_min_cases (dt !!! j) (dt !!! n)) as [->| ->];
        [exists j|exists n]; (split; [lia|done]).
Qed.

Lemma min_dt_least_exact_witness :
  (forall i, i < 3 ->
     (min_dt [5; 1; 3] !!! 2%nat <= [5; 1; 3] !!! i)%R)
  /\ exists i, i < 3 /\ min_dt [5; 1; 3]%R !!! 2 = [5; 1; 3]%R !!! i.
Proof. apply (min_dt_least_exact [5; 1; 3]%R 2). simpl. lia. Defined.

Lemma SFltb_irrefl (x : spec_float) : SFltb x x = false.
Proof.
  unfold SFltb, SFcompare. destruct x as [[]|[]| |[] m e]; try done;
    rewrite Z.compare_refl; simpl;
    change (Pos.compare_cont Eq m m) with (Pos.compare m m);
    by rewrite Pos.compare_refl.
Qed.

Lemma SFltb_nan_r (x y : spec_float) :
  B64.is_nan y = true -> SFltb x y = false.
Proof. destruct y; try done. intros _. by destruct x as [[]|[]| |[] ? ?]. Qed.

Lemma SFltb_defined (x y : spec_float) :
  SFltb x y = true -> B64.is_nan x = false /\ B64.is_nan y = false.
Proof.
  unfold SFltb, SFcompare.
  destruct x as [[]|[]| |[] ? ?], y as [[]|[]| |[] ? ?]; try discriminate; done.
Qed.

(** On doubles, when [dt[0]] is not NaN, [min_dt] leaves an entry of [dt]
    that is not NaN and that no entry of [dt] is below: entries that are NaN
    are passed over. *)
Theorem min_dt_least_on_doubles (dt : list spec_float) (p : nat) :
  p < length dt -> B64.is_nan (dt !!! 0) = false ->
  B64.is_nan (min_dt dt !!! p) = false
  /\ (exists i, i < length dt /\ min_dt dt !!! p = dt !!! i)
  /\ forall i, i < length dt -> (dt !!! i <? min_dt dt !!! p)%D = false.
Proof.
  intros Hp H0. rewrite min_dt_replicate, lookup_total_replicate_2 by done.
  unfold dt_fold.
  apply (for_loop_inv (fun n md =>
    B64.is_nan md = false
    /\ (exists i, i < length dt /\ md = dt !!! i)
    /\ forall i, i < n -> SFltb (dt !!! i) md = false)); [lia| |].
  - split; [done|]. split; [exists 0; split; [lia|done]|]. intros i Hi. lia.
  - intros n md Hn (Hnan & (j & Hj & Hmd) & Hle).
    unfold std_min. simpl dlt.
    destruct (SFltb (dt !!! n) md) eqn:Hcmp.
    + destruct (SFltb_defined _ _ Hcmp) as [Hy _].
      split; [done|]. split; [exists n; split; [lia|done]|].
      intros i Hi. destruct (decide (i = n)) as [->|Hne];
        [apply SFltb_irrefl|].
      destruct (SFltb (dt !!! i) (dt !!! n)) eqn:Hin; [|done].
      rewrite <- (Hle i ltac:(lia)). symmetry.
      by apply (B64Order.ltb_trans _ (dt !!! n)).
    + split; [done|]. split; [by exists j|].
      intros i Hi. destruct (decide (i = n)) as [->|Hne]; [done|].
      apply Hle. lia.
Qed.

Lemma min_dt_least_on_doubles_witness :
  B64.is_nan (min_dt [lit 5; S754_nan; lit 3] !!! 1) = false
  /\ (exists i, i < 3 /\ min_dt [lit 5; S754_nan; lit 3] !!! 1
                        = [lit 5; S754_nan; lit 3] !!! i)
  /\ forall i, i < 3 ->
       ([lit 5; S754_nan; lit 3] !!! i
        <? min_dt [lit 5; S754_nan; lit 3] !!! 1)%D = false.
Proof.
  apply (min_dt_least_on_doubles [lit 5; S754_nan; lit 3] 1).
  - simpl. lia.
  - reflexivity.
Defined.

(** On doubles, a NaN in [dt[0]] is what [min_dt] leaves in every entry,
    whatever the other entries are. *)
Theorem min_dt_keeps_leading_nan (dt : list spec_float) (p : nat) :
  p < length dt -> B64.is_nan (dt !!! 0) = true ->
  min_dt dt !!! p = S754_nan.
Proof.
  intros Hp H0. rewrite min_dt_replicate, lookup_total_replicate_2 by done.
  unfold dt_fold.
  apply (for_loop_preserves (fun md => md = S754_nan)).
  - by destruct (dt !!! 0).
  - intros i md _ ->. unfold std_min. simpl dlt.
    by rewrite SFltb_nan_r.
Qed.

Lemma min_dt_keeps_leading_nan_witness :
  min_dt [S754_nan; lit 1; lit 3] !!! 2 = S754_nan.
Proof.
  apply (min_dt_keeps_leading_nan [S754_nan; lit 1; lit 3] 2).
  - simpl. lia.
  - reflexivity.
Defined.


Lemma calc_time_derivatives_resets_qt_witness :
  calc_time_derivatives 1 Strip.upwind [lit 7; lit 8; lit 9] Strip.q0
    (w_gx Strip.w0) (w_gy Strip.w0) (w_limiters Strip.w0) Strip.m
  = calc_time_derivatives 1 Strip.upwind (w_qt Strip.w0) Strip.q0
      (w_gx Strip.w0) (w_gy Strip.w0) (w_limiters Strip.w0) Strip.m.
Proof.
  apply (calc_time_derivatives_resets_qt 1 Strip.upwind [lit 7; lit 8; lit 9]
           (w_qt Strip.w0)).
  reflexivity.
Defined.

Lemma calc_gradients_resets_buffers_witness :
  calc_gradients 1 [lit 7; lit 8; lit 9] [lit 1; lit 2; lit 3] Strip.q0
    Strip.m
  = calc_gradients 1 (replicate 3 zero) (replicate 3 zero) Strip.q0 Strip.m.
Proof.
  apply (calc_gradients_resets_buffers 1 [lit 7; lit 8; lit 9]
           [lit 1; lit 2; lit 3] (replicate 3 zero) (replicate 3 zero));
    reflexivity.
Defined.

Lemma calc_limiters_resets_buffers_witness :
  calc_limiters 1 michalak [lit 7; lit 8] [lit 1; lit 2] [lit 3; lit 4]
    Halo.q0 [lit 1; lit 1] [lit 0; lit 0] Halo.m
  = calc_limiters 1 michalak (replicate 2 zero) (replicate 2 zero)
      (replicate 2 zero) Halo.q0 [lit 1; lit 1] [lit 0; lit 0] Halo.m.
Proof.
  apply (calc_limiters_resets_buffers 1 michalak [lit 7; lit 8]
           [lit 1; lit 2] [lit 3; lit 4]); reflexivity.
Defined.

(** ** What [validate_dt] does on each rank *)

Section ValidateDt.
Context {D : Type} `{Arith D}.
Variable indeterminate : D.

(** Lines 414-425: the root receives one value from every other rank into
    the same variable [dti]. *)
Definition receive_dti (n : nat) : Comm D D :=
  for_loopM 1 n (fun i dti => msg <- mpi_recv i 1 ;; ret (hd dti msg))
    indeterminate.

Lemma receive_dti_calls n (inbox : nat -> nat -> list D) :
  snd (receive_dti n (start inbox))
  = {| incoming := inbox;
       calls := map (fun i => MPI_Recv i 1) (seq 1 (n - 1)) |}.
Proof.
  unfold receive_dti.
  destruct (decide (1 <= n)) as [Hn|Hn];
    [|rewrite for_loopM_empty by lia; replace (n - 1) with 0 by lia; done].
  apply (for_loopM_inv (fun i (s : D) w =>
    w = {| incoming := inbox;
           calls := map (fun i => MPI_Recv i 1) (seq 1 (i - 1)) |}));
    [done|done|].
  intros i s w Hi ->.
  rewrite !bind_eq. unfold mpi_recv. cbn [fst snd].
  rewrite !ret_eq. cbn [fst snd incoming calls].
  replace (Datatypes.S i - 1) with i by lia.
  rewrite (seq_snoc_from_1 i) by lia. by rewrite !map_app.
Qed.

Lemma receive_dti_last n (inbox : nat -> nat -> list D) x rest :
  2 <= n -> inbox (n - 1) 0 = x :: rest ->
  fst (receive_dti n (start inbox)) = x.
Proof.
  intros Hn Hmsg. unfold receive_dti.
  replace n with (Datatypes.S (n - 1)) at 1 by lia.
  rewrite for_loopM_step by lia. rewrite bind_eq.
  fold (receive_dti (n - 1)). rewrite receive_dti_calls.
  rewrite bind_eq. unfold mpi_recv. cbn [fst snd incoming calls].
  rewrite ret_eq. cbn [fst].
  rewrite received_from_recvs_other; [by rewrite Hmsg|].
  rewrite elem_of_seq. lia.
Qed.

(** On rank 0 of [n >= 2] ranks, [validate_dt] receives one value from each
    of the ranks [1 .. n-1], in this order, and changes [dt[0]] alone: to
    the smaller of [dt[0]] and the value [x] that rank [n-1] sent.  What the
    ranks before [n-1] sent has no effect.  It then sends the new [dt[0]] to
    every other rank. *)
Theorem validate_dt_on_root (dt : list D) (n : nat)
    (inbox : nat -> nat -> list D) (x : D) (rest : list D) :
  2 <= n -> inbox (n - 1) 0 = x :: rest ->
  let dt' := <[0 := std_min (dt !!! 0) x]> dt in
  validate_dt indeterminate dt {| rank := 0; size := n |} (start inbox)
  = (dt',
     {| incoming := inbox;
        calls := map (fun i => MPI_Recv i 1) (seq 1 (n - 1))
                 ++ map (fun i => MPI_Send i (take 1 dt')) (seq 1 (n - 1)) |}).
Proof.
  intros Hn Hmsg dt'. unfold validate_dt. cbn [rank size].
  destruct (decide (0 = 0)) as [_|?]; [|done].
  fold (receive_dti n).
  assert (bind (receive_dti n)
            (fun dti => ret (<[0 := std_min (dt !!! 0) dti]> dt)) (start inbox)
          = (dt', {| incoming := inbox;
                     calls := map (fun i => MPI_Recv i 1) (seq 1 (n - 1)) |}))
    as Hfirst.
  { rewrite bind_eq, ret_eq.
    by rewrite (receive_dti_last n inbox x rest Hn Hmsg), receive_dti_calls. }
  unfold bind at 1. rewrite Hfirst.
  rewrite bind_eq, broadcast_spec. cbn [incoming calls].
  by destruct (for_loopM _ _ _ _ _) as [[] ?].
Qed.

(** Lines 451-454: the loop that copies [dt[0]] to the other entries. *)
Lemma dispatch_replicate (v : list D) :
  for_loop 1 (length v) (fun i dt => <[i := dt !!! 0]> dt) v
  = replicate (length v) (v !!! 0).
Proof.
  destruct (decide (1 <= length v)) as [Hv|Hv].
  2:{ rewrite for_loop_empty by lia. destruct v; [done|simpl in Hv; lia]. }
  assert (length (for_loop 1 (length v) (fun i dt => <[i := dt !!! 0]> dt) v)
          = length v
          /\ forall p,
               (p < length v ->
                for_loop 1 (length v) (fun i dt => <[i := dt !!! 0]> dt) v
                  !!! p = v !!! 0)
               /\ (length v <= p ->
                   for_loop 1 (length v) (fun i dt => <[i := dt !!! 0]> dt) v
                     !!! p = v !!! p)) as [Hlen Hall].
  { apply (for_loop_inv (fun i acc =>
      length acc = length v
      /\ forall p, (p < i -> acc !!! p = v !!! 0)
                   /\ (i <= p -> acc !!! p = v !!! p))
      1 (length v));
      [done| |].
    - split; [done|]. intros p. split; [|done].
      intros Hp. by assert (p = 0) as -> by lia.
    - intros i acc Hi [Hl Hacc]. split; [by rewrite length_insert|].
      intros p. rewrite list_lookup_total_insert.
      destruct (Hacc 0) as [H0 _]. rewrite H0 by lia.
      destruct (Hacc p) as [H1 H2].
      case_decide as Hd; [destruct Hd as [-> _]; split; [done|lia]|].
      split; intros Hp; [apply H1|apply H2]; lia. }
  apply list_eq_total; [by rewrite length_replicate|].
  intros p. destruct (Hall p) as [H1 H2].
  destruct (decide (p < length v)) as [Hp|Hp].
  - rewrite lookup_total_replicate_2 by done. by apply H1.
  - rewrite !lookup_total_oob; [done|rewrite length_replicate; lia|lia].
Qed.

(** On a rank other than 0, [validate_dt] sends [dt[0]] to rank 0, receives
    one value [x] from rank 0 and leaves [x] in every entry of [dt]. *)
Theorem validate_dt_on_other_rank (dt : list D) (r n : nat)
    (inbox : nat -> nat -> list D) (x : D) (rest : list D) :
  r <> 0 -> 0 < length dt -> inbox 0 0 = x :: rest ->
  validate_dt indeterminate dt {| rank := r; size := n |} (start inbox)
  = (replicate (length dt) x,
     {| incoming := inbox;
        calls := [MPI_Send 0 (take 1 dt); MPI_Recv 0 1] |}).
Proof.
  intros Hr Hlen Hmsg. unfold validate_dt. cbn [rank size].
  destruct (decide (r = 0)) as [?|_]; [done|].
  unfold bind, issue, mpi_recv, ret, start. cbn [incoming calls app].
  assert (received_from 0 [MPI_Send 0 (take 1 dt) : mpi_call D] = 0) as ->
    by apply (received_from_sends 0 (fun _ => take 1 dt) [0]).
  rewrite Hmsg. f_equal.
  destruct dt as [|d0 dt]; [simpl in Hlen; lia|].
  assert (recv_into (d0 :: dt) 1 (x :: rest) = x :: dt) as ->.
  { unfold recv_into.
    replace (Nat.min (length (x :: rest)) 1) with 1 by (simpl; lia). done. }
  by rewrite dispatch_replicate.
Qed.
End ValidateDt.

Lemma validate_dt_on_root_witness :
  validate_dt (D := spec_float) zero [lit 5; lit 5] {| rank := 0; size := 3 |}
    (start (fun s _ => if decide (s = 1) then [lit 1] else [lit 3]))
  = ([std_min (lit 5) (lit 3); lit 5],
     {| incoming := fun s _ => if decide (s = 1) then [lit 1] else [lit 3];
        calls := [MPI_Recv 1 1; MPI_Recv 2 1;
                  MPI_Send 1 [std_min (lit 5) (lit 3)];
                  MPI_Send 2 [std_min (lit 5) (lit 3)]] |}).
Proof.
  apply (validate_dt_on_root (D := spec_float) zero [lit 5; lit 5] 3
           (fun s _ => if decide (s = 1) then [lit 1] else [lit 3])
           (lit 3) []).
  - lia.
  - reflexivity.
Defined.

Lemma validate_dt_on_other_rank_witness :
  validate_dt (D := spec_float) zero [lit 5; lit 5] {| rank := 1; size := 3 |}
    (start (fun _ _ => [lit 3]))
  = ([lit 3; lit 3],
     {| incoming := fun _ _ => [lit 3];
        calls := [MPI_Send 0 [lit 5]; MPI_Recv 0 1] |}).
Proof.
  apply (validate_dt_on_other_rank (D := spec_float) zero [lit 5; lit 5] 1 3
           (fun _ _ => [lit 3]) (lit 3) []).
  - lia.
  - simpl. lia.
  - reflexivity.
Defined.

(** ** The buffers of the halo exchange *)

(** A loop over a vector that counts its iterations is a loop over the
    positions of the vector. *)
Lemma fold_left_counter {S : Type} (f : nat -> nat -> S -> S) (l : list nat)
    (s : S) :
  fold_left (fun '(s, iter) i => (f iter i s, Datatypes.S iter)) l (s, 0)
  = (for_loop 0 (length l) (fun t s => f t (l !!! t) s) s, length l).
Proof.
  induction l as [|a l IH] using rev_ind; [done|].
  rewrite fold_left_app, IH. cbn [fold_left].
  rewrite length_app. cbn [length]. rewrite Nat.add_1_r.
  rewrite for_loop_step by lia. f_equal.
  rewrite lookup_total_app_r by lia. rewrite Nat.sub_diag. cbn.
  f_equal. apply for_loop_ext. intros t acc Ht.
  by rewrite lookup_total_app_l by lia.
Qed.

Section Blocks.
Context {A : Type} `{!Inhabited A}.
Variables (vars n L : nat) (cell : nat -> nat) (val : nat -> nat -> A).
Hypothesis fits : (N.of_nat (vars * n) <= uint_max)%N.
Hypothesis cells : forall t, t < L -> cell t < n.

Definition blocks (v : list A) : list A :=
  for_loop 0 L (fun t v =>
    for_loop 0 vars (fun j v => <[idx vars (cell t) j := val t j]> v) v) v.

Lemma blocks_length (v : list A) : length (blocks v) = length v.
Proof.
  unfold blocks. apply (for_loop_preserves (fun acc => length acc = length v));
    [done|].
  intros t acc _ <-. apply stores_length.
Qed.

Lemma blocks_other (v : list A) p :
  (forall t, t < L -> ~ (vars * cell t <= p < vars * cell t + vars)) ->
  blocks v !!! p = v !!! p.
Proof.
  intros Hp. unfold blocks. apply for_loop_lookup_other.
  intros t acc Ht. apply (stores_other (idx vars (cell t))).
  intros j Hj Heq.
  destruct (idx_lt vars n (cell t) j) as [Hidx _]; [done|apply cells; lia|lia|].
  apply (Hp t); lia.
Qed.

Lemma blocks_lookup (v : list A) s j :
  length v = vars * n ->
  (forall t, t < L -> cell t = cell s -> t = s) ->
  s < L -> j < vars ->
  blocks v !!! (vars * cell s + j) = val s j.
Proof.
  intros Hlen Hinj Hs Hj.
  destruct (idx_lt vars n (cell s) j) as [Hidx Hlt];
    [done|apply cells; lia|done|].
  unfold blocks.
  match goal with |- for_loop _ _ ?b _ !!! _ = _ => set (body := b) end.
  cut (length (for_loop 0 L body v) = length v /\
       (s < L -> for_loop 0 L body v !!! (vars * cell s + j) = val s j)).
  { intros [_ Hz]. by apply Hz. }
  apply (for_loop_inv (fun i acc =>
    length acc = length v /\ (s < i -> acc !!! (vars * cell s + j) = val s j)));
    [lia|split; [done|lia]|].
  subst body. cbv beta.
  intros i acc Hi [Hl Hz]. split; [by rewrite stores_length|].
  intros Hsi. destruct (decide (s = i)) as [<-|Hne].
  - rewrite <- Hidx.
    apply (stores_map (idx vars (cell s)) (fun k _ => val s k)); [|done|].
    + intros k1 k2 Hk1 Hk2 Heq.
      by destruct (idx_inj vars n (cell s) k1 (cell s) k2) as [_ ?];
        [done|apply cells; lia|done|apply cells; lia|done|done|].
    + rewrite Hidx. lia.
  - rewrite (stores_other (idx vars (cell i))); [apply Hz; lia|].
    intros k' Hk'. rewrite <- Hidx. intros Heq.
    destruct (idx_inj vars n (cell i) k' (cell s) j) as [Hc _];
      [done|apply cells; lia|lia|apply cells; lia|done|done|].
    apply Hne. symmetry. apply Hinj; [lia|done].
Qed.
End Blocks.

Section PackUnpack.
Context {D : Type} `{Arith D}.
Variable vars : nat.

Lemma pack_blocks (q : list D) (c : comm D) :
  snd_q (pack vars q c)
  = blocks vars (length (snd_indices c)) (fun t => t)
      (fun t j => q !!! idx vars (snd_indices c !!! t) j) (snd_q c).
Proof.
  unfold pack, blocks. cbn [snd_q].
  by rewrite (fold_left_counter (fun iter i buf =>
    for_loop 0 vars (fun j buf =>
      <[idx vars iter j := q !!! idx vars i j]> buf) buf)).
Qed.

Lemma unpack_blocks (q : list D) (c : comm D) :
  unpack vars q c
  = blocks vars (length (rec_indices c)) (fun t => rec_indices c !!! t)
      (fun t j => rec_q c !!! idx vars t j) q.
Proof.
  unfold unpack, blocks.
  by rewrite (fold_left_counter (fun iter i q =>
    for_loop 0 vars (fun j q =>
      <[idx vars i j := rec_q c !!! idx vars iter j]> q) q)).
Qed.

(** What [pack] leaves in the send buffer: the states of the cells
    [snd_indices], in this order. *)
Lemma pack_lookup (q : list D) (c : comm D) n s j :
  (N.of_nat (vars * n) <= uint_max)%N ->
  (N.of_nat (vars * length (snd_indices c)) <= uint_max)%N ->
  length (snd_q c) = vars * length (snd_indices c) ->
  (forall t, t < length (snd_indices c) -> snd_indices c !!! t < n) ->
  s < length (snd_indices c) -> j < vars ->
  snd_q (pack vars q c) !!! (vars * s + j)
  = q !!! (vars * (snd_indices c !!! s) + j).
Proof.
  intros Hfit Hfitc Hlen Hcells Hs Hj. rewrite pack_blocks.
  rewrite (blocks_lookup vars (length (snd_indices c)) _ (fun t => t));
    [|done|done|done|done|done|done].
  by destruct (idx_lt vars n (snd_indices c !!! s) j) as [-> _];
    [done|apply Hcells|done|].
Qed.

Lemma pack_length (q : list D) (c : comm D) :
  length (snd_q (pack vars q c)) = length (snd_q c).
Proof. rewrite pack_blocks. apply blocks_length. Qed.

Lemma NoDup_lookup_total_inj (l : list nat) t1 t2 :
  NoDup l -> t1 < length l -> t2 < length l ->
  l !!! t1 = l !!! t2 -> t1 = t2.
Proof.
  intros Hnd H1 H2 Heq.
  apply (NoDup_lookup l t1 t2 (l !!! t1)); [done| |].
  - by apply list_lookup_lookup_total_lt.
  - rewrite Heq. by apply list_lookup_lookup_total_lt.
Qed.

(** What [unpack] leaves in the field: the values of the receive buffer in
    the cells [rec_indices]; every other entry is left as it is. *)
Lemma unpack_lookup (q : list D) (c : comm D) n s j :
  (N.of_nat (vars * n) <= uint_max)%N ->
  (N.of_nat (vars * length (rec_indices c)) <= uint_max)%N ->
  length q = vars * n ->
  (forall t, t < length (rec_indices c) -> rec_indices c !!! t < n) ->
  (forall t, t < length (rec_indices c) ->
     rec_indices c !!! t = rec_indices c !!! s -> t = s) ->
  s < length (rec_indices c) -> j < vars ->
  unpack vars q c !!! (vars * (rec_indices c !!! s) + j)
  = rec_q c !!! (vars * s + j).
Proof.
  intros Hfit Hfitc Hlen Hcells Hnd Hs Hj. rewrite unpack_blocks.
  rewrite (blocks_lookup vars n _ (fun t => rec_indices c !!! t));
    [|done|done|done|done|done|done].
  by destruct (idx_lt vars (length (rec_indices c)) s j) as [-> _].
Qed.

Lemma unpack_other (q : list D) (c : comm D) n p :
  (N.of_nat (vars * n) <= uint_max)%N ->
  (forall t, t < length (rec_indices c) -> rec_indices c !!! t < n) ->
  (forall t, t < length (rec_indices c) ->
     ~ (vars * (rec_indices c !!! t) <= p
        < vars * (rec_indices c !!! t) + vars)) ->
  unpack vars q c !!! p = q !!! p.
Proof.
  intros Hfit Hcells Hp. rewrite unpack_blocks.
  by apply (blocks_other vars n).
Qed.

Lemma unpack_length (q : list D) (c : comm D) :
  length (unpack vars q c) = length q.
Proof. rewrite unpack_blocks. apply blocks_length. Qed.

(** The halo exchange carries cell states: when the buffer that [pack]
    fills on one rank is the message that the peer receives into the
    buffer of its channel, [unpack] leaves in the [s]-th cell of
    [rec_indices] the state that the [s]-th cell of [snd_indices] has on
    the sender. *)
Theorem pack_unpack_round_trip (q1 q2 : list D) (c1 c2 : comm D)
    (n1 n2 s j : nat) :
  (N.of_nat (vars * n1) <= uint_max)%N ->
  (N.of_nat (vars * n2) <= uint_max)%N ->
  (N.of_nat (vars * length (snd_indices c1)) <= uint_max)%N ->
  length q2 = vars * n2 ->
  length (snd_q c1) = vars * length (snd_indices c1) ->
  length (rec_q c2) = vars * length (snd_indices c1) ->
  length (rec_indices c2) = length (snd_indices c1) ->
  (forall t, t < length (snd_indices c1) -> snd_indices c1 !!! t < n1) ->
  (forall t, t < length (rec_indices c2) -> rec_indices c2 !!! t < n2) ->
  NoDup (rec_indices c2) ->
  s < length (snd_indices c1) -> j < vars ->
  unpack vars q2
    {| out_rank := out_rank c2; snd_indices := snd_indices c2;
       rec_indices := rec_indices c2; snd_q := snd_q c2;
       rec_q := recv_into (rec_q c2) (length (rec_q c2))
                  (snd_q (pack vars q1 c1)) |}
    !!! (vars * (rec_indices c2 !!! s) + j)
  = q1 !!! (vars * (snd_indices c1 !!! s) + j).
Proof.
  intros Hfit1 Hfit2 Hfitc Hq2 Hsnd Hrec Hlen Hc1 Hc2 Hnd Hs Hj.
  rewrite recv_into_full by (by rewrite ?pack_length, ?Hsnd).
  match goal with |- unpack vars q2 ?c !!! _ = _ => set (c2' := c) end.
  change (rec_indices c2) with (rec_indices c2').
  rewrite (unpack_lookup q2 c2' n2 s j); subst c2'; cbn [rec_indices rec_q];
    [|done|by rewrite Hlen|done|done| |lia|done].
  2:{ intros t Ht. apply NoDup_lookup_total_inj; [done|done|lia]. }
  by apply (pack_lookup q1 c1 n1).
Qed.
End PackUnpack.


Lemma pack_unpack_round_trip_witness :
  unpack 1 [lit 0; lit 0]
    {| out_rank := 0; snd_indices := [1]; rec_indices := [1];
       snd_q := [zero];
       rec_q := recv_into [zero] 1
                  (snd_q (pack 1 Halo.q0
                            {| out_rank := 1; snd_indices := [0];
                               rec_indices := [1]; snd_q := [zero];
                               rec_q := [zero] |})) |}
    !!! (1 * 1 + 0)
  = Halo.q0 !!! (1 * 0 + 0).
Proof.
  apply (pack_unpack_round_trip 1 Halo.q0 [lit 0; lit 0]
           {| out_rank := 1; snd_indices := [0]; rec_indices := [1];
              snd_q := [zero]; rec_q := [zero] |}
           {| out_rank := 0; snd_indices := [1]; rec_indices := [1];
              snd_q := [zero]; rec_q := [zero] |} 2 2 0 0).
  - vm_compute. discriminate.
  - vm_compute. discriminate.
  - vm_compute. discriminate.
  - reflexivity.
  - reflexivity.
  - reflexivity.
  - reflexivity.
  - intros t Ht. simpl in Ht. assert (t = 0) as -> by lia. simpl. lia.
  - intros t Ht. simpl in Ht. assert (t = 0) as -> by lia. simpl. lia.
  - apply NoDup_singleton.
  - simpl. lia.
  - lia.
Defined.

(** ** The field after the halo exchange *)

Section HaloField.
Context {D : Type} `{Arith D}.
Variable vars : nat.

(** Lines 288-306 for one channel: the message goes to the receive buffer
    and from there to the field. *)
Definition receive_step (c : comm D) (msg : list D) (q : list D) : list D :=
  unpack vars q
    {| out_rank := out_rank c; snd_indices := snd_indices c;
       rec_indices := rec_indices c; snd_q := snd_q c;
       rec_q := recv_into (rec_q c) (length (rec_q c)) msg |}.

(** The messages that the receives of the channels [l] get, after the
    calls [tr]. *)
Fixpoint halo_messages (inc : nat -> nat -> list D) (tr : list (mpi_call D))
    (l : list (comm D)) : list (list D) :=
  match l with
  | [] => []
  | c :: l =>
      inc (out_rank c) (received_from (out_rank c) tr)
      :: halo_messages inc
           (tr ++ [MPI_Recv (out_rank c) (length (rec_q c))]) l
  end.

Lemma halo_messages_length inc tr l :
  length (halo_messages inc tr l) = length l.
Proof. revert tr. induction l as [|c l IH]; intros tr; simpl; auto. Qed.

(** Lines 288-306: the body of the receive loop. *)
Definition recv_channel (c : comm D) (s : list D * list (comm D))
    : Comm D (list D * list (comm D)) :=
  let '(q, cs) := s in
  msg <- mpi_recv (out_rank c) (length (rec_q c)) ;;
  let c := {| out_rank := out_rank c; snd_indices := snd_indices c;
              rec_indices := rec_indices c; snd_q := snd_q c;
              rec_q := recv_into (rec_q c) (length (rec_q c)) msg |} in
  ret (unpack vars q c, cs ++ [c]).

Lemma recv_loop_field (l : list (comm D))
    (c : Comm D (list D * list (comm D))) (w : net D) q0 cs0 w0 :
  c w = (q0, cs0, w0) ->
  fst (fst (fold_left (fun acc c => bind acc (recv_channel c)) l c w))
  = fold_left (fun q cm => receive_step (fst cm) (snd cm) q)
      (zip l (halo_messages (incoming w0) (calls w0) l)) q0.
Proof.
  revert c q0 cs0 w0.
  induction l as [|a l IH]; intros c q0 cs0 w0 Hc.
  - simpl. by rewrite Hc.
  - cbn [fold_left halo_messages zip zip_with].
    set (msg := incoming w0 (out_rank a)
                  (received_from (out_rank a) (calls w0))).
    rewrite (IH _ (receive_step a msg q0)
               (cs0 ++ [{| out_rank := out_rank a;
                           snd_indices := snd_indices a;
                           rec_indices := rec_indices a; snd_q := snd_q a;
                           rec_q := recv_into (rec_q a) (length (rec_q a))
                                      msg |}])
               {| incoming := incoming w0;
                  calls := calls w0
                    ++ [MPI_Recv (out_rank a) (length (rec_q a))] |});
      [reflexivity|].
    unfold bind at 1. rewrite Hc. reflexivity.
Qed.

Lemma fold_bind_incoming {S A : Type} (step : A -> S -> Comm D S)
    (l : list A) (c : Comm D S) (w : net D) :
  (forall a s w, incoming (snd (step a s w)) = incoming w) ->
  incoming (snd (fold_left (fun acc a => bind acc (step a)) l c w))
  = incoming (snd (c w)).
Proof.
  intros Hstep. revert c.
  induction l as [|a l IH]; intros c; simpl; [done|].
  rewrite IH. unfold bind. destruct (c w) as [s w1]. simpl.
  by rewrite Hstep.
Qed.

Lemma send_loop_incoming (q : list D) (l : list (comm D))
    (c : Comm D (list (comm D) * nat)) (w : net D) :
  incoming (snd (fold_left (fun acc c =>
      '(cs, k) <- acc ;;
      let c := pack vars q c in
      'tt <- issue (MPI_Isend (out_rank c) (snd_q c) k) ;;
      ret (cs ++ [c], S k)) l c w))
  = incoming (snd (c w)).
Proof.
  apply (fold_bind_incoming (fun c '(cs, k) =>
    let c := pack vars q c in
    'tt <- issue (MPI_Isend (out_rank c) (snd_q c) k) ;;
    ret (cs ++ [c], S k))).
  intros a [cs k] w'. reflexivity.
Qed.

Lemma receive_step_pack (q q' : list D) (c : comm D) msg :
  receive_step (pack vars q c) msg q' = receive_step c msg q'.
Proof. reflexivity. Qed.

Lemma halo_messages_pack inc tr (q : list D) (l : list (comm D)) :
  halo_messages inc tr (map (pack vars q) l) = halo_messages inc tr l.
Proof.
  revert tr. induction l as [|c l IH]; intros tr; [done|].
  cbn [map halo_messages]. by rewrite IH.
Qed.

Lemma fold_receive_pack (q : list D) (l : list (comm D)) msgs q0 :
  fold_left (fun q cm => receive_step (fst cm) (snd cm) q)
    (zip (map (pack vars q) l) msgs) q0
  = fold_left (fun q cm => receive_step (fst cm) (snd cm) q) (zip l msgs) q0.
Proof.
  revert msgs q0. induction l as [|c l IH]; intros msgs q0; [done|].
  destruct msgs as [|msg msgs]; [done|].
  cbn [map zip zip_with fold_left fst snd]. apply IH.
Qed.

(** The field that [update_comms] returns: the messages of the channels
    unpacked one after the other, in the order of the channels. *)
Lemma update_comms_field (q : list D) (m : mesh D) (w : net D) :
  fst (fst (update_comms vars q m w))
  = fold_left (fun q cm => receive_step (fst cm) (snd cm) q)
      (zip (comms m)
         (halo_messages (incoming w) (calls w ++ isends vars q 0 (comms m))
            (comms m))) q.
Proof.
  unfold update_comms.
  rewrite bind_eq.
  edestruct (send_loop vars q (comms m) (ret ([], 0)) w) as [Hcs Htr];
    [reflexivity|].
  pose proof (send_loop_incoming q (comms m) (ret ([], 0)) w) as Hinc.
  cbv zeta in Hcs, Htr.
  match goal with |- context [fold_left ?f (comms m) (ret ([], 0)) w] =>
    set (r := fold_left f (comms m) (ret ([], 0)) w) in *
  end.
  destruct r as [[cs k] w1]. simpl in Hcs, Htr, Hinc. subst cs.
  cbn [fst snd].
  rewrite bind_eq.
  match goal with |- context [fold_left ?f ?l (ret (q, [])) w1] =>
    pose proof (recv_loop_field l (ret (q, [])) w1 q [] w1 eq_refl) as Hrecv;
    change (fold_left f l (ret (q, [])) w1)
      with (fold_left (fun acc c => bind acc (recv_channel c)) l
              (ret (q, [])) w1)
  end.
  destruct (fold_left _ _ (ret (q, [])) w1) as [[q1 cs1] w2].
  cbn [fst snd] in *. rewrite bind_eq.
  destruct (for_loopM _ _ _ _ _) as [[] w3]. unfold ret. cbn [fst snd].
  rewrite Hrecv, Hinc, Htr, halo_messages_pack.
  apply fold_receive_pack.
Qed.

Lemma receive_step_length (c : comm D) msg (q : list D) :
  length (receive_step c msg q) = length q.
Proof. apply unpack_length. Qed.

Lemma fold_receive_length (l : list (comm D * list D)) (q : list D) :
  length (fold_left (fun q cm => receive_step (fst cm) (snd cm) q) l q)
  = length q.
Proof.
  revert q. induction l as [|cm l IH]; intros q; [done|].
  cbn [fold_left]. by rewrite IH, receive_step_length.
Qed.

Lemma fold_receive_other (l : list (comm D * list D)) (q : list D) n p :
  (N.of_nat (vars * n) <= uint_max)%N ->
  (forall cm, cm ∈ l -> forall t, t < length (rec_indices (fst cm)) ->
     rec_indices (fst cm) !!! t < n
     /\ ~ (vars * (rec_indices (fst cm) !!! t) <= p
           < vars * (rec_indices (fst cm) !!! t) + vars)) ->
  fold_left (fun q cm => receive_step (fst cm) (snd cm) q) l q !!! p = q !!! p.
Proof.
  intros Hfit. revert q. induction l as [|cm l IH]; intros q Hl; [done|].
  cbn [fold_left]. rewrite IH.
  - apply (unpack_other vars _ _ n); [done|..]; cbn [rec_indices];
      intros t Ht; apply (Hl cm); (done || apply list_elem_of_here).
  - intros cm' Hin. apply Hl. by apply list_elem_of_further.
Qed.

(** [update_comms] keeps the size of the field and writes to the cells
    [rec_indices] of the channels alone: every other entry is left as it
    is, whatever the messages are. *)
Theorem update_comms_writes_halo_cells_only (q : list D) (m : mesh D)
    (w : net D) (n p : nat) :
  (N.of_nat (vars * n) <= uint_max)%N ->
  (forall c t, c ∈ comms m -> t < length (rec_indices c) ->
     rec_indices c !!! t < n) ->
  (forall c t, c ∈ comms m -> t < length (rec_indices c) ->
     ~ (vars * (rec_indices c !!! t) <= p
        < vars * (rec_indices c !!! t) + vars)) ->
  length (fst (fst (update_comms vars q m w))) = length q
  /\ fst (fst (update_comms vars q m w)) !!! p = q !!! p.
Proof.
  intros Hfit Hcells Hp. rewrite update_comms_field.
  split; [apply fold_receive_length|].
  apply (fold_receive_other _ _ n); [done|].
  intros [c msg] Hin t Ht. cbn [fst] in *.
  apply elem_of_zip_l in Hin. split; [by apply Hcells|by apply Hp].
Qed.

Lemma received_from_isends src (q : list D) k0 (l : list (comm D)) :
  received_from src (isends vars q k0 l) = 0.
Proof.
  unfold isends, received_from. revert k0.
  induction l as [|c l IH]; intros k0; [done|]. cbn [length seq zip_with].
  rewrite filter_cons_False by done. apply IH.
Qed.

Lemma halo_messages_distinct inc tr (l : list (comm D)) :
  NoDup (map out_rank l) ->
  halo_messages inc tr l
  = map (fun c => inc (out_rank c) (received_from (out_rank c) tr)) l.
Proof.
  revert tr. induction l as [|c l IH]; intros tr Hnd; [done|].
  apply NoDup_cons in Hnd as [Hc Hnd]. cbn [halo_messages map].
  f_equal. rewrite IH by done. apply map_ext_in. intros c' Hin.
  rewrite received_from_app. f_equal.
  change [MPI_Recv (out_rank c) (length (rec_q c))]
    with (map (fun i => MPI_Recv i (length (rec_q c)) : mpi_call D)
            [out_rank c]).
  rewrite received_from_recvs_other; [lia|].
  intros Heq%list_elem_of_singleton. apply Hc. rewrite <- Heq.
  apply list_elem_of_fmap_2. by apply list_elem_of_In.
Qed.

Lemma fold_receive_lookup (msgf : comm D -> list D) (l : list (comm D))
    (q : list D) n t c s j :
  (N.of_nat (vars * n) <= uint_max)%N ->
  length q = vars * n ->
  (forall c' t', c' ∈ l -> t' < length (rec_indices c') ->
     rec_indices c' !!! t' < n) ->
  l !! t = Some c ->
  (forall t' c' s', l !! t' = Some c' -> s' < length (rec_indices c') ->
     rec_indices c' !!! s' = rec_indices c !!! s -> t' = t /\ s' = s) ->
  (N.of_nat (vars * length (rec_indices c)) <= uint_max)%N ->
  length (msgf c) = length (rec_q c) ->
  s < length (rec_indices c) -> j < vars ->
  fold_left (fun q cm => receive_step (fst cm) (snd cm) q)
    (zip l (map msgf l)) q !!! (vars * (rec_indices c !!! s) + j)
  = msgf c !!! (vars * s + j).
Proof.
  intros Hfit Hq Hcells Ht Hone Hfitc Hmsg Hs Hj.
  revert t q Hq Hcells Ht Hone.
  induction l as [|c0 l IH]; intros t q Hq Hcells Ht Hone; [done|].
  cbn [map zip zip_with fold_left fst snd].
  destruct t as [|t].
  - injection Ht as ->.
    rewrite (fold_receive_other _ _ n); [|done|].
    + unfold receive_step.
      match goal with |- unpack vars q ?c' !!! _ = _ => set (c1 := c') end.
      change (rec_indices c) with (rec_indices c1).
      rewrite (unpack_lookup vars q c1 n s j); subst c1;
        cbn [rec_indices rec_q]; [|done|done|done| | |done|done].
      * by rewrite recv_into_full.
      * intros t' Ht'. apply (Hcells c); [apply list_elem_of_here|done].
      * intros t' Ht' Heq. by destruct (Hone 0 c t') as [_ ?].
    + intros [c' msg] Hin t' Ht'. cbn [fst] in *.
      apply elem_of_zip_l in Hin. split.
      * apply Hcells; [by apply list_elem_of_further|done].
      * apply list_elem_of_lookup in Hin as [i Hi].
        intros Hrange.
        assert (rec_indices c' !!! t' = rec_indices c !!! s) as Heq by nia.
        by destruct (Hone (S i) c' t') as [? _].
  - apply (IH t).
    + by rewrite receive_step_length.
    + intros c' t' Hin. apply Hcells. by apply list_elem_of_further.
    + done.
    + intros t' c' s' Hl Hs' Heq.
      destruct (Hone (S t') c' s') as [? ?]; [done..|]. split; [lia|done].
Qed.

(** On a mesh whose channels go to different ranks, [update_comms] leaves
    in the [s]-th cell of [rec_indices] of a channel the [s]-th state of
    the next message from the rank of that channel, when no other entry of
    [rec_indices] of any channel names that cell and the message fills the
    receive buffer. *)
Theorem update_comms_fills_halo_cells (q : list D) (m : mesh D)
    (w : net D) (n t : nat) (c : comm D) (s j : nat) :
  let msg := incoming w (out_rank c)
               (received_from (out_rank c) (calls w)) in
  (N.of_nat (vars * n) <= uint_max)%N ->
  length q = vars * n ->
  NoDup (map out_rank (comms m)) ->
  (forall c' t', c' ∈ comms m -> t' < length (rec_indices c') ->
     rec_indices c' !!! t' < n) ->
  comms m !! t = Some c ->
  (forall t' c' s', comms m !! t' = Some c' ->
     s' < length (rec_indices c') ->
     rec_indices c' !!! s' = rec_indices c !!! s -> t' = t /\ s' = s) ->
  (N.of_nat (vars * length (rec_indices c)) <= uint_max)%N ->
  length msg = length (rec_q c) ->
  s < length (rec_indices c) -> j < vars ->
  fst (fst (update_comms vars q m w))
    !!! (vars * (rec_indices c !!! s) + j)
  = msg !!! (vars * s + j).
Proof.
  intros msg Hfit Hq Hnd Hcells Ht Hone Hfitc Hmsg Hs Hj. subst msg.
  rewrite update_comms_field.
  rewrite halo_messages_distinct by done.
  rewrite (map_ext _ (fun c => incoming w (out_rank c)
                                 (received_from (out_rank c) (calls w)))).
  2:{ intros c'. by rewrite received_from_app, received_from_isends,
        Nat.add_0_r. }
  by apply (fold_receive_lookup
              (fun c => incoming w (out_rank c)
                          (received_from (out_rank c) (calls w))) _ _ n t).
Qed.
End HaloField.


Lemma update_comms_writes_halo_cells_only_witness :
  length (fst (fst (update_comms 1 Halo.q0 Halo.m
                      (start (fun _ _ => [lit 7])))))
  = length Halo.q0
  /\ fst (fst (update_comms 1 Halo.q0 Halo.m (start (fun _ _ => [lit 7]))))
       !!! 0 = Halo.q0 !!! 0.
Proof.
  apply (update_comms_writes_halo_cells_only 1 Halo.q0 Halo.m
           (start (fun _ _ => [lit 7])) 2 0).
  - vm_compute. discriminate.
  - intros c t Hc Ht. apply list_elem_of_singleton in Hc as ->.
    simpl in Ht. assert (t = 0) as -> by lia. simpl. lia.
  - intros c t Hc Ht. apply list_elem_of_singleton in Hc as ->.
    simpl in Ht. assert (t = 0) as -> by lia. simpl. lia.
Defined.

Lemma update_comms_fills_halo_cells_witness :
  fst (fst (update_comms 1 Halo.q0 Halo.m (start (fun _ _ => [lit 7]))))
    !!! (1 * 1 + 0)
  = [lit 7] !!! (1 * 0 + 0).
Proof.
  apply (update_comms_fills_halo_cells 1 Halo.q0 Halo.m
           (start (fun _ _ => [lit 7])) 2 0
           {| out_rank := 1; snd_indices := [0]; rec_indices := [1];
              snd_q := [zero]; rec_q := [zero] |} 0 0).
  - vm_compute. discriminate.
  - reflexivity.
  - apply NoDup_singleton.
  - intros c t Hc Ht. apply list_elem_of_singleton in Hc as ->.
    simpl in Ht. assert (t = 0) as -> by lia. simpl. lia.
  - reflexivity.
  - intros t c s Hl Hs Heq. destruct t as [|t]; [|discriminate].
    injection Hl as <-. simpl in Hs. lia.
  - vm_compute. discriminate.
  - reflexivity.
  - simpl. lia.
  - lia.
Defined.

(** ** C10: the limiters that the flux kernel is handed *)

Section LimitersHanded.
Context {D : Type} `{Arith D}.
Variable vars : nat.





End LimitersHanded.

Section LimitersInTheStage.
Context {D : Type} `{Arith D}.
Variable P : problem D.
Variable pool : mpi_wrapper.


End LimitersInTheStage.




(** ** The field after [update_bounds] *)

Section BoundsPost.
Context {D : Type} `{Arith D}.
Variable vars : nat.
Variable m : mesh D.

Let ghost (i : nat) : nat := snd (edgesCells m !!! (boundaryEdges m !!! i)).
Let owner (i : nat) : nat := fst (edgesCells m !!! (boundaryEdges m !!! i)).

(** [update_bounds] keeps the size of [q] and writes to the cells
    [edgesCells(e,1)] of the boundary edges alone. *)
Theorem update_bounds_writes_ghost_cells_only (q : list D) (p : nat) :
  (N.of_nat (vars * ncells m) <= uint_max)%N ->
  (forall i, i < length (boundaryEdges m) ->
     snd (edgesCells m !!! (boundaryEdges m !!! i)) < ncells m) ->
  (forall i, i < length (boundaryEdges m) ->
     ~ (vars * snd (edgesCells m !!! (boundaryEdges m !!! i)) <= p
        < vars * snd (edgesCells m !!! (boundaryEdges m !!! i)) + vars)) ->
  length (update_bounds vars q m) = length q
  /\ update_bounds vars q m !!! p = q !!! p.
Proof.
  intros Hfit Hghost Hp. unfold update_bounds. split.
  - apply (for_loop_preserves (fun v => length v = length q)); [done|].
    intros i v _ <-. cbv zeta. case_match; [apply write_cell_length|done].
  - apply for_loop_lookup_other. intros i v Hi. cbv zeta.
    case_match; [|done]. apply write_cell_other.
    rewrite (idx_cell vars (ncells m)) by (done || apply Hghost; lia).
    apply Hp. lia.
Qed.

(** After [update_bounds], the ghost cell of a boundary edge holds what the
    kernel of that edge makes of the ghost state, the owned state and the
    normal that [q] had before the call, when every boundary edge joins an
    owned cell to a ghost cell of its own. *)
Theorem update_bounds_ghost_state (q : list D) (i : nat)
    (K : bound_kernel D) (k : nat) :
  (N.of_nat (vars * ncells m) <= uint_max)%N ->
  length q = vars * ncells m ->
  (forall i, i < length (boundaryEdges m) ->
     fst (edgesCells m !!! (boundaryEdges m !!! i)) < nRealCells m
     /\ nRealCells m <= snd (edgesCells m !!! (boundaryEdges m !!! i))
        < ncells m) ->
  (forall i1 i2, i1 < length (boundaryEdges m) ->
     i2 < length (boundaryEdges m) ->
     snd (edgesCells m !!! (boundaryEdges m !!! i1))
     = snd (edgesCells m !!! (boundaryEdges m !!! i2)) -> i1 = i2) ->
  i < length (boundaryEdges m) -> boundaryFuncs m !! i = Some K ->
  k < vars ->
  let e := boundaryEdges m !!! i in
  update_bounds vars q m !!! (vars * snd (edgesCells m !!! e) + k)
  = K (cell_state vars q (snd (edgesCells m !!! e)))
      (cell_state vars q (fst (edgesCells m !!! e)))
      (edgesNormalsX m !!! e, edgesNormalsY m !!! e) !!! k.
Proof.
  intros Hfit Hq Hpair Hown Hi HK Hk e. subst e.
  fold (ghost i) (owner i) in *. 
  assert (Hidx : forall i', i' < length (boundaryEdges m) ->
            idx vars (ghost i') 0 = vars * ghost i'
            /\ idx vars (owner i') 0 = vars * owner i').
  { intros i' Hi'. destruct (Hpair i' Hi') as [? ?]. unfold ghost, owner.
    split; apply (idx_cell vars (ncells m)); (done || lia). }
  unfold update_bounds.
  match goal with |- for_loop _ _ ?b _ !!! _ = _ => set (body := b) end.
  cut (let v := for_loop 0 (length (boundaryEdges m)) body q in
       length v = length q
       /\ (forall p, p < vars * nRealCells m -> v !!! p = q !!! p)
       /\ (forall i' k', length (boundaryEdges m) <= i' ->
             i' < length (boundaryEdges m) -> k' < vars ->
             v !!! (vars * ghost i' + k') = q !!! (vars * ghost i' + k'))
       /\ (i < length (boundaryEdges m) ->
           v !!! (vars * ghost i + k)
           = K (cell_state vars q (ghost i)) (cell_state vars q (owner i))
               (edgesNormalsX m !!! (boundaryEdges m !!! i),
                edgesNormalsY m !!! (boundaryEdges m !!! i)) !!! k)).
  { intros (_ & _ & _ & Hres). by apply Hres. }
  apply (for_loop_inv (fun n v =>
    length v = length q
    /\ (forall p, p < vars * nRealCells m -> v !!! p = q !!! p)
    /\ (forall i' k', n <= i' -> i' < length (boundaryEdges m) -> k' < vars ->
          v !!! (vars * ghost i' + k') = q !!! (vars * ghost i' + k'))
    /\ (i < n ->
        v !!! (vars * ghost i + k)
        = K (cell_state vars q (ghost i)) (cell_state vars q (owner i))
            (edgesNormalsX m !!! (boundaryEdges m !!! i),
             edgesNormalsY m !!! (boundaryEdges m !!! i)) !!! k)));
    [lia|split; [done|split; [done|split; [done|lia]]]|].
  subst body. cbv beta zeta.
  intros n v Hn (Hl & Howned & Hlater & Hdone).
  fold (ghost n) (owner n).
  destruct (Hpair n ltac:(lia)) as [Hon Hgn]. fold (ghost n) (owner n) in *.
  destruct (Hidx n ltac:(lia)) as [Hig Hio].
  destruct (boundaryFuncs m !! n) as [K'|] eqn:HK'.
  2:{ split; [done|]. split; [done|]. split.
      - intros i' k' ? ? ?. apply Hlater; lia.
      - intros Hin. destruct (decide (i = n)) as [->|Hne]; [discriminate (eq_trans (eq_sym HK) HK')|].
        apply Hdone. lia. }
  split; [by rewrite write_cell_length|]. split; [|split].
  - intros p Hp. rewrite write_cell_other; [by apply Howned|]. nia.
  - intros i' k' Hn' Hi' Hk'. rewrite write_cell_other; [apply Hlater; lia|].
    rewrite Hig. intros Hrange.
    assert (ghost i' = ghost n) as Heq by nia.
    apply Hown in Heq; lia.
  - intros Hin. destruct (decide (i = n)) as [->|Hne].
    + pose proof (eq_trans (eq_sym HK) HK') as HKK. injection HKK as <-.
      rewrite <- Hig. rewrite write_cell_inside; [|done|rewrite Hig, Hl; nia].
      f_equal. f_equal.
      * apply cell_state_ext; [done|]. intros k' Hk'. rewrite Hig.
        apply Hlater; lia.
      * apply cell_state_ext; [done|]. intros k' Hk'. rewrite Hio.
        apply Howned. nia.
    + rewrite write_cell_other; [apply Hdone; lia|].
      rewrite Hig. intros Hrange.
      assert (ghost i = ghost n) as Heq by nia.
      apply Hown in Heq; lia.
Qed.
End BoundsPost.


Lemma update_bounds_writes_ghost_cells_only_witness :
  length (update_bounds 1 Strip.q0 Strip.m) = length Strip.q0
  /\ update_bounds 1 Strip.q0 Strip.m !!! 0 = Strip.q0 !!! 0.
Proof.
  apply (update_bounds_writes_ghost_cells_only 1 Strip.m Strip.q0 0).
  - vm_compute. discriminate.
  - intros i Hi. simpl in Hi. assert (i = 0) as -> by lia. vm_compute. lia.
  - intros i Hi. simpl in Hi. assert (i = 0) as -> by lia. vm_compute. lia.
Defined.

Lemma update_bounds_ghost_state_witness :
  update_bounds 1 Strip.q0 Strip.m !!! (1 * 2 + 0)
  = cell_state 1 Strip.q0 1 !!! 0.
Proof.
  apply (update_bounds_ghost_state 1 Strip.m Strip.q0 0 (fun b q n => q) 0).
  - vm_compute. discriminate.
  - reflexivity.
  - intros i Hi. simpl in Hi. assert (i = 0) as -> by lia. vm_compute. lia.
  - intros i1 i2 H1 H2 _. simpl in H1, H2. lia.
  - simpl. lia.
  - reflexivity.
  - lia.
Defined.

(** ** The driver on one rank *)

Section Serial.
Context {D : Type} `{Arith D}.
Variable P : problem D.
Variable indeterminate : D.
Variable pool : mpi_wrapper.
Variable opt : solverOptions D.
Hypothesis single : size pool <= 1.

Lemma complete_calc_qt_serial (wk : work D) (q : list D) (m : mesh D)
    (nw : net D) :
  snd (complete_calc_qt P pool wk q m nw) = nw
  /\ snd (fst (complete_calc_qt P pool wk q m nw)) = m.
Proof.
  unfold complete_calc_qt.
  destruct (decide (1 < size pool)) as [?|_]; [lia|].
  destruct (do_calc_gradients P), (do_calc_limiters P);
    repeat (case_match; simplify_eq/=); unfold bind, ret in *;
    repeat (case_match; simplify_eq/=); done.
Qed.

Lemma rk_stage_serial (q dt : list D) a s (nw : net D) :
  snd (rk_stage P pool q dt a s nw) = nw
  /\ snd (fst (rk_stage P pool q dt a s nw)) = snd s.
Proof.
  destruct s as [[qk wk] m]. unfold rk_stage.
  destruct (decide (1 < size pool)) as [?|_]; [lia|].
  rewrite bind_eq.
  destruct (complete_calc_qt_serial wk qk m nw) as [Hnw Hm].
  destruct (complete_calc_qt P pool wk qk m nw) as [[w' m'] nw'].
  simpl in *. by subst.
Qed.

Lemma stages_serial (q dt : list D) (l : list D) s (nw : net D) :
  snd (fold_left (fun acc a => s <- acc ;; rk_stage P pool q dt a s) l
         (ret s) nw) = nw
  /\ snd (fst (fold_left (fun acc a => s <- acc ;; rk_stage P pool q dt a s)
                 l (ret s) nw)) = snd s.
Proof.
  induction l as [|a l IH] using rev_ind; [done|].
  rewrite fold_left_app. cbn [fold_left]. rewrite bind_eq.
  destruct IH as [IH1 IH2].
  destruct (fold_left _ l (ret s) nw) as [s' nw']. cbn [fst snd] in *.
  subst nw'. rewrite <- IH2. apply rk_stage_serial.
Qed.

Lemma fold_left_snoc {A B : Type} (f : A -> B -> A) (l : list B) (b : B)
    (a : A) :
  fold_left f (l ++ [b]) a = f (fold_left f l a) b.
Proof. by rewrite fold_left_app. Qed.

Lemma stages_length (q dt : list D) (l : list D) s (nw : net D) :
  length (fst (fst (fst (fold_left
            (fun acc a => s <- acc ;; rk_stage P pool q dt a s) l
            (ret s) nw))))
  = length (fst (fst s)).
Proof.
  apply (fold_bind_inv
           (fun s' : list D * work D * mesh D =>
              length (fst (fst s')) = length (fst (fst s)))
           (fun a s => rk_stage P pool q dt a s)); [done|].
  intros a [[qk wk] m] w' Hl.
  destruct (rk_stage_single P pool q dt a qk wk m w' single)
    as (gx & gy & l' & ->).
  cbn [fst] in *. by rewrite update_cells_length.
Qed.

(** On one rank, a pass through the body of the loop leaves in [q] the
    last Runge-Kutta stage: the state [q] after [update_bounds] plus the
    rate of change of the last stage times the time step times 1.0; the
    four stages before it only serve to compute that rate. *)
Theorem time_step_is_last_stage_update (st st' : driver D) (nw nw' : net D)
    (p : nat) :
  time_step P indeterminate pool opt st nw = (Value st', nw') ->
  p < length (d_q st) -> p < length (d_qk st) ->
  d_q st' !!! p
  = (update_bounds (vars P) (d_q st) (d_mesh st) !!! p
     + w_qt (d_work st') !!! p * d_dt st' !!! p * lit 1)%D.
Proof.
  intros Hts Hp Hpk.
  apply time_step_value in Hts
    as (q' & qk' & wk' & dt' & m' & w1 & R0 & R & Hadv & _ & ->).
  cbn [d_q d_work d_dt].
  revert Hadv. unfold advance. cbv zeta.
  destruct (decide (1 < size pool)) as [?|_]; [lia|].
  set (qb := update_bounds (vars P) (d_q st) (d_mesh st)) in *.
  assert (length qb = length (d_q st)) as Hqb.
  { unfold qb, update_bounds.
    apply (for_loop_preserves (fun v => length v = length (d_q st))); [done|].
    intros i v _ <-. cbv zeta. case_match; [apply write_cell_length|done]. }
  set (dt0 := if global_dt P then min_dt (calc_dt P (d_dt st) qb (d_mesh st))
              else calc_dt P (d_dt st) qb (d_mesh st)).
  assert (forall dt, (if global_dt P then ret (min_dt dt) else ret dt) nw
                     = (if global_dt P then min_dt dt else dt, nw)) as Hdt
    by (intros dt; by destruct (global_dt P)).
  unfold bind at 1. rewrite ret_eq. cbv beta iota.
  unfold bind at 1. rewrite Hdt. cbv beta iota. fold dt0.
  rewrite bind_eq.
  set (qk0 := for_loop 0 (length qb) (fun i qk => <[i := qb !!! i]> qk)
                (d_qk st)).
  change alpha with ([lit 0.05; lit 0.125; lit 0.25; lit 0.5] ++ [lit 1]).
  rewrite fold_left_snoc. rewrite bind_eq.
  pose proof (stages_length qb dt0 [lit 0.05; lit 0.125; lit 0.25; lit 0.5]
                (qk0, d_work st, d_mesh st) nw) as Hlen.
  match type of Hlen with
  | context [fold_left ?f ?l ?c nw] =>
      destruct (fold_left f l c nw) as [[[qk4 w4] m4] nw4]
  end.
  cbn [fst snd] in *.
  destruct (rk_stage_single P pool qb dt0 (lit 1) qk4 w4 m4 nw4 single)
    as (gx & gy & l' & Hlast).
  destruct (rk_stage P pool qb dt0 (lit 1) (qk4, w4, m4) nw4)
    as [[[qk5 w5] m5] nw5].
  cbn [fst snd] in *. injection Hlast as -> -> ->.
  rewrite ret_eq. intros [= <- <- <- <- <- <-].
  cbn [w_qt].
  assert (length qk0 = length (d_qk st)) as Hqk0
    by apply (stores_length (fun i => i) (fun i _ => qb !!! i)).
  rewrite (stores_at (fun i => _ !!! i)) by lia.
  by rewrite update_cells_lookup by lia.
Qed.

Hypothesis root : rank pool = 0.

Lemma calc_residuals_serial (R qt : list D) (m : mesh D) (nw : net D) :
  snd (calc_residuals (vars P) indeterminate R qt m pool nw) = nw.
Proof.
  unfold calc_residuals. cbv zeta.
  destruct (decide (rank pool = 0)) as [_|?]; [|done].
  rewrite for_loopM_empty by lia.
  rewrite bind_eq. rewrite (bind_eq (ret _)). rewrite !ret_eq. cbn [fst snd].
  rewrite bind_eq, for_loopM_empty by lia. reflexivity.
Qed.

Lemma update_residuals_serial (st : driver D) (qt : list D) (m : mesh D)
    (nw : net D) :
  snd (update_residuals P indeterminate pool opt st qt m nw) = nw.
Proof.
  unfold update_residuals.
  repeat case_match; rewrite ?bind_eq, ?ret_eq; cbn [snd];
    by rewrite ?calc_residuals_serial.
Qed.

Lemma advance_serial (st : driver D) (nw : net D) :
  snd (advance P indeterminate pool st nw) = nw
  /\ snd (fst (advance P indeterminate pool st nw)) = d_mesh st.
Proof.
  cut (exists q qk wk dt,
         advance P indeterminate pool st nw = (q, qk, wk, dt, d_mesh st, nw)).
  { intros (q & qk & wk & dt & ->). done. }
  unfold advance. cbv zeta.
  destruct (decide (1 < size pool)) as [?|_]; [lia|].
  set (qb := update_bounds (vars P) (d_q st) (d_mesh st)).
  set (dt0 := if global_dt P then min_dt (calc_dt P (d_dt st) qb (d_mesh st))
              else calc_dt P (d_dt st) qb (d_mesh st)).
  assert (forall dt, (if global_dt P then ret (min_dt dt) else ret dt) nw
                     = (if global_dt P then min_dt dt else dt, nw)) as Hdt
    by (intros dt; by destruct (global_dt P)).
  unfold bind at 1. rewrite ret_eq. cbv beta iota.
  unfold bind at 1. rewrite Hdt. cbv beta iota. fold dt0.
  rewrite bind_eq.
  match goal with
  | |- context [fold_left ?f alpha (ret ?s) nw] =>
      destruct (stages_serial qb dt0 alpha s nw) as [Hnw Hm];
      destruct (fold_left f alpha (ret s) nw) as [[[qk w] m'] nw']
  end.
  cbn [fst snd] in *. subst nw' m'. rewrite ret_eq. by eauto.
Qed.

Lemma time_step_serial (st : driver D) (nw : net D) :
  snd (time_step P indeterminate pool opt st nw) = nw
  /\ forall st', fst (time_step P indeterminate pool opt st nw) = Value st' ->
       d_mesh st' = d_mesh st.
Proof.
  unfold time_step. rewrite bind_eq.
  destruct (advance_serial st nw) as [Hnw Hm].
  destruct (advance P indeterminate pool st nw) as [[[[[q qk] wk] dt] m] w1].
  cbn [fst snd] in *. subst w1 m. rewrite bind_eq.
  pose proof (update_residuals_serial st (w_qt wk) (d_mesh st) nw) as Hres.
  destruct (update_residuals P indeterminate pool opt st (w_qt wk)
              (d_mesh st) nw) as [[[R0 R]|] w2];
    cbn [fst snd] in *; subst w2; rewrite ret_eq; cbn [fst snd];
    (split; [done|]); intros st' [= <-]; done.
Qed.

(** On one rank the engine never communicates and never touches the mesh:
    every pass through the body of the loop of [run] leaves the history of
    MPI calls and the mesh as they are. *)
Theorem serial_run_makes_no_mpi_call (st : driver D) (nw : net D) (n : nat) :
  snd (iterate P indeterminate pool opt n (st, nw)) = nw
  /\ forall st', fst (iterate P indeterminate pool opt n (st, nw)) = Value st' ->
       d_mesh st' = d_mesh st.
Proof.
  revert st nw. induction n as [|n IH]; intros st nw.
  - cbn [iterate fst snd]. split; [done|]. by intros st' [= <-].
  - cbn [iterate fst snd].
    destruct (time_step_serial st nw) as [Hnw Hm].
    destruct (time_step P indeterminate pool opt st nw) as [[st1|] nw1];
      cbn [fst snd] in *; subst nw1; [|split; [done|]; discriminate].
    rewrite <- (Hm st1 eq_refl). apply IH.
Qed.
End Serial.

Section Stepping.
Context {D : Type} `{Arith D}.
Variable P : problem D.
Variable indeterminate : D.
Variable pool : mpi_wrapper.
Variable opt : solverOptions D.

Lemma time_step_time (st st' : driver D) (w w' : net D) :
  global_dt P = false ->
  time_step P indeterminate pool opt st w = (Value st', w') ->
  d_time st' = d_time st.
Proof.
  intros Hg (q & qk & wk & dt & m & w1 & R0 & R & _ & _ & ->)%time_step_value.
  cbn [d_time]. by rewrite Hg.
Qed.

(** With local time stepping ([global_dt] false) the time of the driver
    never advances, so the bound [max_time] cannot end a run that it did
    not end at once. *)
Theorem local_time_stepping_freezes_time (st st' : driver D) (w w' : net D)
    (n : nat) :
  global_dt P = false ->
  iterate P indeterminate pool opt n (st, w) = (Value st', w') ->
  d_time st' = d_time st.
Proof.
  intros Hg Hit.
  apply (iterate_inv P indeterminate pool opt
           (fun st1 _ => d_time st1 = d_time st) n st st' w w');
    [|done|exact Hit].
  intros st1 w1 st2 w2 <- Hts. by apply (time_step_time st1 st2 w1 w2).
Qed.



(** A remainder by zero kills the run: the pass with [step = 0] does not
    take the remainder of line 576, every later pass does.  So a pass with
    [step != 0] is killed when [print_interval = 0], and with
    [print_interval = 0] a run whose test fails at the top of the first two
    iterations is killed in its second pass. *)
Theorem zero_print_interval_kills_the_run :
  (forall (st : driver D) (w : net D),
     d_step st <> 0%N -> print_interval opt = 0%N ->
     fst (time_step P indeterminate pool opt st w) = Killed)
  /\ forall (q : list D) (m : mesh D) (w : net D) (st1 : driver D)
       (w1 : net D),
       print_interval opt = 0%N ->
       stops P opt (run_init P indeterminate q m) = false ->
       time_step P indeterminate pool opt (run_init P indeterminate q m) w
       = (Value st1, w1) ->
       stops P opt st1 = false ->
       forall fuel, 1 < fuel ->
         fst (run P indeterminate pool opt fuel q m w) = Some Killed.
Proof.
  split; [intros st w Hstep Hpi; by apply time_step_killed|].
  intros q m w st1 w1 Hpi Hstop0 Hts Hstop1 fuel Hfuel.
  destruct fuel as [|[|fuel]]; [lia..|].
  unfold run. cbn [run_loop]. rewrite Hstop0, bind_eq, Hts. cbn [fst snd].
  rewrite Hstop1, bind_eq.
  assert (fst (time_step P indeterminate pool opt st1 w1) = Killed) as Hk.
  { apply time_step_killed. split; [|done].
    rewrite (time_step_step _ _ _ _ _ _ _ _ Hts). cbn [d_step run_init].
    vm_compute. discriminate. }
  destruct (time_step P indeterminate pool opt st1 w1) as [[?|] ?];
    [discriminate|]. reflexivity.
Qed.

(** What a pass that returns has done to the residuals. *)
Lemma residuals_after_pass (st st' : driver D) (w w' : net D) :
  time_step P indeterminate pool opt st w = (Value st', w') ->
  (d_step st = 0%N ->
   forall k, k < vars P -> k < length (d_R st) ->
     d_R st' !!! k = d_R0 st' !!! k)
  /\ (d_step st <> 0%N -> d_R0 st' = d_R0 st)
  /\ (d_step st <> 0%N ->
      (d_step st mod print_interval opt)%N <> 0%N ->
      (tolerance opt >? lit 1.01e-16)%D = false ->
      d_R st' = d_R st).
Proof.
  intros (q & qk & wk & dt & m & w1 & R0 & R & _ & Hres & ->)%time_step_value.
  cbn [d_R d_R0]. unfold update_residuals in Hres. split; [|split].
  - intros Hstep k Hk Hlen. rewrite Hstep in Hres.
    cbn [N.eqb] in Hres. rewrite bind_eq, ret_eq in Hres.
    injection Hres as <- <- _.
    apply (stores_at (fun i => _ !!! i)); lia.
  - intros Hstep.
    apply N.eqb_neq in Hstep. rewrite Hstep in Hres.
    destruct (print_interval opt =? 0)%N; [discriminate|].
    destruct (_ || _) in Hres.
    + rewrite bind_eq, ret_eq in Hres. by injection Hres as <- _ _.
    + rewrite ret_eq in Hres. by injection Hres as <- _ _.
  - intros Hstep Hmod Htol.
    apply N.eqb_neq in Hstep, Hmod. rewrite Hstep, Hmod, Htol in Hres.
    destruct (print_interval opt =? 0)%N; [discriminate|].
    cbn [orb] in Hres. rewrite ret_eq in Hres. by injection Hres as _ <- _.
Qed.

(** The first pass returns, stores the residual norms in [R0] and copies
    them to [R]: at the top of the second pass the convergence test sees
    the norms themselves, not norms relative to the first ones.  Every
    later pass that returns leaves [R0] as it is. *)
Theorem residual_reference_is_set_once (st : driver D) (w : net D) :
  (d_step st = 0%N ->
   exists st' w',
     time_step P indeterminate pool opt st w = (Value st', w')
     /\ forall k, k < vars P -> k < length (d_R st) ->
          d_R st' !!! k = d_R0 st' !!! k)
  /\ (d_step st <> 0%N ->
      forall st' w',
        time_step P indeterminate pool opt st w = (Value st', w') ->
        d_R0 st' = d_R0 st).
Proof.
  split.
  - intros Hstep.
    destruct (time_step_returns P indeterminate pool opt st w)
      as (st' & w' & Hts); [by left|].
    exists st', w'. split; [done|].
    by apply (residuals_after_pass st st' w w' Hts).
  - intros Hstep st' w' Hts.
    by apply (residuals_after_pass st st' w w' Hts).
Qed.

(** With a tolerance that is not above [1.01e-16] and a print interval
    other than 0, a pass whose step number is not a multiple of
    [print_interval] returns and leaves the residuals as they are: between
    two prints the convergence test sees the residuals of the last
    print. *)
Theorem residuals_are_refreshed_at_prints_only (st : driver D) (w : net D) :
  d_step st <> 0%N -> print_interval opt <> 0%N ->
  (d_step st mod print_interval opt)%N <> 0%N ->
  (tolerance opt >? lit 1.01e-16)%D = false ->
  exists st' w',
    time_step P indeterminate pool opt st w = (Value st', w')
    /\ d_R st' = d_R st /\ d_R0 st' = d_R0 st.
Proof.
  intros Hstep Hpi Hmod Htol.
  destruct (time_step_returns P indeterminate pool opt st w)
    as (st' & w' & Hts); [by right|].
  exists st', w'. split; [done|].
  destruct (residuals_after_pass st st' w w' Hts) as (_ & H0 & HR).
  split; [by apply HR|by apply H0].
Qed.
End Stepping.


Lemma time_step_is_last_stage_update_witness :
  exists (st' : driver spec_float) nw',
    time_step Box.P zero Box.pool Box.opt Box.st Box.quiet = (Value st', nw')
    /\ d_q st' !!! 0
       = (update_bounds 1 (d_q Box.st) Box.m !!! 0
          + w_qt (d_work st') !!! 0 * d_dt st' !!! 0 * lit 1)%D.
Proof.
  destruct (time_step (D := spec_float) Box.P zero Box.pool Box.opt Box.st
              Box.quiet) as [[st'|] nw'] eqn:Hts;
    [|vm_compute in Hts; discriminate].
  exists st', nw'. split; [reflexivity|].
  apply (time_step_is_last_stage_update (D := spec_float) Box.P zero Box.pool
           Box.opt ltac:(simpl; lia) Box.st st' Box.quiet nw' 0 Hts).
  - vm_compute. lia.
  - vm_compute. lia.
Defined.

Lemma serial_run_makes_no_mpi_call_witness :
  snd (iterate (D := spec_float) Box.P zero Box.pool Box.opt 3
         (Box.st, Box.quiet)) = Box.quiet
  /\ forall st',
       fst (iterate (D := spec_float) Box.P zero Box.pool Box.opt 3
              (Box.st, Box.quiet)) = Value st' ->
       d_mesh st' = d_mesh (D := spec_float) Box.st.
Proof.
  apply (serial_run_makes_no_mpi_call (D := spec_float) Box.P zero Box.pool
           Box.opt).
  - simpl. lia.
  - reflexivity.
Defined.

Lemma local_time_stepping_freezes_time_witness :
  exists st' w',
    iterate Pseudo.P zero Box.pool Pseudo.opt 3
      (run_init Pseudo.P zero [] Box.m, Box.quiet) = (Value st', w')
    /\ d_time st' = d_time (run_init Pseudo.P zero [] Box.m).
Proof.
  destruct (iterate Pseudo.P zero Box.pool Pseudo.opt 3
              (run_init Pseudo.P zero [] Box.m, Box.quiet))
    as [[st'|] w'] eqn:Hit; [|vm_compute in Hit; discriminate].
  exists st', w'. split; [reflexivity|].
  apply (local_time_stepping_freezes_time Pseudo.P zero Box.pool Pseudo.opt
           (run_init Pseudo.P zero [] Box.m) st' Box.quiet w' 3);
    [reflexivity|exact Hit].
Defined.


Lemma zero_print_interval_kills_the_run_witness :
  fst (run Box.P zero Box.pool Pseudo.silent 2 [] Box.m Box.quiet)
  = Some Killed.
Proof.
  destruct (time_step Box.P zero Box.pool Pseudo.silent
              (run_init Box.P zero [] Box.m) Box.quiet)
    as [[st1|] w1] eqn:Hts; [|vm_compute in Hts; discriminate].
  apply (proj2 (zero_print_interval_kills_the_run Box.P zero Box.pool
                  Pseudo.silent) [] Box.m Box.quiet st1 w1).
  - reflexivity.
  - vm_compute. reflexivity.
  - exact Hts.
  - vm_compute in Hts. injection Hts as <- _. vm_compute. reflexivity.
  - lia.
Defined.

Lemma residual_reference_is_set_once_witness :
  exists (st' : driver spec_float) w',
    time_step Box.P zero Box.pool Box.opt Box.st Box.quiet = (Value st', w')
    /\ forall k, k < vars (D := spec_float) Box.P ->
         k < length (d_R (D := spec_float) Box.st) ->
         d_R st' !!! k = d_R0 st' !!! k.
Proof.
  apply (proj1 (residual_reference_is_set_once (D := spec_float) Box.P zero
                  Box.pool Box.opt Box.st Box.quiet)).
  reflexivity.
Defined.

Lemma residuals_are_refreshed_at_prints_only_witness :
  exists (st1 : driver spec_float) w1,
    time_step Pseudo.P zero Box.pool Pseudo.opt
      (run_init Pseudo.P zero [] Box.m) Box.quiet = (Value st1, w1)
    /\ exists st' w',
         time_step Pseudo.P zero Box.pool Pseudo.opt st1 w1 = (Value st', w')
         /\ d_R st' = d_R st1 /\ d_R0 st' = d_R0 st1.
Proof.
  destruct (time_step Pseudo.P zero Box.pool Pseudo.opt
              (run_init Pseudo.P zero [] Box.m) Box.quiet)
    as [[st1|] w1] eqn:Hts; [|vm_compute in Hts; discriminate].
  exists st1, w1. split; [reflexivity|].
  vm_compute in Hts. injection Hts as <- <-.
  apply (residuals_are_refreshed_at_prints_only (D := spec_float)).
  - vm_compute. discriminate.
  - vm_compute. discriminate.
  - vm_compute. discriminate.
  - vm_compute. reflexivity.
Defined.

(** ** The messages of [calc_residuals] *)

Section Matching.
Context {D : Type} `{Arith D}.

Lemma received_from_recvs_seq src count a len :
  received_from src (map (fun i => MPI_Recv i count : mpi_call D) (seq a len))
  = if decide (a <= src < a + len) then 1 else 0.
Proof.
  revert a. induction len as [|len IH]; intros a.
  - cbn. by rewrite decide_False by lia.
  - cbn [seq map]. unfold received_from in *.
    destruct (decide (a = src)) as [->|Hne].
    + rewrite filter_cons_True by (cbn; by rewrite bool_decide_eq_true_2).
      cbn [length]. rewrite IH.
      rewrite decide_False by lia. by rewrite decide_True by lia.
    + rewrite filter_cons_False
        by (cbn; by rewrite bool_decide_eq_false_2).
      rewrite IH. repeat case_decide; lia.
Qed.

Lemma sent_to_sends_seq dest (x : list D) a len :
  sent_to dest (map (fun i => MPI_Send i x) (seq a len))
  = if decide (a <= dest < a + len) then [x] else [].
Proof.
  case_decide as Hd; [by apply sent_to_sends|].
  revert a Hd. induction len as [|len IH]; intros a Hd; [done|].
  simpl. case_decide; [lia|]. apply IH. lia.
Qed.

Variable vars : nat.
Variable indeterminate : D.
Variable n : nat.
Variables R0 qt : nat -> list D.
Variable m : nat -> mesh D.

(** What rank [s] sends to the root, and what the root sends back. *)
Definition residual_messages (r s k : nat) : list D :=
  if decide (r = 0) then take vars (local_residuals vars (R0 s) (qt s) (m s))
  else take vars
         (fst (calc_residuals vars indeterminate (R0 0) (qt 0) (m 0)
                 {| rank := 0; size := n |}
                 (start (fun s k =>
                    take vars
                      (local_residuals vars (R0 s) (qt s) (m s)))))).

Lemma residual_calls_root :
  calls (snd (run_rank (residuals_prog vars indeterminate n R0 qt m)
                residual_messages 0))
  = map (fun i => MPI_Recv i vars) (seq 1 (n - 1))
    ++ map (fun i => MPI_Send i (residual_messages 1 0 0)) (seq 1 (n - 1)).
Proof.
  unfold run_rank, residuals_prog.
  apply (calc_residuals_root_calls vars indeterminate).
Qed.

Lemma residual_calls_other r :
  r <> 0 ->
  calls (snd (run_rank (residuals_prog vars indeterminate n R0 qt m)
                residual_messages r))
  = [MPI_Send 0 (residual_messages 0 r 0); MPI_Recv 0 vars].
Proof.
  intros Hr. unfold run_rank, residuals_prog.
  by rewrite calc_residuals_other.
Qed.

(** The gather and the broadcast of [calc_residuals] match on every number
    of ranks: there is an execution in which every receive gets the message
    that was sent for it, and in it every rank receives from every other
    rank exactly as many messages as that rank sends to it. *)
Theorem calc_residuals_sends_match_receives :
  exists inbox,
    delivered n (residuals_prog vars indeterminate n R0 qt m) inbox
    /\ forall r s, r < n -> s < n ->
         length (sent_to r (calls (snd (run_rank
                   (residuals_prog vars indeterminate n R0 qt m) inbox s))))
         = received_from s (calls (snd (run_rank
                   (residuals_prog vars indeterminate n R0 qt m) inbox r))).
Proof.
  exists residual_messages.
  assert (Hrecv : forall r s, r < n -> s < n ->
    received_from s (calls (snd (run_rank
        (residuals_prog vars indeterminate n R0 qt m) residual_messages r)))
    = if decide (r = 0) then (if decide (s = 0) then 0 else 1)
      else (if decide (s = 0) then 1 else 0)).
  { intros r s Hr Hs. destruct (decide (r = 0)) as [->|Hr0].
    - rewrite residual_calls_root, received_from_app, received_from_recvs_seq.
      rewrite (received_from_sends s (fun _ => residual_messages 1 0 0)).
      repeat case_decide; lia.
    - rewrite residual_calls_other by done.
      change [MPI_Send 0 (residual_messages 0 r 0); MPI_Recv 0 vars]
        with (map (fun i => MPI_Send i (residual_messages 0 r 0)) [0]
              ++ map (fun i => MPI_Recv i vars : mpi_call D) (seq 0 1)).
      rewrite received_from_app, received_from_sends, received_from_recvs_seq.
      repeat case_decide; lia. }
  assert (Hsent : forall r s, r < n -> s < n ->
    sent_to r (calls (snd (run_rank
        (residuals_prog vars indeterminate n R0 qt m) residual_messages s)))
    = if decide (s = 0) then (if decide (r = 0) then []
                              else [residual_messages r 0 0])
      else (if decide (r = 0) then [residual_messages 0 s 0] else [])).
  { intros r s Hr Hs. destruct (decide (s = 0)) as [->|Hs0].
    - rewrite residual_calls_root, sent_to_app, sent_to_recvs, sent_to_sends_seq.
      unfold residual_messages.
      repeat case_decide; try lia; done.
    - rewrite residual_calls_other by done.
      change [MPI_Send 0 (residual_messages 0 s 0); MPI_Recv 0 vars]
        with (map (fun i => MPI_Send i (residual_messages 0 s 0)) (seq 0 1)
              ++ map (fun i => MPI_Recv i vars : mpi_call D) [0]).
      rewrite sent_to_app, sent_to_recvs, sent_to_sends_seq, app_nil_r.
      repeat case_decide; try lia; done. }
  split.
  - intros r s k Hr Hs Hk. rewrite Hrecv in Hk by done.
    rewrite Hsent by done.
    repeat case_decide; try lia; assert (k = 0) as -> by lia; subst;
      try done.
  - intros r s Hr Hs. rewrite Hrecv, Hsent by done.
    repeat case_decide; done.
Qed.
End Matching.

(** ** The driver without reconstruction *)

Section FlagsOff.
Context {D : Type} `{Arith D}.
Variable P : problem D.
Variable indeterminate : D.
Variable pool : mpi_wrapper.
Variable opt : solverOptions D.
Hypothesis no_gradients : do_calc_gradients P = false.
Hypothesis no_limiters : do_calc_limiters P = false.








End FlagsOff.


(** ** The kernels of the examples *)

Section ExactKernels.
Local Open Scope R_scope.

Ltac exact_arith :=
  cbn [dadd dsub dmul ddiv dsqrt dlt dle exact];
  change (@lit R exact) with Q2R;
  change (1%Q) with (inject_Z 1); change (2%Q) with (inject_Z 2);
  change (3%Q) with (inject_Z 3); change (0%Q) with (inject_Z 0);
  rewrite ?Q2R_Z.

(** In exact arithmetic the diffusion gradient of an edge seen from cell
    [j] is the opposite of the one seen from cell [i]. *)
Theorem gradient_for_diffusion_antisymmetric (qi qj : list R) (n : R * R)
    (area len : R) :
  fst (gradient_for_diffusion qj qi n area len)
  = - fst (gradient_for_diffusion qi qj n area len)
  /\ snd (gradient_for_diffusion qj qi n area len)
     = - snd (gradient_for_diffusion qi qj n area len).
Proof.
  unfold gradient_for_diffusion. cbn [fst snd]. exact_arith.
  unfold Rdiv. split; ring.
Qed.

(** In exact arithmetic the Michalak function is non-decreasing, is 0 at 0
    and is 1 from 2 on. *)
Theorem michalak_monotone_exact (x y : R) :
  (x <= y -> michalak x <= michalak y)
  /\ michalak 0 = 0
  /\ (2 <= y -> michalak y = 1).
Proof.
  unfold michalak. cbv zeta. exact_arith.
  change ((-3)%Q) with (inject_Z (-3)). rewrite !Q2R_Z.
  replace (Q2R 0.5) with (/ 2) by (unfold Q2R; simpl; lra).
  replace (1 / (2 * 2) - 2 / (2 * 2 * 2)) with 0 by lra.
  replace (-3 / 2 * 0 * 2 - / 2 / 2) with (- / 4) by lra.
  split; [|split].
  - intros Hxy.
    destruct (Exact.leb 2 x) eqn:Hx, (Exact.leb 2 y) eqn:Hy;
      rewrite ?Exact_leb_true, ?Exact_leb_false in *; nra.
  - destruct (Exact.leb 2 0) eqn:H0; [apply Exact_leb_true in H0; lra|lra].
  - intros Hy. destruct (Exact.leb 2 y) eqn:Hle; [done|].
    apply Exact_leb_false in Hle. lra.
Qed.

(** In exact arithmetic and for a unit normal, the wall kernel of the
    forward step keeps the density, the energy, the speed and the pressure,
    and turns the normal momentum into its opposite; applied to its own
    result it gives the state back. *)
Theorem wall_reflects_exact (b b' q : list R) (n : R * R) :
  fst n * fst n + snd n * snd n = 1 ->
  let r := ForwardStep.wall b q n in
  r !!! 0%nat = q !!! 0%nat /\ r !!! 3%nat = q !!! 3%nat
  /\ r !!! 1%nat * r !!! 1%nat + r !!! 2%nat * r !!! 2%nat
     = q !!! 1%nat * q !!! 1%nat + q !!! 2%nat * q !!! 2%nat
  /\ fst n * r !!! 1%nat + snd n * r !!! 2%nat
     = - (fst n * q !!! 1%nat + snd n * q !!! 2%nat)
  /\ ForwardStep.calc_p r = ForwardStep.calc_p q
  /\ ForwardStep.wall b' r n
     = [q !!! 0%nat; q !!! 1%nat; q !!! 2%nat; q !!! 3%nat].
Proof.
  intros Hn r. subst r. unfold ForwardStep.calc_p, ForwardStep.wall.
  cbn [lookup_total list_lookup_total]. exact_arith.
  destruct n as [n0 n1]. cbn [fst snd] in *.
  set (q1 := q !!! 1%nat). set (q2 := q !!! 2%nat).
  assert (n1 * n1 = 1 - n0 * n0) as Hn1 by lra.
  set (d := n0 * q1 + n1 * q2).
  assert (Hspeed :
    (q1 - 2 * n0 * d) * (q1 - 2 * n0 * d)
    + (q2 - 2 * n1 * d) * (q2 - 2 * n1 * d) = q1 * q1 + q2 * q2).
  { replace ((q1 - 2 * n0 * d) * (q1 - 2 * n0 * d)
             + (q2 - 2 * n1 * d) * (q2 - 2 * n1 * d))
      with (q1 * q1 + q2 * q2 - 4 * d * (n0 * q1 + n1 * q2)
            + 4 * d * d * (n0 * n0 + n1 * n1)) by ring.
    rewrite Hn. unfold d. ring. }
  assert (Hflip : n0 * (q1 - 2 * n0 * d) + n1 * (q2 - 2 * n1 * d) = - d).
  { replace (n0 * (q1 - 2 * n0 * d) + n1 * (q2 - 2 * n1 * d))
      with (n0 * q1 + n1 * q2 - 2 * d * (n0 * n0 + n1 * n1)) by ring.
    rewrite Hn. unfold d. ring. }
  repeat split; try reflexivity.
  - exact Hspeed.
  - exact Hflip.
  - by rewrite Hspeed.
  - rewrite Hflip. f_equal. f_equal; [ring|]. f_equal. ring.
Qed.

Lemma edge_limiter_without_gradients (vars : nat) (limiter_func : R -> R)
    (q gx gy qmin qmax : list R) (m : mesh R) e id k :
  (forall p, gx !!! p = 0) -> (forall p, gy !!! p = 0) ->
  edge_limiter vars limiter_func q gx gy qmin qmax m e id k = 1.
Proof.
  intros Hgx Hgy. unfold edge_limiter. cbv zeta. rewrite Hgx, Hgy.
  exact_arith.
  pose proof exact_tol_pos as Htol.
  replace (0 * _ + 0 * _) with 0 by ring.
  destruct (Exact.ltb tol 0) eqn:E1; [apply Exact_ltb_true in E1; lra|].
  destruct (Exact.ltb 0 (0 - tol)) eqn:E2; [apply Exact_ltb_true in E2; lra|].
  ring.
Qed.

Lemma calc_limiters_zero_gradients (vars : nat)
    (limiter_func : R -> R) (limiters qmin qmax q gx gy : list R)
    (m : mesh R) (p : nat) :
  (forall p, gx !!! p = 0) -> (forall p, gy !!! p = 0) ->
  (p < length limiters)%nat ->
  fst (fst (calc_limiters vars limiter_func limiters qmin qmax q gx gy m))
    !!! p = 1.
Proof.
  intros Hgx Hgy Hp.
  destruct (calc_limiters_limiters vars limiter_func limiters qmin qmax q
              gx gy m) as (qmin' & qmax' & -> & _).
  cbn [fst].
  cut (Forall (fun x => x = 1)
         (for_loop 0 (length (edgesLengths m)) (fun e l =>
            fold_left (limit_endpoint vars limiter_func q gx gy qmin' qmax' m e)
              [fst (edgesCells m !!! e); snd (edgesCells m !!! e)] l)
            (for_loop 0 (length limiters) (fun i l => <[i := lit 1]> l)
               limiters))
       /\ length (for_loop 0 (length (edgesLengths m)) (fun e l =>
            fold_left (limit_endpoint vars limiter_func q gx gy qmin' qmax' m e)
              [fst (edgesCells m !!! e); snd (edgesCells m !!! e)] l)
            (for_loop 0 (length limiters) (fun i l => <[i := lit 1]> l)
               limiters)) = length limiters).
  { intros [Hall Hlen].
    apply (@Forall_lookup_total_1 R (fun x => x = 1) _ _ _ Hall). lia. }
  assert (Hstep : forall e l id,
    Forall (fun x => x = 1) l ->
    Forall (fun x => x = 1)
      (limit_endpoint vars limiter_func q gx gy qmin' qmax' m e l id)).
  { intros e l id Hl. unfold limit_endpoint. case_match; [|done].
    apply for_loop_preserves; [done|].
    intros k acc _ Hacc. cbv zeta.
    destruct (decide (idx vars id k < length acc)%nat) as [Hin|Hout];
      [|by rewrite list_insert_ge by lia].
    apply Forall_insert; [done|].
    rewrite edge_limiter_without_gradients by done.
    rewrite (@Forall_lookup_total_1 R (fun x => x = 1) _ _ _ Hacc) by done.
    unfold std_min. by destruct (1 <? 1)%D. }
  apply (for_loop_preserves (fun l =>
    Forall (fun x => x = 1) l /\ length l = length limiters)).
  - split.
    + apply (@Forall_lookup_total_2 R (fun x => x = 1) _).
      intros i Hi.
      rewrite (stores_length (fun i => i) (fun _ _ => lit 1)) in Hi.
      rewrite (fill_lookup (lit 1)) by done. exact exact_one.
    + apply (stores_length (fun i => i) (fun _ _ => lit 1)).
  - intros e l _ [Hl Hlen]. cbn [fold_left]. split.
    + by apply Hstep, Hstep.
    + by rewrite !limit_endpoint_length.
Qed.

(** In exact arithmetic, on buffers of [vars * n] entries and a mesh whose
    edges join cells below [n], where every entry of the gradients is zero
    [calc_limiters] leaves every limiter at 1: a field without gradient is
    not limited. *)
Theorem calc_limiters_without_gradients_exact (vars : nat)
    (limiter_func : R -> R) (limiters qmin qmax q gx gy : list R)
    (m : mesh R) (n p : nat) :
  (N.of_nat (vars * n) <= uint_max)%N ->
  length q = (vars * n)%nat -> length limiters = length q ->
  length qmin = length q -> length qmax = length q ->
  length gx = length q -> length gy = length q ->
  (forall e, (e < length (edgesLengths m))%nat ->
     (fst (edgesCells m !!! e) < n)%nat /\ (snd (edgesCells m !!! e) < n)%nat) ->
  Forall (fun x => x = 0) gx -> Forall (fun x => x = 0) gy ->
  (p < length limiters)%nat ->
  fst (fst (calc_limiters vars limiter_func limiters qmin qmax q gx gy m))
    !!! p = 1.
Proof.
  intros _ _ _ _ _ _ _ _ Hgx Hgy Hp.
  assert (Hzero : forall l : list R,
    Forall (fun x => x = 0) l -> forall i, l !!! i = 0).
  { intros l Hl i. destruct (decide (i < length l)%nat) as [Hi|Hi].
    - by apply (Forall_lookup_total_1 (fun x => x = 0) l i Hl).
    - rewrite lookup_total_oob by lia.
      unfold inhabitant, arith_inhabited, zero. simpl. exact_arith.
      reflexivity. }
  apply calc_limiters_zero_gradients; auto.
Qed.

(** The boundary kernels of the two examples ([wall] and [inlet_outlet]
    of the forward step, [zero_flux] of the shock tube) compute the ghost
    state from the owned state and the normal alone, so on a mesh whose
    boundary edges join an owned cell to a ghost cell a second
    [update_bounds] changes nothing. *)
Theorem example_bounds_are_idempotent {D : Type} `{Arith D}
    (m : mesh D) (q : list D) :
  (N.of_nat (4 * ncells m) <= uint_max)%N ->
  (forall i, (i < length (boundaryEdges m))%nat ->
     (fst (edgesCells m !!! (boundaryEdges m !!! i)) < nRealCells m)%nat
     /\ (nRealCells m <= snd (edgesCells m !!! (boundaryEdges m !!! i))
         < ncells m)%nat) ->
  (forall i K, boundaryFuncs m !! i = Some K ->
     K = ForwardStep.wall \/ K = ForwardStep.inlet_outlet
     \/ K = ShockTube.zero_flux) ->
  update_bounds 4 (update_bounds 4 q m) m = update_bounds 4 q m.
Proof.
  intros Hfit Hpair Hkernels.
  apply update_bounds_twice; [done|done|].
  intros i K HK b b' s n.
  by destruct (Hkernels i K HK) as [->|[->| ->]].
Qed.
End ExactKernels.


Lemma example_bounds_are_idempotent_witness :
  update_bounds 4 (update_bounds 4 Duct.q0 Duct.m) Duct.m
  = update_bounds 4 Duct.q0 Duct.m.
Proof.
  apply (example_bounds_are_idempotent Duct.m Duct.q0).
  - vm_compute. discriminate.
  - intros i Hi. simpl in Hi. assert (i = 0) as -> by lia. vm_compute. lia.
  - intros i K HK. destruct i as [|i]; [|discriminate].
    injection HK as <-. by left.
Defined.


Section ExactKernelsInstances.
Local Open Scope R_scope.

Lemma wall_reflects_exact_witness :
  let q : list R := [1; 2; 3; 4] in
  let n : R * R := (1, 0) in
  let r := ForwardStep.wall [] q n in
  r !!! 0%nat = q !!! 0%nat /\ r !!! 3%nat = q !!! 3%nat
  /\ r !!! 1%nat * r !!! 1%nat + r !!! 2%nat * r !!! 2%nat
     = q !!! 1%nat * q !!! 1%nat + q !!! 2%nat * q !!! 2%nat
  /\ fst n * r !!! 1%nat + snd n * r !!! 2%nat
     = - (fst n * q !!! 1%nat + snd n * q !!! 2%nat)
  /\ ForwardStep.calc_p r = ForwardStep.calc_p q
  /\ ForwardStep.wall [] r n
     = [q !!! 0%nat; q !!! 1%nat; q !!! 2%nat; q !!! 3%nat].
Proof.
  apply (wall_reflects_exact [] [] [1; 2; 3; 4] (1, 0)).
  simpl. lra.
Defined.

Lemma calc_limiters_without_gradients_exact_witness :
  fst (fst (calc_limiters 1 michalak [0; 0] [0; 0] [0; 0] [2; 4] [0; 0]
              [0; 0] Halo.m_exact)) !!! 0%nat = 1.
Proof.
  apply (calc_limiters_without_gradients_exact 1 michalak [0; 0] [0; 0]
           [0; 0] [2; 4] [0; 0] [0; 0] Halo.m_exact 2 0).
  - vm_compute. discriminate.
  - reflexivity.
  - reflexivity.
  - reflexivity.
  - reflexivity.
  - reflexivity.
  - reflexivity.
  - intros e He. simpl in He. assert (e = 0%nat) as -> by lia. simpl. lia.
  - repeat constructor.
  - repeat constructor.
  - simpl. lia.
Defined.
End ExactKernelsInstances.

(** ** The bounds of [calc_limiters] in exact arithmetic *)

Section ExactBounds.
Variable vars : nat.
Local Open Scope R_scope.

Lemma insert_min_decreases (l : list R) i y p :
  <[i := std_min (l !!! i) y]> l !!! p <= l !!! p.
Proof.
  rewrite list_lookup_total_insert. case_decide as Hd; [|lra].
  destruct Hd as [-> _]. apply exact_std_min_le.
Qed.

Lemma insert_max_increases (l : list R) i y p :
  l !!! p <= <[i := std_max (l !!! i) y]> l !!! p.
Proof.
  rewrite list_lookup_total_insert. case_decide as Hd; [|lra].
  destruct Hd as [-> _]. apply exact_std_max_ge.
Qed.

(** Lines 97-101 for one edge and one variable. *)
Definition widen (q : list R) (i j k : nat) (mm : list R * list R)
    : list R * list R :=
  let '(qmin, qmax) := mm in
  let qmin := <[idx vars i k :=
                 std_min (qmin !!! idx vars i k) (q !!! idx vars j k)]> qmin in
  let qmin := <[idx vars j k :=
                 std_min (qmin !!! idx vars j k) (q !!! idx vars i k)]> qmin in
  let qmax := <[idx vars i k :=
                 std_max (qmax !!! idx vars i k) (q !!! idx vars j k)]> qmax in
  let qmax := <[idx vars j k :=
                 std_max (qmax !!! idx vars j k) (q !!! idx vars i k)]> qmax in
  (qmin, qmax).

(** [mm'] is at least as wide as [mm]. *)
Definition wider (mm' mm : list R * list R) : Prop :=
  length (fst mm') = length (fst mm) /\ length (snd mm') = length (snd mm)
  /\ forall p, fst mm' !!! p <= fst mm !!! p /\ snd mm !!! p <= snd mm' !!! p.

Lemma wider_refl mm : wider mm mm.
Proof. repeat split; lra. Qed.

Lemma wider_trans m1 m2 m3 : wider m1 m2 -> wider m2 m3 -> wider m1 m3.
Proof.
  intros (? & ? & H12) (? & ? & H23). repeat split; try congruence;
    specialize (H12 p); specialize (H23 p); lra.
Qed.

Lemma widen_wider q i j k mm : wider (widen q i j k mm) mm.
Proof.
  destruct mm as [a b]. unfold widen, wider. cbn [fst snd].
  rewrite !length_insert. repeat split.
  - etransitivity; [apply insert_min_decreases|apply insert_min_decreases].
  - etransitivity; [apply insert_max_increases|apply insert_max_increases].
Qed.

(** [mm] bounds the two ends of the edge [(i, j)] for the variable [k]. *)
Definition bounds_edge (q : list R) (i j k : nat) (mm : list R * list R)
    : Prop :=
  fst mm !!! idx vars i k <= q !!! idx vars j k
  /\ fst mm !!! idx vars j k <= q !!! idx vars i k
  /\ q !!! idx vars j k <= snd mm !!! idx vars i k
  /\ q !!! idx vars i k <= snd mm !!! idx vars j k.

Lemma wider_bounds_edge q i j k mm' mm :
  wider mm' mm -> bounds_edge q i j k mm -> bounds_edge q i j k mm'.
Proof.
  intros (_ & _ & Hw) (H1 & H2 & H3 & H4). unfold bounds_edge.
  pose proof (Hw (idx vars i k)). pose proof (Hw (idx vars j k)).
  repeat split; lra.
Qed.

Lemma insert_min_at (l : list R) i y :
  (i < length l)%nat -> <[i := std_min (l !!! i) y]> l !!! i <= y.
Proof.
  intros Hi. rewrite list_lookup_total_insert, decide_True by done.
  apply exact_std_min_le.
Qed.

Lemma insert_max_at (l : list R) i y :
  (i < length l)%nat -> y <= <[i := std_max (l !!! i) y]> l !!! i.
Proof.
  intros Hi. rewrite list_lookup_total_insert, decide_True by done.
  apply exact_std_max_ge.
Qed.

Lemma widen_bounds_edge q i j k mm :
  (idx vars i k < length (fst mm))%nat ->
  (idx vars j k < length (fst mm))%nat ->
  (idx vars i k < length (snd mm))%nat ->
  (idx vars j k < length (snd mm))%nat ->
  bounds_edge q i j k (widen q i j k mm).
Proof.
  destruct mm as [a b]. cbn [fst snd]. intros Hia Hja Hib Hjb.
  unfold bounds_edge, widen. cbn [fst snd]. repeat split.
  - etransitivity; [apply insert_min_decreases|by apply insert_min_at].
  - apply insert_min_at. by rewrite length_insert.
  - etransitivity; [|apply insert_max_increases]. by apply insert_max_at.
  - apply insert_max_at. by rewrite length_insert.
Qed.

(** In exact arithmetic, the [qmin] and [qmax] that [calc_limiters] returns
    bound, for every edge and every variable, the values of [q] in both
    cells of the edge. *)
Theorem calc_limiters_brackets_the_neighbours_exact
    (limiter_func : R -> R) (limiters qmin qmax q gx gy : list R)
    (m : mesh R) (n e k : nat) :
  (N.of_nat (vars * n) <= uint_max)%N ->
  length q = (vars * n)%nat ->
  length qmin = length q -> length qmax = length q ->
  (e < length (edgesLengths m))%nat ->
  (fst (edgesCells m !!! e) < n)%nat -> (snd (edgesCells m !!! e) < n)%nat ->
  (k < vars)%nat ->
  let r := calc_limiters vars limiter_func limiters qmin qmax q gx gy m in
  let i := fst (edgesCells m !!! e) in
  let j := snd (edgesCells m !!! e) in
  forall c c', (c = i \/ c = j) -> (c' = i \/ c' = j) ->
    snd (fst r) !!! (vars * c + k)%nat <= q !!! (vars * c' + k)%nat
    /\ q !!! (vars * c' + k)%nat <= snd r !!! (vars * c + k)%nat.
Proof.
  intros Hfit Hq Hmin Hmax He Hi Hj Hk r i j. subst r.
  destruct (idx_lt vars n i k) as [Hii Hil]; [done..|].
  destruct (idx_lt vars n j k) as [Hij Hjl]; [done..|].
  pose proof (calc_limiters_brackets vars limiter_func limiters qmin qmax q
                gx gy m Hmin Hmax) as Hb.
  cut (bounds_edge q i j k
         (snd (fst (calc_limiters vars limiter_func limiters qmin qmax q
                      gx gy m)),
          snd (calc_limiters vars limiter_func limiters qmin qmax q
                 gx gy m))).
  { intros (H1 & H2 & H3 & H4). cbn [fst snd] in *.
    rewrite Hii, Hij in *.
    intros c c' [-> | ->] [-> | ->];
      try (split; assumption);
      [pose proof (Hb (vars * i + k)%nat)|pose proof (Hb (vars * j + k)%nat)];
      done. }
  destruct (calc_limiters_limiters vars limiter_func limiters qmin qmax q
              gx gy m) as (qmin' & qmax' & -> & Hmm).
  cbn [fst snd]. rewrite Hmm. clear Hmm Hb.
  match goal with |- bounds_edge _ _ _ _ (for_loop _ _ ?b ?s) =>
    set (body := b); set (s0 := s) end.
  assert (Hs0 : length (fst s0) = length q /\ length (snd s0) = length q).
  { unfold s0. rewrite for_loop_pair. cbn [fst snd].
    by rewrite !(stores_length (fun i => i) (fun i _ => q !!! i)). }
  assert (Hbody : forall e' mm, wider (body e' mm) mm).
  { intros e' mm. unfold body. destruct (edgesCells m !!! e') as [i' j'].
    apply (for_loop_preserves (fun mm' => wider mm' mm));
      [apply wider_refl|].
    intros k' mm' _ Hw. eapply wider_trans; [|exact Hw].
    destruct mm' as [a b]. apply (widen_wider q i' j' k' (a, b)). }
  cut (let mm := for_loop 0 (length (edgesLengths m)) body s0 in
       wider mm s0 /\ (e < length (edgesLengths m) -> bounds_edge q i j k mm)%nat).
  { intros [_ Hres]. by apply Hres. }
  apply (for_loop_inv (fun e' mm =>
    wider mm s0 /\ (e < e' -> bounds_edge q i j k mm)%nat));
    [lia|split; [apply wider_refl|lia]|].
  intros e' mm He' [Hw Hdone]. split.
  { eapply wider_trans; [apply Hbody|exact Hw]. }
  intros Hlt. destruct (decide (e = e')) as [<-|Hne].
  2:{ eapply wider_bounds_edge; [apply Hbody|]. apply Hdone. lia. }
  unfold body. fold i j.
  destruct (edgesCells m !!! e) as [i' j'] eqn:Hedge. cbn [fst snd] in *.
  subst i j.
  destruct Hw as (Hl1 & Hl2 & _). destruct Hs0 as [Hs1 Hs2].
  cut (let mm' := for_loop 0 vars (fun k' '(a, b) => widen q i' j' k' (a, b))
                    mm in
       wider mm' mm /\ (k < vars -> bounds_edge q i' j' k mm')%nat).
  { intros [_ Hres]. by apply Hres. }
  apply (for_loop_inv (fun k' mm' =>
    wider mm' mm /\ (k < k' -> bounds_edge q i' j' k mm')%nat));
    [lia|split; [apply wider_refl|lia]|].
  intros k' [a b] Hk' [Hw' Hd']. split.
  { eapply wider_trans; [apply widen_wider|exact Hw']. }
  intros Hkk. destruct (decide (k = k')) as [<-|Hnk].
  - destruct Hw' as (Hl1' & Hl2' & _). cbn [fst snd] in *.
    apply widen_bounds_edge; cbn [fst snd]; lia.
  - eapply wider_bounds_edge; [apply widen_wider|]. apply Hd'. lia.
Qed.
End ExactBounds.


Section ExactBoundsInstances.
Local Open Scope R_scope.

Lemma calc_limiters_brackets_the_neighbours_exact_witness :
  let r := calc_limiters 1 michalak [0; 0] [0; 0] [0; 0] [2; 4] [0; 0]
             [0; 0] Halo.m_exact in
  snd (fst r) !!! (1 * 0 + 0)%nat <= [2; 4] !!! (1 * 1 + 0)%nat
    <= snd r !!! (1 * 0 + 0)%nat.
Proof.
  apply (calc_limiters_brackets_the_neighbours_exact 1 michalak [0; 0]
           [0; 0] [0; 0] [2; 4] [0; 0] [0; 0] Halo.m_exact 2 0 0).
  - vm_compute. discriminate.
  - reflexivity.
  - reflexivity.
  - reflexivity.
  - simpl. lia.
  - simpl. lia.
  - simpl. lia.
  - lia.
  - by left.
  - by right.
Defined.
End ExactBoundsInstances.
